(** * klepto: caching decorators and archive-backed dictionaries

    A shallow embedding of [klepto/_cache.py] (the decorators [no_cache],
    [inf_cache], [lfu_cache], [lru_cache], [mru_cache], [rr_cache]) and of
    [klepto/_archives.py] (the classes [cache], [null_archive],
    [dict_archive], [dir_archive]), followed by the properties established
    for them.

    Conventions of the embedding:
    - a Python [dict] is an association list in insertion order (the order
      in which Python 3 iterates it), with unique keys;
    - a [Counter] is a [dict] of integers whose missing keys read as zero;
    - a [deque] is a list whose head is the left end;
    - a Python call that may raise returns a [result];
    - closures are records of the variables they capture; a wrapper takes
      the record and returns the new record with the outcome of the call;
    - the directory of a [dir_archive] is a finite map from the names of
      its subdirectories to their two files;
    - what the operating system and the random generator decide (faults of
      file operations, temporary names, [random.choice]) is read from an
      explicit [world] given to each call.  File errors are [OSError]s, as
      in Python 3; the errors that serialising an object raises are read
      from the signature of the decorated function. *)

From stdpp Require Import base option list strings gmap pretty sorting.
From Stdlib Require Import ZArith Lia.

(** ** Exceptions and results *)

Inductive exn : Type :=
  | KeyError
  | ValueError
  | TypeError
  | NameError
  | IndexError
  | OSError
  | UnpicklingError
  | ImportError
  | SyntaxError
  | UserError (code : nat).

Inductive result (A : Type) : Type :=
  | Ok (a : A)
  | Raise (e : exn).
Arguments Ok {A} a.
Arguments Raise {A} e.

Definition raises {A} (r : result A) : bool :=
  match r with Ok _ => false | Raise _ => true end.

(** [try: body except: handler] with a bare [except] clause. *)
Definition try_except {A} (body : result A) (handler : exn → result A) : result A :=
  match body with
  | Ok a => Ok a
  | Raise e => handler e
  end.

(** ** Python dictionaries *)

Module dict.
Section dict.
Context {K V : Type} `{EqDecision K}.
Implicit Types (d : list (K * V)) (k : K) (v : V).

Fixpoint lookup_key d k : option V :=
  match d with
  | [] => None
  | (k', v) :: d' => if decide (k = k') then Some v else lookup_key d' k
  end.

Definition keys d : list K := d.*1.

Definition __contains__ d k : bool := bool_decide (k ∈ keys d).

Definition __getitem__ d k : result V :=
  match lookup_key d k with
  | Some v => Ok v
  | None => Raise KeyError
  end.

(** [d[k] = v]: an existing key keeps its position. *)
Fixpoint __setitem__ d k v : list (K * V) :=
  match d with
  | [] => [(k, v)]
  | (k', v') :: d' =>
      if decide (k = k') then (k', v) :: d' else (k', v') :: __setitem__ d' k v
  end.

Fixpoint remove_key d k : list (K * V) :=
  match d with
  | [] => []
  | (k', v') :: d' =>
      if decide (k = k') then d' else (k', v') :: remove_key d' k
  end.

(** [del d[k]] *)
Definition __delitem__ d k : result (list (K * V)) :=
  if __contains__ d k then Ok (remove_key d k) else Raise KeyError.

(** [d.update(other)] *)
Definition update d (other : list (K * V)) : list (K * V) :=
  foldl (λ acc kv, __setitem__ acc kv.1 kv.2) d other.

Definition clear d : list (K * V) := [].
(** [d.pop(k, *default)]: the dictionary without the key and its value;
    the default when the key is missing and one default is given. *)
Definition pop d k (default : list V) : list (K * V) * result V :=
  match default with
  | _ :: _ :: _ => (d, Raise TypeError)
  | _ =>
      match lookup_key d k, default with
      | Some v, _ => (remove_key d k, Ok v)
      | None, v :: _ => (d, Ok v)
      | None, [] => (d, Raise KeyError)
      end
  end.
End dict.
End dict.

(** [class Counter(dict)]: [__missing__] returns 0. *)
Module Counter.
Section Counter.
Context {K : Type} `{EqDecision K}.
Implicit Types (c : list (K * Z)) (k : K).

Definition get c k : Z := default 0%Z (dict.lookup_key c k).

(** [c[k] += n] *)
Definition add c k (n : Z) : list (K * Z) := dict.__setitem__ c k (get c k + n)%Z.
End Counter.
End Counter.

(** The entries of [__state__] that decide how a file is read:
    [serialized] and [fast]. *)
Record settings : Type := Settings { serialized : bool; fast : bool }.

(** [dir_archive(dirname)]: pickled with [dill]. *)
Definition pickled : settings := Settings true false.

(** ** What a decorated function is made of

    The key type with Python's equality; the values; the arguments of the
    wrapped function; [keymap], the composition of [rounded_args],
    [_keygen] and the keymap that turns the arguments of a call into its
    key; and what [dir_archive._fname] asks of a key: [str(key)], whether
    the key is a pickle string, its md5 hash ([klepto.crypto.hash]), and
    the string the key is when it is a Python string.  Last, what
    serialising asks of the objects: the error that [dill.dump],
    [_pickle.dump] or [getimportable], by the settings of the archive,
    raises on a value or on a key that does not serialise; an error of
    this kind is not an [OSError]. *)
Class Signature : Type := {
  key : Type;
  key_eq_dec :: EqDecision key;
  value : Type;
  args : Type;
  keymap : args → key;
  str : key → string;
  ispickle : key → bool;
  hash_md5 : key → string;
  as_str : key → option string;
  value_dump_error : settings → value → option exn;
  key_dump_error : settings → key → option exn;
  value_dump_error_escapes : ∀ s v, value_dump_error s v ≠ Some OSError;
  key_dump_error_escapes : ∀ s k, key_dump_error s k ≠ Some OSError;
}.

(** ** The directory of a [dir_archive]

    [root/K_<name>/output.pkl] holds the serialised value and
    [root/K_<name>/input.pkl] the serialised key ([__init__.py] and
    [__args__.py] in an archive that is not serialised).  A file is kept
    with whether it can be opened for reading and with the object its
    bytes yield when they are read back, if they do. *)

Definition PREFIX : string := "K_".
Definition TEMP : string := "I_".

Record file (A : Type) : Type := File {
  readable : bool;
  payload : option A;
}.
Arguments File {A} readable payload.
Arguments readable {A} f.
Arguments payload {A} f.

Record subdir `{Signature} : Type := Subdir {
  output : option (file value);
  input : option (file key);
}.
Arguments Subdir {_} output input.
Arguments output {_} s.
Arguments input {_} s.

(** What the system decides during one [dir_archive._store]. *)
Inductive io_outcome : Type :=
  | io_ok
  | io_fail_open    (* [open(_, 'wb')] raises *)
  | io_fail_write.  (* the file is created, writing it raises *)

Record store_env : Type := StoreEnv {
  tmp : string;            (* hash(random(), 'md5') *)
  mkdir_fails : bool;
  output_io : io_outcome;
  input_io : io_outcome;
  rmtree_fails : bool;
  rename_fails : bool;
}.

(** What the system decides during one call of a wrapper: the
    environment of the n-th [_store] of a dump, and the number drawn by
    [random.choice]. *)
Record world : Type := World {
  store_envs : nat → store_env;
  random_index : nat;
}.

Module dir_archive.
Section dir_archive.
Context `{Signature}.
Implicit Types (root : gmap string subdir) (k : key) (v : value).

Definition _fname k : string :=
  if ispickle k then hash_md5 k else str k.

(** [os.path.join(root, PREFIX+key)], relative to the root.  The temporary
    key of [_store] is a plain string, which [_fname] leaves as it is.
    The directory is a flat map from these names: a name is the path of
    one entry of the root when it holds no path separator ([flat_name]
    below), which the properties that relate two keys ask for. *)
Definition _getdir k : string := PREFIX +:+ _fname k.
Definition _getdir_str (name : string) : string := PREFIX +:+ name.

(** Reading a file: it may be absent or closed to the reader, and its
    bytes may fail to yield an object. *)
Definition read_with {A} (access_error decode_error : exn) (f : option (file A))
  : result A :=
  match f with
  | None => Raise access_error
  | Some f =>
      if readable f then
        match payload f with
        | Some a => Ok a
        | None => Raise decode_error
        end
      else Raise access_error
  end.

(** [f = open(_file, 'rb'); memo = dill.load(f); f.close()] *)
Definition dill_load {A} : option (file A) → result A :=
  read_with OSError UnpicklingError.

(** [_pickle.load(_file, mmap_mode=...)] *)
Definition _pickle_load {A} : option (file A) → result A :=
  read_with OSError UnpicklingError.

(** [exec("from K_<name> import memo as ...")] with the root on [sys.path].
    What the file yields is modelled, not whether [K_<name>] is a name that
    the import statement accepts: the properties of entries that are read
    back are stated for archives that pickle their entries. *)
Definition import_memo {A} : option (file A) → result A :=
  read_with ImportError SyntaxError.

(** [_lookup(key)]: a path under a subdirectory that does not exist is
    the path of no file. *)
Definition _lookup (s : settings) root k : result value :=
  let _dir := _getdir k in
  let _file := root !! _dir ≫= output in
  if serialized s then
    try_except
      (if fast s then _pickle_load _file else dill_load _file)
      (λ _, Raise KeyError)
  else
    try_except (import_memo _file) (λ _, Raise KeyError).

Definition __getitem__ (s : settings) root k : result value := _lookup s root k.

(** [get]: a bare [except] returns the default. *)
Definition get (s : settings) root k (default : value) : value :=
  match __getitem__ s root k with
  | Ok v => v
  | Raise _ => default
  end.

(** [self._fname(key) != key] *)
Definition needs_input k : bool :=
  negb (bool_decide (as_str k = Some (_fname k))).

Definition empty_subdir : subdir := Subdir None None.

(** [f = open(_file, 'wb'); dill.dump(obj, f); f.close()], and likewise
    [_pickle.dump] and the writing of a module: the three differ in the
    bytes written, not in the files touched or in the errors.  The file
    after the attempt, and whether an [OSError] was raised. *)
Definition write_pickle {A} (io : io_outcome) (old : option (file A)) (obj : A)
  : option (file A) * bool :=
  match io with
  | io_ok => (Some (File true (Some obj)), false)
  | io_fail_open => (old, true)
  | io_fail_write => (Some (File true None), true)
  end.

(** [self._mkdir(_key)] on the temporary key: an [OSError] of [mkdir]
    (the directory exists, or cannot be made) is caught in [_mkdir]. *)
Definition _mkdir_str (e : store_env) root (name : string) : gmap string subdir :=
  let _dir := _getdir_str name in
  if mkdir_fails e then root
  else match root !! _dir with
       | Some _ => root
       | None => <[_dir := empty_subdir]> root
       end.

(** The first [try] of [_store]: fill the temporary directory; an
    [OSError] ends the block and is dropped. *)
Definition populate (e : store_env) root (tdir : string) (with_input : bool) k v
  : gmap string subdir :=
  match root !! tdir with
  | None => root                      (* open: no such directory *)
  | Some d =>
      let '(out, failed) := write_pickle (output_io e) (output d) v in
      let d1 := Subdir out (input d) in
      if failed then <[tdir := d1]> root
      else if with_input then
        let '(inp, _) := write_pickle (input_io e) (input d1) k in
        <[tdir := Subdir out inp]> root
      else <[tdir := d1]> root
  end.

(** [rmtree(self._getdir(key), self=True, ignore_errors=True)] *)
Definition _rmdir (e : store_env) root k : gmap string subdir :=
  if rmtree_fails e then root else delete (_getdir k) root.

Definition is_empty_subdir (d : subdir) : bool :=
  match output d, input d with
  | None, None => true
  | _, _ => false
  end.

(** [os.renames(old, new)] on two subdirectories of the root: the tree
    after the call, an [OSError] leaving it as it was. *)
Definition renames (e : store_env) root (old new : string) : gmap string subdir :=
  match root !! old with
  | None => root
  | Some d =>
      if rename_fails e then root
      else if bool_decide (old = new) then root
      else match root !! new with
           | Some d' =>
               if is_empty_subdir d' then <[new := d]> (delete old root) else root
           | None => <[new := d]> (delete old root)
           end
  end.

(** [_store(key, value)], the directory it leaves when no error leaves it:
    both of its phases pass over an [OSError].  The errors it does not
    catch are those of [_store_escape] below. *)
Definition _store (e : store_env) root k v : gmap string subdir :=
  let _key := TEMP +:+ tmp e in
  let with_input := needs_input k in
  (* create a temporary directory, and dump the results *)
  let root := _mkdir_str e root _key in
  let root := populate e root (_getdir_str _key) with_input k v in
  (* move the results to the proper place *)
  let root := _rmdir e root k in
  renames e root (_getdir_str _key) (_getdir k).

Definition __setitem__ (e : store_env) root k v : gmap string subdir :=
  _store e root k v.

(** The error that leaves [_store] and the directory it leaves behind,
    if there is one.  [except OSError] lets the error of a serialiser
    pass, and the second [try] is not reached: the temporary directory
    stays as it is when the error is raised.  With [serialized] the file
    is opened before the object is serialised into it, so that an
    [OSError] of [open] comes first; otherwise [getimportable] is called
    before the file is opened. *)
Definition _store_escape (s : settings) (e : store_env) root k v
  : option (gmap string subdir * exn) :=
  let _key := TEMP +:+ tmp e in
  let tdir := _getdir_str _key in
  let root := _mkdir_str e root _key in
  if serialized s then
    match root !! tdir, output_io e with
    | None, _ | _, io_fail_open => None
    | Some d, io =>
        match value_dump_error s v with
        | Some err => Some (<[tdir := Subdir (Some (File true None)) (input d)]> root, err)
        | None =>
            match io, needs_input k, input_io e with
            | io_ok, true, (io_ok | io_fail_write) =>
                match key_dump_error s k with
                | Some err =>
                    Some (<[tdir := Subdir (Some (File true (Some v)))
                                           (Some (File true None))]> root, err)
                | None => None
                end
            | _, _, _ => None
            end
        end
    end
  else
    match value_dump_error s v with
    | Some err => Some (root, err)
    | None =>
        match root !! tdir, output_io e, needs_input k with
        | Some d, io_ok, true =>
            match key_dump_error s k with
            | Some err =>
                Some (<[tdir := Subdir (Some (File true (Some v))) (input d)]> root, err)
            | None => None
            end
        | _, _, _ => None
        end
    end.

(** [_store(key, value)] with its outcome: the directory after the
    call, and the error that leaves it. *)
Definition _store_result (s : settings) (e : store_env) root k v
  : gmap string subdir * result unit :=
  match _store_escape s e root k v with
  | Some (root, err) => (root, Raise err)
  | None => (_store e root k v, Ok ())
  end.

(** [update(adict)]: the items are stored one after the other, up to the
    first store that raises. *)
Fixpoint update_from (s : settings) (envs : nat → store_env) (n : nat) root
    (items : list (key * value)) : gmap string subdir * result unit :=
  match items with
  | [] => (root, Ok ())
  | (k, v) :: items =>
      match _store_result s (envs n) root k v with
      | (root, Ok _) => update_from s envs (S n) root items
      | (root, Raise err) => (root, Raise err)
      end
  end.

Definition update_result (s : settings) (envs : nat → store_env) root
    (adict : list (key * value)) : gmap string subdir * result unit :=
  update_from s envs 0 root (dict.update [] adict).

Definition update (s : settings) (envs : nat → store_env) root
    (adict : list (key * value)) : gmap string subdir :=
  (update_result s envs root adict).1.
(** [__contains__]: [os.path.exists(self._getdir(key))] *)
Definition __contains__ root k : bool :=
  bool_decide (is_Some (root !! _getdir k)).

(** [__delitem__]: [_rmdir] passes over the errors of [rmtree], so [memo]
    is [{key: None}] when [memo.__delitem__(key)] is reached. *)
Definition __delitem__ (e : store_env) root k : gmap string subdir * result unit :=
  let root := _rmdir e root k in
  let memo : list (key * unit) := [(k, ())] in
  match dict.__delitem__ memo k with
  | Ok _ => (root, Ok ())
  | Raise err => (root, Raise err)
  end.

(** [pop(key, *value)]: the subdirectory is removed when the value could
    be read; otherwise [memo] is empty and [memo.pop] decides. *)
Definition pop (s : settings) (e : store_env) root k (default : list value)
  : gmap string subdir * result value :=
  match __getitem__ s root k with
  | Ok v => (_rmdir e root k, (dict.pop [(k, v)] k default).2)
  | Raise _ => (root, (dict.pop [] k default).2)
  end.




(** [_hasinput(root)], on the name of a subdirectory. *)
Definition _hasinput root (name : string) : bool :=
  match root !! name with
  | Some d => bool_decide (is_Some (input d))
  | None => false
  end.

(** [_lookup(key, input=True)] on the string that [_getkey] cuts out of
    the name of a subdirectory. *)
Definition _lookup_input (s : settings) root (name : string) : result key :=
  let _dir := _getdir_str name in
  let _file := root !! _dir ≫= input in
  if serialized s then
    try_except
      (if fast s then _pickle_load _file else dill_load _file)
      (λ _, Raise KeyError)
  else
    try_except (import_memo _file) (λ _, Raise KeyError).

(** [s[n:]] *)
Fixpoint string_drop (n : nat) (s : string) : string :=
  match n, s with
  | 0, _ => s
  | S n, String _ s => string_drop n s
  | S _, EmptyString => EmptyString
  end.

(** [_getkey(root)]: the key read back from the input file when there is
    one, and otherwise the name of the subdirectory without its prefix,
    a string. *)
Definition _getkey (s : settings) root (name : string) : result (key + string) :=
  let key := string_drop 2 name in
  if _hasinput root name then
    match _lookup_input s root key with
    | Ok k => Ok (inl k)
    | Raise err => Raise err
    end
  else Ok (inr key).
End dir_archive.
End dir_archive.

(** ** Archives and the [cache] class *)

Inductive archive `{Signature} : Type :=
  | null_archive
  | dict_archive (d : list (key * value))
  | dir_archive (__state__ : settings) (root : gmap string subdir).

Record cache `{Signature} : Type := Cache {
  table : list (key * value);   (* the dictionary the class extends *)
  __archive__ : archive;
  __swap__ : archive;
}.
Arguments Cache {_} table __archive__ __swap__.
Arguments table {_} c.
Arguments __archive__ {_} c.
Arguments __swap__ {_} c.

Module archive_ops.
Section archive_ops.
Context `{Signature}.

(** [isinstance(a, null_archive)] *)
Definition is_null (a : archive) : bool :=
  match a with null_archive => true | _ => false end.

(** [a[k]] *)
Definition __getitem__ (a : archive) (k : key) : result value :=
  match a with
  | null_archive => dict.__getitem__ [] k
  | dict_archive d => dict.__getitem__ d k
  | dir_archive s root => dir_archive.__getitem__ s root k
  end.

(** [a.update(adict)] *)
Definition update (envs : nat → store_env) (a : archive) (adict : list (key * value))
  : archive :=
  match a with
  | null_archive => null_archive
  | dict_archive d => dict_archive (dict.update d adict)
  | dir_archive s root => dir_archive s (dir_archive.update s envs root adict)
  end.

(** The error that leaves [a.update(adict)], if there is one: the update
    of a dictionary raises none. *)
Definition update_raises (envs : nat → store_env) (a : archive)
    (adict : list (key * value)) : option exn :=
  match a with
  | null_archive | dict_archive _ => None
  | dir_archive s root =>
      match (dir_archive.update_result s envs root adict).2 with
      | Ok _ => None
      | Raise err => Some err
      end
  end.
End archive_ops.
End archive_ops.

Module cache.
Section cache.
Context `{Signature}.
Implicit Types (c : cache) (a : archive).

(** [cache(archive=a)]: an empty dictionary, a null swap slot. *)
Definition __init__ (a : archive) : cache := Cache [] a null_archive.

Definition swap_slots c : cache :=
  Cache (table c) (__swap__ c) (__archive__ c).

(** The setter of the [archive] property. *)
Definition __archive c a : cache :=
  let c := if negb (archive_ops.is_null (__swap__ c)) then swap_slots c else c in
  Cache (table c) a (__swap__ c).

(** [load(arg)]: a lookup in an archive raises nothing but [KeyError]
    (see [archive_getitem_KeyError]), which is passed over. *)
Definition load c (arg : key) : cache :=
  match archive_ops.__getitem__ (__archive__ c) arg with
  | Ok v => Cache (dict.update (table c) [(arg, v)]) (__archive__ c) (__swap__ c)
  | Raise _ => c
  end.

(** [dump()] *)
Definition dump (w : world) c : cache :=
  Cache (table c)
        (archive_ops.update (store_envs w) (__archive__ c) (table c))
        (__swap__ c).

(** The error that leaves [dump()], if there is one. *)
Definition dump_raises (w : world) c : option exn :=
  archive_ops.update_raises (store_envs w) (__archive__ c) (table c).

(** [archived] with its variable arguments [on]: [Some b] is the boolean of the form without argument,
    [None] the [None] of the form with one. *)
Definition archived c (on : list bool) : cache * result (option bool) :=
  match on with
  | [] => (c, Ok (Some (negb (archive_ops.is_null (__archive__ c)))))
  | [on0] =>
      if on0 then
        if negb (archive_ops.is_null (__swap__ c)) then (swap_slots c, Ok None)
        else if archive_ops.is_null (__archive__ c) then (c, Raise ValueError)
        else (c, Ok None)
      else
        if negb (archive_ops.is_null (__archive__ c)) then (swap_slots c, Ok None)
        else (c, Ok None)
  | _ => (c, Raise TypeError)
  end.

(** [cache.archived()] as the wrappers test it. *)
Definition is_archived c : bool := negb (archive_ops.is_null (__archive__ c)).

Definition drop c : cache * result unit :=
  match archived c [true] with
  | (c, Raise e) => (c, Raise e)
  | (c, Ok _) => (__archive c null_archive, Ok ())
  end.

Definition open c a : cache :=
  __archive (archived c [true]).1 a.

(** The methods inherited from [dict]. *)
Definition __setitem__ c (k : key) (v : value) : cache :=
  Cache (dict.__setitem__ (table c) k v) (__archive__ c) (__swap__ c).

Definition clear c : cache := Cache [] (__archive__ c) (__swap__ c).

Definition with_table c (t : list (key * value)) : cache :=
  Cache t (__archive__ c) (__swap__ c).
End cache.
End cache.

Abbreviation archive_dict := cache (only parsing).

(** ** Statistics *)

Record stats : Type := Stats { HIT : nat; MISS : nat; LOAD : nat }.

Definition incr_HIT (s : stats) : stats := Stats (S (HIT s)) (MISS s) (LOAD s).
Definition incr_MISS (s : stats) : stats := Stats (HIT s) (S (MISS s)) (LOAD s).
Definition incr_LOAD (s : stats) : stats := Stats (HIT s) (MISS s) (S (LOAD s)).

Module CacheInfo.
Record t : Type := Make {
  hit : nat;
  miss : nat;
  load : nat;
  maxsize : option Z;
  size : nat;
}.
End CacheInfo.

(** [len(cache) > maxsize] *)
Definition len_exceeds {A} (l : list A) (maxsize : Z) : bool :=
  bool_decide (maxsize < Z.of_nat (length l))%Z.

(** ** [no_cache] *)

Module no_cache.
Section no_cache.
Context `{Signature} (user_function : args → result value).

Definition maxsize : Z := 0.

(** The variables the functions of [decorating_function] close over. *)
Record closure : Type := Closure { cache : archive_dict; stats : stats }.

Definition fresh (a : archive) : closure :=
  Closure (cache.__archive (cache.__init__ null_archive) a) (Stats 0 0 0).

(** The block under [# purge cache], where [cache.dump()] returns. *)
Definition purge (w : world) (c : archive_dict) : archive_dict :=
  if len_exceeds (table c) maxsize then
    cache.clear (if cache.is_archived c then cache.dump w c else c)
  else c.

Definition wrapper (w : world) (st : closure) (a : args) : closure * result value :=
  let key := keymap a in
  (* look in archive *)
  let c := if cache.is_archived (cache st) then cache.load (cache st) key else cache st in
  match dict.__getitem__ (table c) key with
  | Ok result =>
      let c := cache.clear c in
      (Closure (purge w c) (incr_LOAD (stats st)), Ok result)
  | Raise _ =>
      (* if not found, then compute *)
      match user_function a with
      | Raise e => (Closure c (stats st), Raise e)
      | Ok result =>
          let c := cache.__setitem__ c key result in
          (Closure (purge w c) (incr_MISS (stats st)), Ok result)
      end
  end.

Definition archive (st : closure) (obj : archive) : closure :=
  Closure (cache.__archive (cache st) obj) (stats st).

Definition clear (st : closure) (keepstats : bool) : closure :=
  Closure (cache st) (if keepstats then stats st else Stats 0 0 0).

Definition info (st : closure) : CacheInfo.t :=
  CacheInfo.Make (HIT (stats st)) (MISS (stats st)) (LOAD (stats st))
                 (Some maxsize) (length (table (cache st))).
End no_cache.
End no_cache.

(** ** [inf_cache] *)

Module inf_cache.
Section inf_cache.
Context `{Signature} (user_function : args → result value).

Definition maxsize : option Z := None.

Record closure : Type := Closure { cache : archive_dict; stats : stats }.

Definition fresh (c : archive_dict) : closure := Closure c (Stats 0 0 0).

Definition wrapper (w : world) (st : closure) (a : args) : closure * result value :=
  let key := keymap a in
  match dict.__getitem__ (table (cache st)) key with
  | Ok result => (Closure (cache st) (incr_HIT (stats st)), Ok result)
  | Raise _ =>
      (* if not in cache, look in archive *)
      let c := if cache.is_archived (cache st) then cache.load (cache st) key else cache st in
      match dict.__getitem__ (table c) key with
      | Ok result => (Closure c (incr_LOAD (stats st)), Ok result)
      | Raise _ =>
          (* if not found, then compute *)
          match user_function a with
          | Raise e => (Closure c (stats st), Raise e)
          | Ok result =>
              (Closure (cache.__setitem__ c key result) (incr_MISS (stats st)), Ok result)
          end
      end
  end.

Definition archive (st : closure) (obj : archive) : closure :=
  Closure (cache.__archive (cache st) obj) (stats st).

Definition clear (st : closure) (keepstats : bool) : closure :=
  Closure (cache.clear (cache st)) (if keepstats then stats st else Stats 0 0 0).

Definition dump (w : world) (st : closure) : closure :=
  Closure (cache.dump w (cache st)) (stats st).

Definition info (st : closure) : CacheInfo.t :=
  CacheInfo.Make (HIT (stats st)) (MISS (stats st)) (LOAD (stats st))
                 maxsize (length (table (cache st))).
End inf_cache.
End inf_cache.

(** ** [heapq.nsmallest] and the deque operations

    [nsmallest(n, iterable, key=itemgetter(1))] is
    [sorted(iterable, key=itemgetter(1))[:n]], a stable sort. *)

Section library.
Context {K : Type} `{EqDecision K}.

Fixpoint insert_by_count (x : K * Z) (l : list (K * Z)) : list (K * Z) :=
  match l with
  | [] => [x]
  | y :: l' => if decide (x.2 ≤ y.2)%Z then x :: l else y :: insert_by_count x l'
  end.

Definition sorted_by_count (l : list (K * Z)) : list (K * Z) :=
  foldr insert_by_count [] l.

Definition nsmallest (n : Z) (l : list (K * Z)) : list (K * Z) :=
  take (Z.to_nat n) (sorted_by_count l).

(** [deque.pop()]: the rest and the right end, [None] on an empty deque. *)
Fixpoint queue_pop {A} (q : list A) : option (list A * A) :=
  match q with
  | [] => None
  | x :: q' =>
      match queue_pop q' with
      | None => Some ([], x)
      | Some (r, y) => Some (x :: r, y)
      end
  end.

(** [deque.remove(k)]: without the first [k], [None] when there is none. *)
Fixpoint queue_remove (q : list K) (k : K) : option (list K) :=
  match q with
  | [] => None
  | x :: q' => if decide (k = x) then Some q' else cons x <$> queue_remove q' k
  end.
End library.

(** ** [lfu_cache] *)

Module lfu_cache.
Section lfu_cache.
Context `{Signature} (user_function : args → result value).

Record closure : Type := Closure {
  cache : archive_dict;
  use_count : list (key * Z);   (* times each key has been accessed *)
  stats : stats;
}.

Definition fresh (c : archive_dict) : closure := Closure c [] (Stats 0 0 0).

(** [for k, _ in victims: del cache[k], use_count[k]] *)
Fixpoint del_each (victims : list (key * Z)) (t : list (key * value)) (u : list (key * Z))
  : list (key * value) * list (key * Z) * option exn :=
  match victims with
  | [] => (t, u, None)
  | (k, _) :: victims =>
      match dict.__delitem__ t k with
      | Raise e => (t, u, Some e)
      | Ok t' =>
          match dict.__delitem__ u k with
          | Raise e => (t', u, Some e)
          | Ok u' => del_each victims t' u'
          end
      end
  end.

(** The block under [# purge cache], then [return result]. *)
Definition purge (maxsize : Z) (w : world) (st : closure) (res : value)
  : closure * result value :=
  if len_exceeds (table (cache st)) maxsize then
    if cache.is_archived (cache st) then
      match cache.dump_raises w (cache st) with
      | Some e => (Closure (cache.dump w (cache st)) (use_count st) (stats st), Raise e)
      | None => (Closure (cache.clear (cache.dump w (cache st))) [] (stats st), Ok res)
      end
    else
      (* purge least frequent cache entries *)
      let victims := nsmallest (Z.max 2 (maxsize / 10)) (use_count st) in
      match del_each victims (table (cache st)) (use_count st) with
      | (t, u, None) => (Closure (cache.with_table (cache st) t) u (stats st), Ok res)
      | (t, u, Some e) => (Closure (cache.with_table (cache st) t) u (stats st), Raise e)
      end
  else (st, Ok res).

Definition wrapper (maxsize : Z) (w : world) (st : closure) (a : args)
  : closure * result value :=
  let key := keymap a in
  match dict.__getitem__ (table (cache st)) key with
  | Ok result =>
      (Closure (cache st) (Counter.add (use_count st) key 1) (incr_HIT (stats st)),
       Ok result)
  | Raise _ =>
      (* if not in cache, look in archive *)
      let c := if cache.is_archived (cache st) then cache.load (cache st) key else cache st in
      match dict.__getitem__ (table c) key with
      | Ok result =>
          purge maxsize w
            (Closure c (Counter.add (use_count st) key 1) (incr_LOAD (stats st))) result
      | Raise _ =>
          (* if not found, then compute *)
          match user_function a with
          | Raise e => (Closure c (use_count st) (stats st), Raise e)
          | Ok result =>
              purge maxsize w
                (Closure (cache.__setitem__ c key result)
                         (Counter.add (use_count st) key 1) (incr_MISS (stats st)))
                result
          end
      end
  end.

Definition archive (st : closure) (obj : archive) : closure :=
  Closure (cache.__archive (cache st) obj) (use_count st) (stats st).

Definition clear (st : closure) (keepstats : bool) : closure :=
  Closure (cache.clear (cache st)) [] (if keepstats then stats st else Stats 0 0 0).

Definition info (maxsize : Z) (st : closure) : CacheInfo.t :=
  CacheInfo.Make (HIT (stats st)) (MISS (stats st)) (LOAD (stats st))
                 (Some maxsize) (length (table (cache st))).
End lfu_cache.
End lfu_cache.

(** ** [lru_cache] *)

(** What the deque holds while it is compacted: keys and the marker. *)
Inductive slot `{Signature} : Type :=
  | sentinel
  | item (k : key).

Module lru_cache.
Section lru_cache.
Context `{Signature} (user_function : args → result value).

Record closure : Type := Closure {
  cache : archive_dict;
  queue : list key;             (* order that keys have been used *)
  refcount : list (key * Z);    (* times each key is in the queue *)
  stats : stats;
}.

Definition fresh (c : archive_dict) : closure := Closure c [] [] (Stats 0 0 0).

(** [key = queue_popleft(); refcount[key] -= 1], repeated while
    [refcount[key]] is not zero; [popleft] on an empty deque raises. *)
Fixpoint popleft_unreferenced (q : list key) (r : list (key * Z))
  : list key * list (key * Z) * result key :=
  match q with
  | [] => ([], r, Raise IndexError)
  | k :: q =>
      let r := Counter.add r k (-1) in
      if decide (Counter.get r k = 0%Z) then (q, r, Ok k)
      else popleft_unreferenced q r
  end.

Definition purge (maxsize : Z) (w : world) (st : closure) (res : value)
  : closure * result value :=
  if len_exceeds (table (cache st)) maxsize then
    if cache.is_archived (cache st) then
      match cache.dump_raises w (cache st) with
      | Some e =>
          (Closure (cache.dump w (cache st)) (queue st) (refcount st) (stats st), Raise e)
      | None => (Closure (cache.clear (cache.dump w (cache st))) [] [] (stats st), Ok res)
      end
    else
      (* purge least recently used cache entry *)
      match popleft_unreferenced (queue st) (refcount st) with
      | (q, r, Raise e) => (Closure (cache st) q r (stats st), Raise e)
      | (q, r, Ok k) =>
          match dict.__delitem__ (table (cache st)) k with
          | Raise e => (Closure (cache st) q r (stats st), Raise e)
          | Ok t =>
              match dict.__delitem__ r k with
              | Raise e => (Closure (cache.with_table (cache st) t) q r (stats st), Raise e)
              | Ok r => (Closure (cache.with_table (cache st) t) q r (stats st), Ok res)
              end
          end
      end
  else (st, Ok res).

(** The [try] statement of the wrapper, down to the purge. *)
Definition access (maxsize : Z) (w : world) (st : closure) (a : args)
  : closure * result value :=
  let key := keymap a in
  match dict.__getitem__ (table (cache st)) key with
  | Ok result =>
      (* record recent use of this key *)
      (Closure (cache st) (queue st ++ [key]) (Counter.add (refcount st) key 1)
               (incr_HIT (stats st)), Ok result)
  | Raise _ =>
      let c := if cache.is_archived (cache st) then cache.load (cache st) key else cache st in
      match dict.__getitem__ (table c) key with
      | Ok result =>
          purge maxsize w
            (Closure c (queue st ++ [key]) (Counter.add (refcount st) key 1)
                     (incr_LOAD (stats st))) result
      | Raise _ =>
          match user_function a with
          | Raise e => (Closure c (queue st) (refcount st) (stats st), Raise e)
          | Ok result =>
              purge maxsize w
                (Closure (cache.__setitem__ c key result) (queue st ++ [key])
                         (Counter.add (refcount st) key 1) (incr_MISS (stats st)))
                result
          end
      end
  end.

(** [for key in filterfalse(refcount.__contains__, iter(queue_pop, sentinel))]:
    one [queue_pop] per step, until it returns the marker. *)
Fixpoint compact_loop (fuel : nat) (q : list slot) (r : list (key * Z))
  : list slot * list (key * Z) * option exn :=
  match fuel with
  | 0 => (q, r, None)
  | S fuel =>
      match queue_pop q with
      | None => (q, r, Some IndexError)
      | Some (q', sentinel) => (q', r, None)
      | Some (q', item k) =>
          if dict.__contains__ r k then compact_loop fuel q' r
          else compact_loop fuel (item k :: q') (dict.__setitem__ r k 1%Z)
      end
  end.

Definition keys_of (q : list slot) : list key :=
  omap (λ s, match s with item k => Some k | sentinel => None end) q.

(** The block under [# periodically compact the queue], then
    [return result]. *)
Definition compact (maxsize : Z) (st : closure) (res : value)
  : closure * result value :=
  let maxqueue := (maxsize * 10)%Z in
  if len_exceeds (queue st) maxqueue then
    let q := sentinel :: (item <$> queue st) in
    match compact_loop (length q) q [] with
    | (q, r, None) => (Closure (cache st) (keys_of q) r (stats st), Ok res)
    | (q, r, Some e) => (Closure (cache st) (keys_of q) r (stats st), Raise e)
    end
  else (st, Ok res).

Definition wrapper (maxsize : Z) (w : world) (st : closure) (a : args)
  : closure * result value :=
  match access maxsize w st a with
  | (st, Raise e) => (st, Raise e)
  | (st, Ok result) => compact maxsize st result
  end.

Definition archive (st : closure) (obj : archive) : closure :=
  Closure (cache.__archive (cache st) obj) (queue st) (refcount st) (stats st).

Definition clear (st : closure) (keepstats : bool) : closure :=
  Closure (cache.clear (cache st)) [] [] (if keepstats then stats st else Stats 0 0 0).

Definition info (maxsize : Z) (st : closure) : CacheInfo.t :=
  CacheInfo.Make (HIT (stats st)) (MISS (stats st)) (LOAD (stats st))
                 (Some maxsize) (length (table (cache st))).
End lru_cache.
End lru_cache.

(** ** [mru_cache] *)

Module mru_cache.
Section mru_cache.
Context `{Signature} (user_function : args → result value).

Record closure : Type := Closure {
  cache : archive_dict;
  queue : list key;             (* order that keys have been used *)
  stats : stats;
}.

Definition fresh (c : archive_dict) : closure := Closure c [] (Stats 0 0 0).

(** The block under [# purge cache], then [queue_append(key)] and
    [return result]. *)
Definition purge (maxsize : Z) (w : world) (st : closure) (k : key) (res : value)
  : closure * result value :=
  if len_exceeds (table (cache st)) maxsize then
    if cache.is_archived (cache st) then
      match cache.dump_raises w (cache st) with
      | Some e => (Closure (cache.dump w (cache st)) (queue st) (stats st), Raise e)
      | None =>
          (Closure (cache.clear (cache.dump w (cache st))) ([] ++ [k]) (stats st), Ok res)
      end
    else
      (* purge most recently used cache entry *)
      match queue_pop (queue st) with
      | None => (st, Raise IndexError)
      | Some (q, victim) =>
          match dict.__delitem__ (table (cache st)) victim with
          | Raise e => (Closure (cache st) q (stats st), Raise e)
          | Ok t => (Closure (cache.with_table (cache st) t) (q ++ [k]) (stats st), Ok res)
          end
      end
  else (Closure (cache st) (queue st ++ [k]) (stats st), Ok res).

Definition wrapper (maxsize : Z) (w : world) (st : closure) (a : args)
  : closure * result value :=
  let key := keymap a in
  match dict.__getitem__ (table (cache st)) key with
  | Ok result =>
      match queue_remove (queue st) key with
      | None => (st, Raise ValueError)
      | Some q =>
          (* record recent use of this key *)
          (Closure (cache st) (q ++ [key]) (incr_HIT (stats st)), Ok result)
      end
  | Raise _ =>
      (* if not in cache, look in archive *)
      let c := if cache.is_archived (cache st) then cache.load (cache st) key else cache st in
      match dict.__getitem__ (table c) key with
      | Ok result =>
          purge maxsize w (Closure c (queue st) (incr_LOAD (stats st))) key result
      | Raise _ =>
          (* if not found, then compute *)
          match user_function a with
          | Raise e => (Closure c (queue st) (stats st), Raise e)
          | Ok result =>
              purge maxsize w
                (Closure (cache.__setitem__ c key result) (queue st) (incr_MISS (stats st)))
                key result
          end
      end
  end.

Definition archive (st : closure) (obj : archive) : closure :=
  Closure (cache.__archive (cache st) obj) (queue st) (stats st).

Definition clear (st : closure) (keepstats : bool) : closure :=
  Closure (cache.clear (cache st)) [] (if keepstats then stats st else Stats 0 0 0).

Definition info (maxsize : Z) (st : closure) : CacheInfo.t :=
  CacheInfo.Make (HIT (stats st)) (MISS (stats st)) (LOAD (stats st))
                 (Some maxsize) (length (table (cache st))).
End mru_cache.
End mru_cache.

(** ** [rr_cache] *)

Module rr_cache.
Section rr_cache.
Context `{Signature} (user_function : args → result value).

Record closure : Type := Closure { cache : archive_dict; stats : stats }.

Definition fresh (c : archive_dict) : closure := Closure c (Stats 0 0 0).

(** [random.choice(seq)]: the element at a drawn index below [len(seq)],
    an [IndexError] on an empty sequence. *)
Definition choice (w : world) (seq : list key) : result key :=
  match seq !! (random_index w `mod` length seq) with
  | Some k => Ok k
  | None => Raise IndexError
  end.

Definition purge (maxsize : Z) (w : world) (st : closure) (res : value)
  : closure * result value :=
  if len_exceeds (table (cache st)) maxsize then
    if cache.is_archived (cache st) then
      match cache.dump_raises w (cache st) with
      | Some e => (Closure (cache.dump w (cache st)) (stats st), Raise e)
      | None => (Closure (cache.clear (cache.dump w (cache st))) (stats st), Ok res)
      end
    else
      (* purge random cache entry *)
      match choice w (dict.keys (table (cache st))) with
      | Raise e => (st, Raise e)
      | Ok victim =>
          match dict.__delitem__ (table (cache st)) victim with
          | Raise e => (st, Raise e)
          | Ok t => (Closure (cache.with_table (cache st) t) (stats st), Ok res)
          end
      end
  else (st, Ok res).

Definition wrapper (maxsize : Z) (w : world) (st : closure) (a : args)
  : closure * result value :=
  let key := keymap a in
  match dict.__getitem__ (table (cache st)) key with
  | Ok result => (Closure (cache st) (incr_HIT (stats st)), Ok result)
  | Raise _ =>
      (* if not in cache, look in archive *)
      let c := if cache.is_archived (cache st) then cache.load (cache st) key else cache st in
      match dict.__getitem__ (table c) key with
      | Ok result => purge maxsize w (Closure c (incr_LOAD (stats st))) result
      | Raise _ =>
          (* if not found, then compute *)
          match user_function a with
          | Raise e => (Closure c (stats st), Raise e)
          | Ok result =>
              purge maxsize w
                (Closure (cache.__setitem__ c key result) (incr_MISS (stats st))) result
          end
      end
  end.

Definition archive (st : closure) (obj : archive) : closure :=
  Closure (cache.__archive (cache st) obj) (stats st).

Definition clear (st : closure) (keepstats : bool) : closure :=
  Closure (cache.clear (cache st)) (if keepstats then stats st else Stats 0 0 0).

Definition info (maxsize : Z) (st : closure) : CacheInfo.t :=
  CacheInfo.Make (HIT (stats st)) (MISS (stats st)) (LOAD (stats st))
                 (Some maxsize) (length (table (cache st))).
End rr_cache.
End rr_cache.

(** ** Calling the decorators

    [lfu_cache(maxsize, ...)] and its siblings return another decorator
    when [maxsize] is [0] or [None], and their own [decorating_function]
    otherwise.  The names an expression reads are looked up in the
    parameters of the function, then in the module. *)

Inductive decorating_function : Type :=
  | no_cache_function
  | inf_cache_function
  | lfu_cache_function (maxsize : Z)
  | lru_cache_function (maxsize : Z)
  | mru_cache_function (maxsize : Z)
  | rr_cache_function (maxsize : Z).

(** The names bound in [_cache.py], and the builtins it uses. *)
Definition module_names : list string :=
  [ "absolute_import"; "deque"; "choice"; "nsmallest"; "itemgetter";
    "filterfalse"; "update_wrapper"; "RLock"; "deep_round"; "simple_round";
    "archive_dict"; "hashmap"; "CacheInfo"; "_keygen"; "__all__"; "Counter";
    "no_cache"; "inf_cache"; "lfu_cache"; "lru_cache"; "mru_cache"; "rr_cache";
    "len"; "iter"; "max"; "type"; "dict"; "list"; "tuple"; "object";
    "None"; "True"; "False" ]%string.

(** [maxsize=100, cache=None, keymap=None, ignore=None, tol=None, deep=False] *)
Definition parameters : list string :=
  [ "maxsize"; "cache"; "keymap"; "ignore"; "tol"; "deep" ]%string.

Definition load_name (locals : list string) (name : string) : result unit :=
  if bool_decide (name ∈ locals ++ module_names) then Ok () else Raise NameError.

(** The callee and the arguments of a call are evaluated from left to
    right before the call is made. *)
Fixpoint load_names (locals names : list string) : result unit :=
  match names with
  | [] => Ok ()
  | n :: names =>
      match load_name locals n with
      | Ok _ => load_names locals names
      | Raise e => Raise e
      end
  end.

(** [return no_cache(cache=cache, keymap=keymep, ignore=ignore, tol=tol, deep=deep)] *)
Definition return_no_cache : result decorating_function :=
  match load_names parameters
          [ "no_cache"; "cache"; "keymep"; "ignore"; "tol"; "deep" ]%string with
  | Ok _ => Ok no_cache_function
  | Raise e => Raise e
  end.

(** [return inf_cache(cache=cache, keymap=keymap, ignore=ignore, tol=tol, deep=deep)] *)
Definition return_inf_cache : result decorating_function :=
  match load_names parameters
          [ "inf_cache"; "cache"; "keymap"; "ignore"; "tol"; "deep" ]%string with
  | Ok _ => Ok inf_cache_function
  | Raise e => Raise e
  end.

Definition lfu_cache (maxsize : option Z) : result decorating_function :=
  if bool_decide (maxsize = Some 0%Z) then return_no_cache
  else match maxsize with
       | None => return_inf_cache
       | Some m => Ok (lfu_cache_function m)
       end.

Definition lru_cache (maxsize : option Z) : result decorating_function :=
  if bool_decide (maxsize = Some 0%Z) then return_no_cache
  else match maxsize with
       | None => return_inf_cache
       | Some m => Ok (lru_cache_function m)
       end.

Definition mru_cache (maxsize : option Z) : result decorating_function :=
  if bool_decide (maxsize = Some 0%Z) then return_no_cache
  else match maxsize with
       | None => return_inf_cache
       | Some m => Ok (mru_cache_function m)
       end.

Definition rr_cache (maxsize : option Z) : result decorating_function :=
  if bool_decide (maxsize = Some 0%Z) then return_no_cache
  else match maxsize with
       | None => return_inf_cache
       | Some m => Ok (rr_cache_function m)
       end.

(** ** The bounded decorators side by side *)

Inductive policy : Type := LFU | LRU | MRU | RR.

Definition bounded_cache (p : policy) : option Z → result decorating_function :=
  match p with
  | LFU => lfu_cache
  | LRU => lru_cache
  | MRU => mru_cache
  | RR => rr_cache
  end.

Inductive engine `{Signature} : Type :=
  | lfu_engine (st : lfu_cache.closure)
  | lru_engine (st : lru_cache.closure)
  | mru_engine (st : mru_cache.closure)
  | rr_engine (st : rr_cache.closure).

Module engine.
Section engine.
Context `{Signature} (user_function : args → result value).

(** A function just decorated, its cache built on the archive [a]. *)
Definition fresh (p : policy) (a : archive) : engine :=
  match p with
  | LFU => lfu_engine (lfu_cache.fresh (cache.__init__ a))
  | LRU => lru_engine (lru_cache.fresh (cache.__init__ a))
  | MRU => mru_engine (mru_cache.fresh (cache.__init__ a))
  | RR => rr_engine (rr_cache.fresh (cache.__init__ a))
  end.

Definition call (maxsize : Z) (w : world) (e : engine) (a : args) : engine * result value :=
  match e with
  | lfu_engine st => prod_map lfu_engine id (lfu_cache.wrapper user_function maxsize w st a)
  | lru_engine st => prod_map lru_engine id (lru_cache.wrapper user_function maxsize w st a)
  | mru_engine st => prod_map mru_engine id (mru_cache.wrapper user_function maxsize w st a)
  | rr_engine st => prod_map rr_engine id (rr_cache.wrapper user_function maxsize w st a)
  end.

Definition the_cache (e : engine) : archive_dict :=
  match e with
  | lfu_engine st => lfu_cache.cache st
  | lru_engine st => lru_cache.cache st
  | mru_engine st => mru_cache.cache st
  | rr_engine st => rr_cache.cache st
  end.

(** [info().size] *)
Definition size (e : engine) : nat := length (table (the_cache e)).

(** The engine after a sequence of calls, each in its own world, whether
    they returned or raised. *)
Fixpoint run (maxsize : Z) (e : engine) (calls : list (world * args)) : engine :=
  match calls with
  | [] => e
  | (w, a) :: calls => run maxsize (call maxsize w e a).1 calls
  end.
End engine.
End engine.

(** ** A signature to run the code on

    Keys are Python strings that are not pickles, values are integers
    and the wrapped function takes one string, which is its own key. *)

#[export] Instance string_signature : Signature := {|
  key := string;
  value := Z;
  args := string;
  keymap := id;
  str := id;
  ispickle := λ _, false;
  hash_md5 := id;
  as_str := Some;
  value_dump_error := λ _ _, None;
  key_dump_error := λ _ _, None;
  value_dump_error_escapes := λ _ _, ltac:(discriminate);
  key_dump_error_escapes := λ _ _, ltac:(discriminate);
|}.

(** A world without faults: every temporary name is ["tmp"]. *)
Definition calm : world :=
  World (λ _, StoreEnv "tmp" false io_ok io_ok false false) 0.

(** ** States of a [cache] that its methods reach

    At most one of the two slots holds an archive that is not null. *)
Definition slots_wf `{Signature} (c : cache) : bool :=
  archive_ops.is_null (__archive__ c) || archive_ops.is_null (__swap__ c).

(** ** Sequences of calls

    The closure after the calls of a list, each made in its own world,
    whether they returned or raised. *)
Definition run_calls {S A B : Type} (wrapper : world → S → A → S * B)
    (st : S) (calls : list (world * A)) : S :=
  foldl (λ st wa, (wrapper wa.1 st wa.2).1) st calls.

(** [(info().hit, info().miss, info().load)] *)
Definition counters (i : CacheInfo.t) : nat * nat * nat :=
  (CacheInfo.hit i, CacheInfo.miss i, CacheInfo.load i).

(** A wrapped function for the examples: the length of its argument. *)
Definition string_length (x : @args string_signature) : result (@value string_signature) :=
  Ok (Z.of_nat (String.length x)).

(** ** The compacted queue, as the documentation describes it

    Of every key of the queue its most recent occurrence, the one nearest
    to the right end, and nothing else; the occurrences kept stay in the
    order they had. *)
Fixpoint most_recent_occurrences {K : Type} `{EqDecision K} (q : list K) : list K :=
  match q with
  | [] => []
  | k :: q =>
      if decide (k ∈ q) then most_recent_occurrences q
      else k :: most_recent_occurrences q
  end.

(** A [Counter] that holds one for every key of a list. *)
Definition ones {K : Type} (l : list K) : list (K * Z) := (λ k, (k, 1%Z)) <$> l.

(** ** What the closures of the bounded decorators keep true

    The number of times a key is in a queue. *)
Definition occurrences {K : Type} `{EqDecision K} (k : K) (q : list K) : nat :=
  length (filter (λ x, x = k) q).

(** [lfu_cache]: [use_count] counts the keys of the cache. *)
Definition lfu_inv `{Signature} (st : lfu_cache.closure) : Prop :=
  NoDup (dict.keys (table (lfu_cache.cache st)))
  ∧ dict.keys (table (lfu_cache.cache st)) ≡ₚ dict.keys (lfu_cache.use_count st).

(** [lru_cache]: [refcount] holds the keys of the cache, each with the
    number of times it is in the queue, which is not zero. *)
Definition lru_inv `{Signature} (st : lru_cache.closure) : Prop :=
  NoDup (dict.keys (table (lru_cache.cache st)))
  ∧ dict.keys (table (lru_cache.cache st)) ≡ₚ dict.keys (lru_cache.refcount st)
  ∧ (∀ k, Counter.get (lru_cache.refcount st) k
          = Z.of_nat (occurrences k (lru_cache.queue st)))
  ∧ (∀ k, k ∈ dict.keys (lru_cache.refcount st) → k ∈ lru_cache.queue st).

(** [mru_cache]: the keys of the cache are in the queue; without an
    archive the queue holds them and nothing else, once each. *)
Definition mru_inv `{Signature} (st : mru_cache.closure) : Prop :=
  NoDup (dict.keys (table (mru_cache.cache st)))
  ∧ (∀ k, k ∈ dict.keys (table (mru_cache.cache st)) → k ∈ mru_cache.queue st)
  ∧ (cache.is_archived (mru_cache.cache st) = false →
     dict.keys (table (mru_cache.cache st)) ≡ₚ mru_cache.queue st).

Definition rr_inv `{Signature} (st : rr_cache.closure) : Prop :=
  NoDup (dict.keys (table (rr_cache.cache st))).

Definition engine_inv `{Signature} (e : engine) : Prop :=
  match e with
  | lfu_engine st => lfu_inv st
  | lru_engine st => lru_inv st
  | mru_engine st => mru_inv st
  | rr_engine st => rr_inv st
  end.

(** Keys that are integers, as [hashmap] makes them: not strings, named
    in a directory by their decimal writing. *)
Definition int_signature : Signature := {|
  key := Z;
  value := Z;
  args := Z;
  keymap := id;
  str := pretty;
  ispickle := λ _, false;
  hash_md5 := pretty;
  as_str := λ _, None;
  value_dump_error := λ _ _, None;
  key_dump_error := λ _ _, None;
  value_dump_error_escapes := λ _ _, ltac:(discriminate);
  key_dump_error_escapes := λ _ _, ltac:(discriminate);
|}.

(** ** Calls on a cache whose archive is on

    The purge of a bounded decorator when [cache.archived()] holds: a
    cache above [maxsize] is dumped to the archive and cleared. *)
Definition settle `{Signature} (maxsize : Z) (w : world) (c : cache) : cache :=
  if len_exceeds (table c) maxsize then cache.clear (cache.dump w c) else c.

(** The cache and the result of a call when the archive is on, the
    bookkeeping of the policies left out. *)
Definition archived_call `{Signature} (user_function : args → result value)
    (maxsize : Z) (w : world) (c : cache) (a : args) : cache * result value :=
  let key := keymap a in
  match dict.__getitem__ (table c) key with
  | Ok v => (c, Ok v)
  | Raise _ =>
      let c1 := cache.load c key in
      match dict.__getitem__ (table c1) key with
      | Ok v => (settle maxsize w c1, Ok v)
      | Raise _ =>
          match user_function a with
          | Ok v => (settle maxsize w (cache.__setitem__ c1 key v), Ok v)
          | Raise e => (c1, Raise e)
          end
      end
  end.

(** The cache or, for a key that is not cached, its archive holds [v]
    for [k]. *)
Definition recalls `{Signature} (c : cache) (k : key) (v : value) : Prop :=
  dict.__getitem__ (table c) k = Ok v
  ∨ (k ∉ dict.keys (table c) ∧ archive_ops.__getitem__ (__archive__ c) k = Ok v).

(** ** Names of subdirectories

    [_getdir] joins the root and [PREFIX+name], so that a name holding
    the path separator is a path into the subdirectory of another name,
    and the calls of the file system refuse a name holding the null byte
    with a [ValueError].  The map of subdirectories is the directory of
    keys whose names hold neither. *)
Definition path_separator : Ascii.ascii := Ascii.ascii_of_nat 47.   (* os.sep *)
Definition null_byte : Ascii.ascii := Ascii.ascii_of_nat 0.

Fixpoint flat_name (s : string) : bool :=
  match s with
  | EmptyString => true
  | String c s =>
      negb (Ascii.eqb c path_separator) && negb (Ascii.eqb c null_byte) && flat_name s
  end.


(** ** Archives whose [update] raises nothing

    A null archive, a dictionary, and a directory in whose settings
    every value and every key serialises. *)
Definition dump_safe `{Signature} (a : archive) : Prop :=
  match a with
  | dir_archive s _ =>
      (∀ v, value_dump_error s v = None) ∧ (∀ k, key_dump_error s k = None)
  | _ => True
  end.



(** * Properties *)

(** ** Dictionaries *)

Section dict_facts.
Context {K V : Type} `{EqDecision K}.
Implicit Types (d : list (K * V)) (k : K) (v : V).

Lemma lookup_key_None d k : dict.lookup_key d k = None ↔ k ∉ dict.keys d.
Proof.
  unfold dict.keys. induction d as [|[k' v'] d IH]; simpl.
  - split; [intros _; apply not_elem_of_nil | done].
  - case_decide as Hk; subst.
    + split; [done | intros []; left].
    + rewrite IH, not_elem_of_cons. naive_solver.
Qed.

Lemma lookup_key_is_Some d k : is_Some (dict.lookup_key d k) ↔ k ∈ dict.keys d.
Proof.
  rewrite <- not_eq_None_Some, lookup_key_None.
  destruct (decide (k ∈ dict.keys d)); naive_solver.
Qed.

Lemma getitem_Ok d k v : dict.__getitem__ d k = Ok v ↔ dict.lookup_key d k = Some v.
Proof. unfold dict.__getitem__. destruct (dict.lookup_key d k); naive_solver. Qed.

Lemma getitem_Raise d k e : dict.__getitem__ d k = Raise e → e = KeyError ∧ k ∉ dict.keys d.
Proof.
  unfold dict.__getitem__. destruct (dict.lookup_key d k) eqn:E; [done|].
  intros [= <-]. by rewrite <- lookup_key_None.
Qed.

Lemma getitem_elem_of d k v : dict.__getitem__ d k = Ok v → k ∈ dict.keys d.
Proof. rewrite getitem_Ok, <- lookup_key_is_Some. by intros ->. Qed.

Lemma getitem_not_elem_of d k : k ∉ dict.keys d → dict.__getitem__ d k = Raise KeyError.
Proof. rewrite <- lookup_key_None. unfold dict.__getitem__. by intros ->. Qed.

Lemma keys_setitem d k v :
  dict.keys (dict.__setitem__ d k v)
  = if decide (k ∈ dict.keys d) then dict.keys d else dict.keys d ++ [k].
Proof.
  unfold dict.keys. induction d as [|[k' v'] d IH]; csimpl.
  - done.
  - destruct (decide (k = k')) as [->|Hk]; csimpl.
    + rewrite decide_True by left. done.
    + rewrite IH. destruct (decide (k ∈ d.*1)) as [Hin|Hin].
      * rewrite decide_True by (by right). done.
      * rewrite decide_False; [done|]. rewrite not_elem_of_cons. done.
Qed.

Lemma lookup_setitem d k v k' :
  dict.lookup_key (dict.__setitem__ d k v) k'
  = if decide (k' = k) then Some v else dict.lookup_key d k'.
Proof.
  induction d as [|[k0 v0] d IH]; simpl.
  - repeat case_decide; naive_solver.
  - repeat (case_decide; simpl; subst); try naive_solver.
Qed.

Lemma length_setitem d k v :
  length (dict.__setitem__ d k v)
  = if decide (k ∈ dict.keys d) then length d else S (length d).
Proof.
  rewrite <- (length_fmap fst (dict.__setitem__ d k v)).
  change (length (dict.keys (dict.__setitem__ d k v)) = if decide (k ∈ dict.keys d) then length d else S (length d)).
  rewrite keys_setitem. unfold dict.keys.
  case_decide; rewrite ?length_app, length_fmap; simpl; lia.
Qed.

Lemma NoDup_keys_setitem d k v :
  NoDup (dict.keys d) → NoDup (dict.keys (dict.__setitem__ d k v)).
Proof.
  intros Hd. rewrite keys_setitem. case_decide; [done|].
  apply NoDup_app. split_and!; [done| |apply NoDup_singleton].
  intros x Hx ->%list_elem_of_singleton. done.
Qed.

Lemma update_singleton d k v : dict.update d [(k, v)] = dict.__setitem__ d k v.
Proof. done. Qed.

Lemma keys_remove_key d k :
  k ∈ dict.keys d → dict.keys d ≡ₚ k :: dict.keys (dict.remove_key d k).
Proof.
  unfold dict.keys. induction d as [|[k' v'] d IH]; simpl.
  - by intros ?%elem_of_nil.
  - intros Hin. case_decide as Hk; subst; [done|]. simpl.
    apply elem_of_cons in Hin as [?|Hin]; [done|].
    rewrite (IH Hin) at 1. apply Permutation_swap.
Qed.

Lemma lookup_remove_key_ne d k k' :
  k' ≠ k → dict.lookup_key (dict.remove_key d k) k' = dict.lookup_key d k'.
Proof.
  intros Hne. induction d as [|[k0 v0] d IH]; simpl; [done|].
  repeat (case_decide; simpl; subst); naive_solver.
Qed.

Lemma lookup_remove_key_eq d k :
  NoDup (dict.keys d) → dict.lookup_key (dict.remove_key d k) k = None.
Proof.
  intros Hd. apply lookup_key_None. intros Hin.
  destruct (decide (k ∈ dict.keys d)) as [Hk|Hk].
  - pose proof (keys_remove_key d k Hk) as Hp.
    rewrite Hp in Hd. apply NoDup_cons in Hd as [Hd _]. done.
  - apply Hk. clear Hk Hd. revert Hin. unfold dict.keys.
    induction d as [|[k0 v0] d IH]; simpl; [done|].
    case_decide; subst; simpl; [by right|].
    rewrite !elem_of_cons. naive_solver.
Qed.

Lemma delitem_Ok d k :
  k ∈ dict.keys d → dict.__delitem__ d k = Ok (dict.remove_key d k).
Proof. intros Hk. unfold dict.__delitem__, dict.__contains__. by rewrite bool_decide_true. Qed.

Lemma delitem_inv d k d' :
  dict.__delitem__ d k = Ok d' → k ∈ dict.keys d ∧ d' = dict.remove_key d k.
Proof.
  unfold dict.__delitem__, dict.__contains__. case_bool_decide; naive_solver.
Qed.

Lemma length_keys d : length (dict.keys d) = length d.
Proof. apply length_fmap. Qed.

Lemma length_remove_key d k :
  k ∈ dict.keys d → length d = S (length (dict.remove_key d k)).
Proof.
  intros Hk. rewrite <- !length_keys. by rewrite (keys_remove_key d k Hk) at 1.
Qed.

Lemma NoDup_keys_remove_key d k :
  NoDup (dict.keys d) → NoDup (dict.keys (dict.remove_key d k)).
Proof.
  intros Hd. destruct (decide (k ∈ dict.keys d)) as [Hk|Hk].
  - rewrite (keys_remove_key d k Hk) in Hd. by apply NoDup_cons in Hd as [_ ?].
  - replace (dict.remove_key d k) with d; [done|].
    clear Hd. revert Hk. unfold dict.keys.
    induction d as [|[k0 v0] d IH]; simpl; [done|].
    rewrite not_elem_of_cons. intros [? ?]. rewrite decide_False by done.
    f_equal. by apply IH.
Qed.
End dict_facts.

Section counter_facts.
Context {K : Type} `{EqDecision K}.
Implicit Types (c : list (K * Z)) (k : K).

Lemma get_add c k n k' :
  Counter.get (Counter.add c k n) k'
  = if decide (k' = k) then (Counter.get c k + n)%Z else Counter.get c k'.
Proof. unfold Counter.get, Counter.add. rewrite lookup_setitem. by case_decide. Qed.

Lemma get_nonzero_elem_of c k : Counter.get c k ≠ 0%Z → k ∈ dict.keys c.
Proof.
  unfold Counter.get. intros Hne. apply lookup_key_is_Some.
  destruct (dict.lookup_key c k); [eauto | done].
Qed.

Lemma get_remove_key c k k' :
  NoDup (dict.keys c) →
  Counter.get (dict.remove_key c k) k'
  = if decide (k' = k) then 0%Z else Counter.get c k'.
Proof.
  intros Hc. unfold Counter.get. case_decide; subst.
  - by rewrite lookup_remove_key_eq.
  - by rewrite lookup_remove_key_ne.
Qed.
End counter_facts.

(** ** The directory archive *)

Section dir_archive_facts.
Context `{Signature}.
Implicit Types (root : gmap string subdir) (k : key).

Lemma read_with_Ok {A} (e1 e2 : exn) (f : option (file A)) (a : A) :
  dir_archive.read_with e1 e2 f = Ok a
  ↔ ∃ g, f = Some g ∧ readable g = true ∧ payload g = Some a.
Proof.
  unfold dir_archive.read_with. destruct f as [[r [p|]]|]; simpl.
  - destruct r; split; [intros [= ->]; eauto | intros (g & [= <-] & _ & [= ->]); done
                       | done | intros (g & [= <-] & ? & _); done].
  - destruct r; split; try done; intros (g & [= <-] & _ & ?); done.
  - split; [done | intros (g & ? & _); done].
Qed.

Lemma _lookup_Ok (s : settings) root k v :
  dir_archive._lookup s root k = Ok v
  ↔ ∃ d g, root !! dir_archive._getdir k = Some d ∧ output d = Some g
           ∧ readable g = true ∧ payload g = Some v.
Proof.
  assert (∀ e1 e2,
            try_except (dir_archive.read_with e1 e2
                          (root !! dir_archive._getdir k ≫= output))
                       (λ _, Raise KeyError) = Ok v
            ↔ ∃ d g, root !! dir_archive._getdir k = Some d ∧ output d = Some g
                     ∧ readable g = true ∧ payload g = Some v) as Hread.
  { intros e1 e2. unfold try_except.
    destruct (dir_archive.read_with e1 e2 _) as [v'|e] eqn:Hr.
    - apply read_with_Ok in Hr as (g & Hg & Hread & Hpay).
      destruct (root !! dir_archive._getdir k) as [d|]; [|done]. simpl in Hg. split.
      + intros [= <-]. eauto 6.
      + intros (d' & g' & [= <-] & Hg' & _ & Hpay'). congruence.
    - split; [done|]. intros (d & g & Hd & Hg & Hread & Hpay).
      assert (dir_archive.read_with e1 e2 (root !! dir_archive._getdir k ≫= output)
              = Ok v) as Hok
        by (apply read_with_Ok; exists g; rewrite Hd; done).
      congruence. }
  unfold dir_archive._lookup. destruct (serialized s), (fast s); apply Hread.
Qed.

Lemma _lookup_Raise (s : settings) root k e :
  dir_archive._lookup s root k = Raise e → e = KeyError.
Proof.
  unfold dir_archive._lookup, try_except.
  destruct (serialized s), (fast s);
    match goal with
    | |- context [match ?r with _ => _ end] => destruct r; [done | by intros [= <-]]
    end.
Qed.
End dir_archive_facts.

(** C8.  In a [dir_archive], however it reads its files, [__getitem__]
    raises nothing but [KeyError];
    and when the subdirectory of the key is missing, or its value file is
    absent, cannot be read, or does not deserialise, [__getitem__] raises
    [KeyError] and [get] returns the default. *)
Theorem dir_archive_lookup_fault_is_miss `{Signature} (s : settings)
    (root : gmap string subdir) (k : key) (default : value) :
  (∀ e, dir_archive.__getitem__ s root k = Raise e → e = KeyError) ∧
  (root !! dir_archive._getdir k = None
   ∨ (∃ d, root !! dir_archive._getdir k = Some d
           ∧ (output d = None
              ∨ ∃ g, output d = Some g ∧ (readable g = false ∨ payload g = None))) →
   dir_archive.__getitem__ s root k = Raise KeyError
   ∧ dir_archive.get s root k default = default).
Proof.
  split; [apply _lookup_Raise|]. intros Hfault.
  assert (dir_archive.__getitem__ s root k = Raise KeyError) as Hraise.
  { destruct (dir_archive.__getitem__ s root k) as [v|e] eqn:Hget.
    - exfalso. apply _lookup_Ok in Hget as (d & g & Hd & Hg & Hread & Hpay).
      destruct Hfault as [Hnone | (d' & Hd' & [Hout | (g' & Hg' & [Hr | Hp])])];
        congruence.
    - by apply _lookup_Raise in Hget as ->. }
  split; [done|]. unfold dir_archive.get. by rewrite Hraise.
Qed.

(** The four faults, each on a directory of its own. *)
Lemma dir_archive_lookup_fault_is_miss_witness :
  let missing : gmap string subdir := ∅ in
  let absent : gmap string subdir := {[ "K_k"%string := Subdir None None ]} in
  let locked : gmap string subdir :=
    {[ "K_k"%string := Subdir (Some (File false (Some 1%Z))) None ]} in
  let garbled : gmap string subdir :=
    {[ "K_k"%string := Subdir (Some (File true None)) None ]} in
  Forall (λ root, dir_archive.__getitem__ pickled root "k"%string = Raise KeyError
                  ∧ dir_archive.get pickled root "k"%string 7%Z = 7%Z)
         [missing; absent; locked; garbled].
Proof.
  repeat apply Forall_cons_2; [| | | |apply Forall_nil_2].
  - apply (@dir_archive_lookup_fault_is_miss string_signature pickled _ "k"%string 7%Z).
    by left.
  - apply (@dir_archive_lookup_fault_is_miss string_signature pickled _ "k"%string 7%Z).
    right. eexists. split; [reflexivity|]. by left.
  - apply (@dir_archive_lookup_fault_is_miss string_signature pickled _ "k"%string 7%Z).
    right. eexists. split; [reflexivity|]. right. eexists. split; [reflexivity|]. by left.
  - apply (@dir_archive_lookup_fault_is_miss string_signature pickled _ "k"%string 7%Z).
    right. eexists. split; [reflexivity|]. right. eexists. split; [reflexivity|]. by right.
Defined.

(** Whatever the directory held under the key, once the write of the
    value file has raised an [OSError] in a temporary directory of a new
    name and the old subdirectory has been removed, the key is not
    found. *)
Lemma store_write_fault_forgets `{Signature} (s : settings) (e : store_env)
    (root : gmap string subdir) (k : key) (v : value) :
  root !! dir_archive._getdir_str (TEMP +:+ tmp e) = None →
  output_io e ≠ io_ok →
  rmtree_fails e = false →
  dir_archive.__getitem__ s (dir_archive.__setitem__ e root k v) k = Raise KeyError.
Proof.
  intros Hfresh Hio Hrm.
  destruct (dir_archive.__getitem__ s _ k) as [v'|err] eqn:Hget;
    [exfalso | by apply _lookup_Raise in Hget as ->].
  apply _lookup_Ok in Hget as (d & g & Hd & Hg & _ & Hpay).
  revert Hd. unfold dir_archive.__setitem__, dir_archive._store, dir_archive.renames,
    dir_archive._rmdir, dir_archive.populate, dir_archive._mkdir_str.
  rewrite Hrm, Hfresh.
  set (tdir := dir_archive._getdir_str (TEMP +:+ tmp e)) in *.
  set (target := dir_archive._getdir k).
  destruct (mkdir_fails e).
  - rewrite Hfresh. destruct (decide (tdir = target)) as [Heq|Hne].
    + rewrite Heq, lookup_delete_eq, lookup_delete_eq. done.
    + rewrite lookup_delete_ne, Hfresh, lookup_delete_eq by done. done.
  - rewrite lookup_insert_eq. unfold dir_archive.write_pickle, dir_archive.empty_subdir.
    destruct (decide (tdir = target)) as [Heq|Hne].
    + rewrite <- Heq. destruct (output_io e); [done| |]; simpl;
        rewrite !lookup_delete_eq; done.
    + destruct (output_io e); [done| |]; simpl;
        rewrite lookup_delete_ne, lookup_insert_eq by done;
        (destruct (rename_fails e); [by rewrite lookup_delete_eq|]);
        rewrite bool_decide_false by done;
        rewrite lookup_delete_eq, lookup_insert_eq;
        intros [= <-]; simpl in Hg; [done | injection Hg as <-; done].
Qed.

(** C2.  A directory holds the value [1] under the key ["k"].  Storing [2]
    under ["k"] while the write of the value file raises an [OSError]
    passes over the error, removes the entry and moves the unfinished
    temporary directory into its place; when it is the temporary
    directory that cannot be made, the entry is removed and nothing
    replaces it.  Either way the value [1] is lost and the lookup of
    ["k"] fails. *)
Theorem dir_archive_store_fault_loses_entry :
  let root : gmap string subdir :=
    {[ "K_k"%string := Subdir (Some (File true (Some 1%Z))) None ]} in
  let disk_full := StoreEnv "0123" false io_fail_write io_ok false false in
  let no_mkdir := StoreEnv "0123" true io_ok io_ok false false in
  dir_archive.__getitem__ pickled root "k"%string = Ok 1%Z
  ∧ dir_archive.__setitem__ disk_full root "k"%string 2%Z
    = {[ "K_k"%string := Subdir (Some (File true None)) None ]}
  ∧ dir_archive.__getitem__ pickled
      (dir_archive.__setitem__ disk_full root "k"%string 2%Z)
      "k"%string = Raise KeyError
  ∧ dir_archive.__setitem__ no_mkdir root "k"%string 2%Z = ∅
  ∧ dir_archive.__getitem__ pickled
      (dir_archive.__setitem__ no_mkdir root "k"%string 2%Z)
      "k"%string = Raise KeyError.
Proof. vm_compute. done. Qed.

(** ** The [cache] class *)

Section cache_facts.
Context `{Signature}.
Implicit Types (c : cache) (a : archive).

Lemma archive_getitem_KeyError a (k : key) e :
  archive_ops.__getitem__ a k = Raise e → e = KeyError.
Proof.
  destruct a as [|d|s root]; simpl.
  - by intros [= <-].
  - by intros [? _]%getitem_Raise.
  - apply _lookup_Raise.
Qed.

Lemma is_null_update envs a (d : list (key * value)) :
  archive_ops.is_null (archive_ops.update envs a d) = archive_ops.is_null a.
Proof. by destruct a. Qed.

Lemma slots_wf_init a : slots_wf (cache.__init__ a) = true.
Proof. unfold slots_wf. simpl. apply orb_true_r. Qed.

Lemma slots_wf_setter c a : slots_wf c = true → slots_wf (cache.__archive c a) = true.
Proof.
  unfold slots_wf, cache.__archive, cache.swap_slots.
  destruct (archive_ops.is_null (__swap__ c)) eqn:Hs; simpl.
  - rewrite Hs. intros _. apply orb_true_r.
  - rewrite orb_false_r. intros ->. apply orb_true_r.
Qed.

Lemma slots_wf_archived c on : slots_wf c = true → slots_wf (cache.archived c on).1 = true.
Proof.
  unfold slots_wf, cache.archived, cache.swap_slots.
  destruct on as [|[] [|]]; simpl; try done;
    destruct (archive_ops.is_null (__swap__ c)) eqn:Hs,
             (archive_ops.is_null (__archive__ c)) eqn:Ha;
    simpl; rewrite ?Hs, ?Ha; done.
Qed.

Lemma slots_wf_open c a : slots_wf c = true → slots_wf (cache.open c a) = true.
Proof. intros Hwf. by apply slots_wf_setter, slots_wf_archived. Qed.

Lemma slots_wf_drop c : slots_wf c = true → slots_wf (cache.drop c).1 = true.
Proof.
  intros Hwf. unfold cache.drop.
  pose proof (slots_wf_archived c [true] Hwf) as Hwf'.
  destruct (cache.archived c [true]) as [c' [r|e]]; simpl in *; [|done].
  by apply slots_wf_setter.
Qed.

Lemma slots_wf_load c (k : key) : slots_wf (cache.load c k) = slots_wf c.
Proof. unfold cache.load. by destruct (archive_ops.__getitem__ _ _). Qed.

Lemma slots_wf_dump w c : slots_wf (cache.dump w c) = slots_wf c.
Proof. unfold slots_wf, cache.dump. simpl. by rewrite is_null_update. Qed.
End cache_facts.

(** C4.  Assigning the [archive] property of a cache, which is what the
    [archive(obj)] of every wrapper does, puts the given archive in the
    active slot and leaves the dictionary as it is; the swap slot is
    left as it is when it holds a null archive, and otherwise receives the
    archive that was active, the slots being exchanged before the
    assignment. *)
Theorem cache_set_archive `{Signature} (c : cache) (a : archive) :
  __archive__ (cache.__archive c a) = a
  ∧ table (cache.__archive c a) = table c
  ∧ __swap__ (cache.__archive c a)
    = (if archive_ops.is_null (__swap__ c) then __swap__ c else __archive__ c)
  ∧ (∀ (st : inf_cache.closure) obj,
       inf_cache.cache (inf_cache.archive st obj)
       = cache.__archive (inf_cache.cache st) obj).
Proof.
  unfold cache.__archive, cache.swap_slots.
  destruct (archive_ops.is_null (__swap__ c)); done.
Qed.

(** C4, as stated, fails on a cache whose archive was turned off with
    [archived(False)]: the archive waiting in the swap slot is replaced by
    the null archive that was active. *)
Lemma cache_set_archive_touches_swap :
  let c := (cache.archived (cache.__init__ (dict_archive [("k"%string, 1%Z)])) [false]).1 in
  __swap__ c = dict_archive [("k"%string, 1%Z)]
  ∧ __swap__ (cache.__archive c (dict_archive [])) = null_archive
  ∧ __swap__ (cache.__archive c (dict_archive [])) ≠ __swap__ c.
Proof. vm_compute. done. Qed.

(** C7.  [archived()] tells whether the active archive is not a null
    archive.  [archived(on)] raises exactly when [on] is true and neither
    slot holds an archive that is not null; the error is a [ValueError] and
    the cache is as before.  When the state asked for differs from the
    current one and an archive is there to turn on, the two slots are
    exchanged.  On a cache with at most one archive that is not null, as
    its methods leave it, asking for the current state changes nothing,
    and after a successful call [archived()] is the state asked for. *)
Theorem cache_archived `{Signature} (c : cache) :
  cache.archived c [] = (c, Ok (Some (negb (archive_ops.is_null (__archive__ c)))))
  ∧ (∀ on, (∃ e, (cache.archived c [on]).2 = Raise e)
           ↔ on = true ∧ archive_ops.is_null (__archive__ c) = true
             ∧ archive_ops.is_null (__swap__ c) = true)
  ∧ (∀ on e, (cache.archived c [on]).2 = Raise e →
             e = ValueError ∧ (cache.archived c [on]).1 = c)
  ∧ (∀ on, on ≠ cache.is_archived c →
           ¬ (on = true ∧ archive_ops.is_null (__swap__ c) = true) →
           cache.archived c [on] = (cache.swap_slots c, Ok None))
  ∧ (slots_wf c = true →
     ∀ on, (on = cache.is_archived c → cache.archived c [on] = (c, Ok None))
           ∧ (∀ c', cache.archived c [on] = (c', Ok None) →
                    cache.is_archived c' = on ∧ slots_wf c' = true)).
Proof.
  unfold cache.archived, cache.is_archived, slots_wf, cache.swap_slots.
  split_and!.
  - done.
  - intros [];
      destruct (archive_ops.is_null (__swap__ c)), (archive_ops.is_null (__archive__ c));
      simpl; split; try done; try (intros [e ?]; done); try (intros (? & ? & ?); done);
      intros _; eauto.
  - intros [] e;
      destruct (archive_ops.is_null (__swap__ c)), (archive_ops.is_null (__archive__ c));
      simpl; try done. by intros [= <-].
  - intros [];
      destruct (archive_ops.is_null (__swap__ c)), (archive_ops.is_null (__archive__ c));
      simpl; try done; intros ? Hn; exfalso; by apply Hn.
  - intros Hwf on. split.
    + destruct on;
        destruct (archive_ops.is_null (__swap__ c)), (archive_ops.is_null (__archive__ c));
        simpl in *; done.
    + intros c'. destruct on;
        destruct (archive_ops.is_null (__swap__ c)) eqn:Hs,
                 (archive_ops.is_null (__archive__ c)) eqn:Ha;
        simpl in *; try done; intros [= <-]; simpl; rewrite ?Hs, ?Ha; done.
Qed.

(** A cache made on an archive, turned off, then on again. *)
Lemma cache_archived_witness :
  let c := cache.__init__ (dict_archive [("k"%string, 1%Z)]) in
  slots_wf c = true
  ∧ cache.archived c [true] = (c, Ok None)
  ∧ cache.archived c [false] = (cache.swap_slots c, Ok None)
  ∧ cache.archived (cache.swap_slots c) [true] = (c, Ok None)
  ∧ (∃ e, (cache.archived (cache.__init__ null_archive) [true]).2 = Raise e).
Proof.
  pose proof (@cache_archived string_signature
                (cache.__init__ (dict_archive [("k"%string, 1%Z)])))
    as (_ & _ & _ & Hswap & Hwf).
  pose proof (@cache_archived string_signature
                (cache.swap_slots (cache.__init__ (dict_archive [("k"%string, 1%Z)]))))
    as (_ & _ & _ & Hback & _).
  pose proof (@cache_archived string_signature (cache.__init__ null_archive))
    as (_ & Hraise & _).
  split_and!.
  - reflexivity.
  - apply (Hwf eq_refl true). reflexivity.
  - apply Hswap; [done | intros [? _]; done].
  - apply Hback; [done | intros [_ ?]; done].
  - apply Hraise. done.
Defined.

(** C1.  Calling a bounded decorator with [maxsize=0] raises a
    [NameError]: the call of [no_cache] it returns reads the name
    [keymep], which nothing binds; no decorator is returned. *)
Theorem bounded_cache_maxsize_zero_raises (p : policy) :
  bounded_cache p (Some 0%Z) = Raise NameError.
Proof. destruct p; vm_compute; reflexivity. Qed.

(** ** Steps shared by the wrappers *)

Lemma run_calls_invariant {S A B : Type} (wrapper : world → S → A → S * B)
    (P : S → Prop) (st : S) (calls : list (world * A)) :
  P st → (∀ st w a, P st → P (wrapper w st a).1) → P (run_calls wrapper st calls).
Proof.
  intros Hst Hstep. unfold run_calls. revert st Hst.
  induction calls as [|[w a] calls IH]; simpl; [done|].
  intros st Hst. apply IH, Hstep, Hst.
Qed.

Section wrapper_facts.
Context `{Signature}.
Implicit Types (c : cache) (k : key).

(** [if cache.archived(): cache.load(key)]: the slots are as before, and
    the dictionary is as before or holds the key. *)
Lemma look_in_archive c k :
  let c' := if cache.is_archived c then cache.load c k else c in
  __archive__ c' = __archive__ c ∧ __swap__ c' = __swap__ c
  ∧ (c' = c ∨ ∃ v, table c' = dict.__setitem__ (table c) k v).
Proof.
  simpl. destruct (cache.is_archived c); [|by auto].
  unfold cache.load. destruct (archive_ops.__getitem__ (__archive__ c) k); simpl; eauto.
Qed.

Lemma getitem_setitem (d : list (key * value)) k v :
  dict.__getitem__ (dict.__setitem__ d k v) k = Ok v.
Proof. apply getitem_Ok. rewrite lookup_setitem. by rewrite decide_True. Qed.

Lemma len_exceeds_true {A} (l : list A) (maxsize : Z) :
  len_exceeds l maxsize = true ↔ (maxsize < Z.of_nat (length l))%Z.
Proof. unfold len_exceeds. apply bool_decide_eq_true. Qed.

Lemma len_exceeds_false {A} (l : list A) (maxsize : Z) :
  len_exceeds l maxsize = false ↔ (Z.of_nat (length l) ≤ maxsize)%Z.
Proof. unfold len_exceeds. rewrite bool_decide_eq_false. lia. Qed.

Lemma is_archived_dump w c : cache.is_archived (cache.dump w c) = cache.is_archived c.
Proof. unfold cache.is_archived, cache.dump. simpl. by rewrite is_null_update. Qed.

(** Where every object serialises no store lets an error out. *)
Lemma store_escape_None (s : settings) (e : store_env) (root : gmap string subdir) k
    (v : value) :
  value_dump_error s v = None →
  (dir_archive.needs_input k = true → key_dump_error s k = None) →
  dir_archive._store_escape s e root k v = None.
Proof.
  intros Hv Hk. unfold dir_archive._store_escape. rewrite Hv.
  destruct (dir_archive.needs_input k); [rewrite Hk by done|]; repeat case_match; done.
Qed.

Lemma update_from_Ok (s : settings) envs (items : list (key * value)) :
  (∀ v, value_dump_error s v = None) →
  (∀ k, key_dump_error s k = None) →
  ∀ n root, (dir_archive.update_from s envs n root items).2 = Ok ().
Proof.
  intros Hv Hk. induction items as [|[k v] items IH]; intros n root; simpl; [done|].
  unfold dir_archive._store_result. rewrite store_escape_None by auto. apply IH.
Qed.

Lemma dump_safe_raises w c : dump_safe (__archive__ c) → cache.dump_raises w c = None.
Proof.
  unfold cache.dump_raises, archive_ops.update_raises, dump_safe.
  destruct (__archive__ c) as [|d|s root]; [done | done |]. intros [Hv Hk].
  unfold dir_archive.update_result. by rewrite update_from_Ok.
Qed.

Lemma dump_safe_dump w c :
  dump_safe (__archive__ c) → dump_safe (__archive__ (cache.dump w c)).
Proof. unfold cache.dump. simpl. by destruct (__archive__ c). Qed.

Lemma dump_safe_load c k :
  dump_safe (__archive__ c) → dump_safe (__archive__ (cache.load c k)).
Proof. unfold cache.load. by destruct (archive_ops.__getitem__ _ _). Qed.

Lemma dump_safe_look c k :
  dump_safe (__archive__ c) →
  dump_safe (__archive__ (if cache.is_archived c then cache.load c k else c)).
Proof. intros Hc. destruct (cache.is_archived c); [by apply dump_safe_load | done]. Qed.
End wrapper_facts.

(** ** [no_cache] *)

Section no_cache_facts.
Context `{Signature} (user_function : args → result value).


End no_cache_facts.


(** ** [inf_cache] *)

Section inf_cache_facts.
Context `{Signature} (user_function : args → result value).

Lemma inf_cache_hit w (st : inf_cache.closure) (a : args) (v : value) :
  dict.__getitem__ (table (inf_cache.cache st)) (keymap a) = Ok v →
  inf_cache.wrapper user_function w st a
  = (inf_cache.Closure (inf_cache.cache st) (incr_HIT (inf_cache.stats st)), Ok v).
Proof. intros Hget. unfold inf_cache.wrapper. by rewrite Hget. Qed.

Lemma inf_cache_miss w (st : inf_cache.closure) (a : args) (v : value) :
  keymap a ∉ dict.keys (table (inf_cache.cache st)) →
  archive_ops.__getitem__ (__archive__ (inf_cache.cache st)) (keymap a) = Raise KeyError →
  user_function a = Ok v →
  inf_cache.wrapper user_function w st a
  = (inf_cache.Closure (cache.__setitem__ (inf_cache.cache st) (keymap a) v)
                       (incr_MISS (inf_cache.stats st)), Ok v).
Proof.
  intros Hk Harch Hf. unfold inf_cache.wrapper, cache.load.
  rewrite (getitem_not_elem_of _ _ Hk), Harch.
  destruct (cache.is_archived (inf_cache.cache st));
    by rewrite (getitem_not_elem_of _ _ Hk), Hf.
Qed.
End inf_cache_facts.

(** C6.  A function decorated with [inf_cache] on a cache whose archive,
    persistent or not, does not hold the key of [x]: the first call with [x]
    gives the counters (hit, miss, load) = (0, 1, 0) and the second
    (1, 1, 0); after [clear(keepstats=True)], which leaves the archive as
    it is, a third call gives (1, 2, 0): the wrapper wrote nothing to the
    archive, so the value is computed again. *)
Theorem inf_cache_statistics `{Signature} (user_function : args → result value)
    (a : archive) (x : args) (v : value) (w1 w2 w3 : world) :
  archive_ops.__getitem__ a (keymap x) = Raise KeyError →
  user_function x = Ok v →
  let st0 := inf_cache.fresh (cache.__init__ a) in
  let st1 := (inf_cache.wrapper user_function w1 st0 x).1 in
  let st2 := (inf_cache.wrapper user_function w2 st1 x).1 in
  let cleared := inf_cache.clear st2 true in
  let st3 := (inf_cache.wrapper user_function w3 cleared x).1 in
  counters (inf_cache.info st1) = (0, 1, 0)
  ∧ counters (inf_cache.info st2) = (1, 1, 0)
  ∧ __archive__ (inf_cache.cache cleared) = a
  ∧ CacheInfo.size (inf_cache.info cleared) = 0
  ∧ counters (inf_cache.info st3) = (1, 2, 0).
Proof.
  intros Hmiss Hf st0 st1 st2 cleared st3.
  assert (st1 = inf_cache.Closure (Cache [(keymap x, v)] a null_archive) (Stats 0 1 0))
    as Hst1.
  { unfold st1, st0. rewrite (inf_cache_miss _ _ _ _ v); [done | | done | done].
    apply not_elem_of_nil. }
  assert (st2 = inf_cache.Closure (Cache [(keymap x, v)] a null_archive) (Stats 1 1 0))
    as Hst2.
  { unfold st2. rewrite Hst1, (inf_cache_hit _ _ _ _ v); [done|].
    apply (getitem_setitem [] (keymap x) v). }
  assert (cleared = inf_cache.Closure (Cache [] a null_archive) (Stats 1 1 0)) as Hcl.
  { unfold cleared. by rewrite Hst2. }
  assert (st3 = inf_cache.Closure (Cache [(keymap x, v)] a null_archive) (Stats 1 2 0))
    as Hst3.
  { unfold st3. rewrite Hcl, (inf_cache_miss _ _ _ _ v); [done | | done | done].
    apply not_elem_of_nil. }
  rewrite Hst1, Hst2, Hcl, Hst3. done.
Qed.

Lemma inf_cache_statistics_witness :
  let st0 := inf_cache.fresh (cache.__init__ (dir_archive pickled ∅)) in
  let st1 := (inf_cache.wrapper string_length calm st0 "1"%string).1 in
  let st2 := (inf_cache.wrapper string_length calm st1 "1"%string).1 in
  let st3 := (inf_cache.wrapper string_length calm (inf_cache.clear st2 true) "1"%string).1 in
  counters (inf_cache.info st1) = (0, 1, 0)
  ∧ counters (inf_cache.info st2) = (1, 1, 0)
  ∧ counters (inf_cache.info st3) = (1, 2, 0).
Proof.
  pose proof (@inf_cache_statistics string_signature string_length (dir_archive pickled ∅)
                "1"%string 1%Z calm calm calm eq_refl eq_refl)
    as (H1 & H2 & _ & _ & H3).
  split_and!; [exact H1 | exact H2 | exact H3].
Defined.

(** C6, as stated, fails: on an empty directory archive the third call
    counts a second miss and no load. *)
Lemma inf_cache_third_call_recomputes :
  let st0 := inf_cache.fresh (cache.__init__ (dir_archive pickled ∅)) in
  let st1 := (inf_cache.wrapper string_length calm st0 "1"%string).1 in
  let st2 := (inf_cache.wrapper string_length calm st1 "1"%string).1 in
  let st3 := (inf_cache.wrapper string_length calm (inf_cache.clear st2 true) "1"%string).1 in
  counters (inf_cache.info st3) ≠ (1, 1, 1).
Proof. vm_compute. done. Qed.

(** What the claim describes is what happens when the cache is dumped to
    the archive before it is cleared. *)
Lemma inf_cache_load_after_dump :
  let st0 := inf_cache.fresh (cache.__init__ (dir_archive pickled ∅)) in
  let st1 := (inf_cache.wrapper string_length calm st0 "1"%string).1 in
  let st2 := (inf_cache.wrapper string_length calm st1 "1"%string).1 in
  let dumped := inf_cache.dump calm st2 in
  let st3 :=
    (inf_cache.wrapper string_length calm (inf_cache.clear dumped true) "1"%string).1 in
  counters (inf_cache.info st3) = (1, 1, 1).
Proof. vm_compute. done. Qed.

(** ** Deques *)

Section queue_facts.
Context {A : Type}.
Implicit Types (q : list A) (x : A).

Lemma queue_pop_snoc q x : queue_pop (q ++ [x]) = Some (q, x).
Proof. induction q as [|y q IH]; simpl; [done|]. by rewrite IH. Qed.

Lemma queue_pop_nil_inv q : queue_pop q = None → q = [].
Proof.
  destruct q as [|y q]; [done|]. simpl.
  by destruct (queue_pop q) as [[? ?]|].
Qed.

Lemma queue_pop_inv q q' x : queue_pop q = Some (q', x) → q = q' ++ [x].
Proof.
  revert q'. induction q as [|y q IH]; intros q'; simpl; [done|].
  destruct (queue_pop q) as [[r z]|] eqn:Hq.
  - intros [= <- <-]. simpl. f_equal. by apply IH.
  - intros [= <- <-]. by rewrite (queue_pop_nil_inv q Hq).
Qed.
End queue_facts.

Section compaction.
Context `{Signature}.
Implicit Types (q kept pending : list key) (r : list (key * Z)) (k : key).

Lemma most_recent_occurrences_remove_dups q :
  most_recent_occurrences q = remove_dups q.
Proof. induction q as [|k q IH]; simpl; [done|]. rewrite IH. done. Qed.

Lemma most_recent_occurrences_snoc q k :
  most_recent_occurrences (q ++ [k])
  = filter (λ x, x ≠ k) (most_recent_occurrences q) ++ [k].
Proof.
  induction q as [|x q IH]; simpl; [done|].
  destruct (decide (x = k)) as [->|Hne].
  - rewrite decide_True by (apply elem_of_app; right; left).
    rewrite IH. f_equal. destruct (decide (k ∈ q)); [done|].
    rewrite filter_cons_False; [done | by intros []].
  - destruct (decide (x ∈ q)) as [Hin|Hin].
    + rewrite decide_True by (apply elem_of_app; by left). done.
    + rewrite decide_False.
      * rewrite filter_cons_True by done. simpl. by rewrite IH.
      * rewrite elem_of_app, list_elem_of_singleton. naive_solver.
Qed.

Lemma keys_ones (l : list key) : dict.keys (ones l) = l.
Proof.
  unfold dict.keys, ones. induction l as [|x l IH]; csimpl; [done|]. by rewrite IH.
Qed.

Lemma get_ones (l : list key) k :
  Counter.get (ones l) k = if decide (k ∈ l) then 1%Z else 0%Z.
Proof.
  unfold Counter.get, ones. induction l as [|x l IH]; csimpl.
  - first [done | by rewrite decide_False by apply not_elem_of_nil].
  - destruct (decide (k = x)) as [->|Hne]; simpl.
    + by rewrite decide_True by left.
    + rewrite IH. destruct (decide (k ∈ l)).
      * by rewrite decide_True by (by right).
      * rewrite decide_False; [done|]. rewrite not_elem_of_cons. done.
Qed.

Lemma setitem_fresh {V} (d : list (key * V)) k (v : V) :
  k ∉ dict.keys d → dict.__setitem__ d k v = d ++ [(k, v)].
Proof.
  unfold dict.keys. induction d as [|[k' v'] d IH]; csimpl; [done|].
  rewrite not_elem_of_cons. intros [Hne Hin].
  rewrite decide_False by done. by rewrite IH.
Qed.

(** The loop, on a deque whose marker has [kept] on its left and [pending]
    on its right: what is kept of [pending] goes left of [kept], and
    enters the counter from the most recent key on. *)
Lemma compact_loop_spec pending :
  ∀ kept r fuel,
    length pending < fuel →
    (∀ k, k ∈ dict.keys r ↔ k ∈ kept) →
    let new := filter (λ x, x ∉ kept) (most_recent_occurrences pending) in
    lru_cache.compact_loop fuel ((item <$> kept) ++ sentinel :: (item <$> pending)) r
    = (item <$> (new ++ kept), r ++ ones (reverse new), None).
Proof.
  induction pending as [|k pending IH] using rev_ind; intros kept r fuel Hfuel Hr new.
  - destruct fuel as [|fuel]; [simpl in Hfuel; lia|]. simpl.
    rewrite queue_pop_snoc. unfold new. simpl. by rewrite app_nil_r.
  - destruct fuel as [|fuel]; [simpl in Hfuel; lia|].
    rewrite length_app in Hfuel. simpl in Hfuel.
    cbn [lru_cache.compact_loop].
    replace ((item <$> kept) ++ sentinel :: (item <$> (pending ++ [k])))
      with (((item <$> kept) ++ sentinel :: (item <$> pending)) ++ [item k])
      by (rewrite fmap_app, <- app_assoc; done).
    rewrite queue_pop_snoc. unfold dict.__contains__.
    subst new. rewrite most_recent_occurrences_snoc, filter_app, list_filter_filter.
    case_bool_decide as Hk.
    + apply Hr in Hk. rewrite IH by (done || lia).
      rewrite filter_cons_False, filter_nil, app_nil_r by naive_solver.
      assert (filter (λ a, (a ∉ kept) ∧ a ≠ k) (most_recent_occurrences pending)
              = filter (λ x, x ∉ kept) (most_recent_occurrences pending)) as ->; [|done].
      apply list_filter_iff. intros x. naive_solver.
    + assert (k ∉ kept) as Hk' by (by rewrite <- Hr).
      change (item k :: (item <$> kept) ++ sentinel :: (item <$> pending))
        with ((item <$> (k :: kept)) ++ sentinel :: (item <$> pending)).
      rewrite IH; [|lia|].
      * rewrite filter_cons_True, filter_nil by done.
        rewrite (setitem_fresh r k 1%Z Hk).
        assert (filter (λ x, x ∉ k :: kept) (most_recent_occurrences pending)
                = filter (λ x, (x ∉ kept) ∧ x ≠ k) (most_recent_occurrences pending)) as ->.
        { apply list_filter_iff. intros x. rewrite not_elem_of_cons. naive_solver. }
        rewrite reverse_app, <- !app_assoc. simpl. done.
      * intros x. rewrite keys_setitem, decide_False by done.
        rewrite elem_of_app, list_elem_of_singleton, elem_of_cons, Hr. naive_solver.
Qed.

Lemma filter_not_elem_of_nil q : filter (λ x, x ∉ @nil key) q = q.
Proof.
  induction q as [|k q IH]; [done|].
  rewrite filter_cons_True by apply not_elem_of_nil. by rewrite IH.
Qed.

Lemma keys_of_items q : lru_cache.keys_of (item <$> q) = q.
Proof.
  unfold lru_cache.keys_of. induction q as [|k q IH]; csimpl; [done|]. by rewrite IH.
Qed.

Lemma compact_spec (maxsize : Z) (st : lru_cache.closure) (res : value) :
  len_exceeds (lru_cache.queue st) (maxsize * 10) = true →
  lru_cache.compact maxsize st res
  = (lru_cache.Closure (lru_cache.cache st)
       (most_recent_occurrences (lru_cache.queue st))
       (ones (reverse (most_recent_occurrences (lru_cache.queue st))))
       (lru_cache.stats st), Ok res).
Proof.
  intros Hlen. unfold lru_cache.compact. rewrite Hlen.
  change (sentinel :: (item <$> lru_cache.queue st))
    with ((item <$> []) ++ sentinel :: (item <$> lru_cache.queue st)).
  rewrite compact_loop_spec.
  - by rewrite app_nil_r, keys_of_items, filter_not_elem_of_nil.
  - simpl. rewrite length_fmap. lia.
  - intros k. done.
Qed.
End compaction.

Section compaction_order.
Context {K : Type} `{EqDecision K}.
Implicit Types (q : list K).

Lemma elem_of_most_recent_occurrences q k : k ∈ most_recent_occurrences q ↔ k ∈ q.
Proof.
  induction q as [|x q IH]; simpl; [done|].
  case_decide as Hx; rewrite ?elem_of_cons, IH; naive_solver.
Qed.

Lemma NoDup_most_recent_occurrences q : NoDup (most_recent_occurrences q).
Proof.
  induction q as [|x q IH]; simpl; [apply NoDup_nil_2|].
  case_decide as Hx; [done|]. apply NoDup_cons. split; [|done].
  by rewrite elem_of_most_recent_occurrences.
Qed.

Lemma sublist_most_recent_occurrences q : most_recent_occurrences q `sublist_of` q.
Proof.
  induction q as [|x q IH]; simpl; [done|].
  case_decide; [by apply sublist_cons | by apply sublist_skip].
Qed.
End compaction_order.

(** C9.  In a call of a function decorated with [lru_cache] that returns,
    when the queue is longer than [maxsize * 10] once the key has been
    looked up, recorded and the cache purged, the wrapper leaves a queue
    that holds of every key of that queue its most recent occurrence and
    nothing else, in the order these occurrences had, and a [refcount]
    that holds exactly the keys of the new queue, each with the count 1;
    the cache and the statistics are not touched. *)
Theorem lru_cache_compaction `{Signature} (user_function : args → result value)
    (maxsize : Z) (w : world) (st : lru_cache.closure) (a : args)
    (st1 : lru_cache.closure) (res : value) :
  lru_cache.access user_function maxsize w st a = (st1, Ok res) →
  (maxsize * 10 < Z.of_nat (length (lru_cache.queue st1)))%Z →
  let out := lru_cache.wrapper user_function maxsize w st a in
  out.2 = Ok res
  ∧ lru_cache.queue out.1 = most_recent_occurrences (lru_cache.queue st1)
  ∧ NoDup (lru_cache.queue out.1)
  ∧ (∀ k, k ∈ lru_cache.queue out.1 ↔ k ∈ lru_cache.queue st1)
  ∧ lru_cache.queue out.1 `sublist_of` lru_cache.queue st1
  ∧ dict.keys (lru_cache.refcount out.1) = reverse (lru_cache.queue out.1)
  ∧ (∀ k, k ∈ lru_cache.queue out.1 →
          dict.__getitem__ (lru_cache.refcount out.1) k = Ok 1%Z)
  ∧ lru_cache.cache out.1 = lru_cache.cache st1
  ∧ lru_cache.stats out.1 = lru_cache.stats st1.
Proof.
  intros Haccess Hlen out. subst out. unfold lru_cache.wrapper.
  rewrite Haccess, compact_spec by (by apply len_exceeds_true). simpl.
  split_and!; try done.
  - apply NoDup_most_recent_occurrences.
  - apply elem_of_most_recent_occurrences.
  - apply sublist_most_recent_occurrences.
  - apply keys_ones.
  - intros k Hk. apply getitem_Ok.
    pose proof (get_ones (reverse (most_recent_occurrences (lru_cache.queue st1))) k) as Hget.
    rewrite decide_True in Hget by (by rewrite elem_of_reverse).
    unfold Counter.get in Hget.
    destruct (dict.lookup_key _ k) as [n|] eqn:Hn; simpl in Hget; [by subst | done].
Qed.

(** Twenty calls on two keys in turn fill the queue of a cache of two
    entries; the next call compacts it. *)
Lemma lru_cache_compaction_witness :
  let calls := mjoin (replicate 10 [(calm, "A"%string); (calm, "B"%string)]) in
  let st := run_calls (lru_cache.wrapper string_length 2)
                      (lru_cache.fresh (cache.__init__ null_archive)) calls in
  let out := lru_cache.wrapper string_length 2 calm st "A"%string in
  length (lru_cache.queue st) = 20
  ∧ lru_cache.queue out.1 = ["B"%string; "A"%string]
  ∧ dict.keys (lru_cache.refcount out.1) = ["A"%string; "B"%string].
Proof.
  intros calls st out.
  destruct (@lru_cache_compaction string_signature string_length 2 calm st "A"%string
              (lru_cache.access string_length 2 calm st "A"%string).1 1%Z)
    as (_ & Hq & _ & _ & _ & Hk & _).
  - vm_compute. reflexivity.
  - vm_compute. reflexivity.
  - split_and!.
    + vm_compute. reflexivity.
    + fold out in Hq. rewrite Hq. vm_compute. reflexivity.
    + fold out in Hk. rewrite Hk. fold out in Hq. rewrite Hq. vm_compute. reflexivity.
Defined.

(** ** [lfu_cache] on two entries *)

(** Decides the comparisons of keys that the hypotheses settle. *)
Ltac key_decide :=
  repeat match goal with
    | |- context [decide (?x = ?y)] =>
        first [ rewrite (decide_True (P := x = y)) by done
              | rewrite (decide_False (P := x = y)) by done ]
    | |- context [bool_decide (?x ∈ ?l)] =>
        first [ rewrite (bool_decide_true (x ∈ l)) by set_solver
              | rewrite (bool_decide_false (x ∈ l)) by set_solver ]
    end.

(** C3.  A function decorated with [lfu_cache(maxsize=2)], no archive
    attached, whose cache holds the keys [A] and [B] with the counts 5 and
    1: a call with a new key [C] computes and returns the value, then
    evicts the two least frequently used keys, which are [B] and [C]
    itself, so that [A] alone remains in the cache and in [use_count]. *)
Theorem lfu_cache_evicts_two `{Signature} (user_function : args → result value)
    (w : world) (st : lfu_cache.closure) (c : args) (A B : key) (va vb vc : value) :
  A ≠ B → keymap c ≠ A → keymap c ≠ B →
  cache.is_archived (lfu_cache.cache st) = false →
  table (lfu_cache.cache st) = [(A, va); (B, vb)]
  ∨ table (lfu_cache.cache st) = [(B, vb); (A, va)] →
  lfu_cache.use_count st = [(A, 5%Z); (B, 1%Z)]
  ∨ lfu_cache.use_count st = [(B, 1%Z); (A, 5%Z)] →
  user_function c = Ok vc →
  let out := lfu_cache.wrapper user_function 2 w st c in
  out.2 = Ok vc
  ∧ table (lfu_cache.cache out.1) = [(A, va)]
  ∧ lfu_cache.use_count out.1 = [(A, 5%Z)]
  ∧ dict.__contains__ (table (lfu_cache.cache out.1)) A = true
  ∧ dict.__contains__ (table (lfu_cache.cache out.1)) B = false
  ∧ dict.__contains__ (table (lfu_cache.cache out.1)) (keymap c) = false.
Proof.
  intros HAB HCA HCB Harch Htable Hcount Hf out.
  assert (out.2 = Ok vc ∧ table (lfu_cache.cache out.1) = [(A, va)]
          ∧ lfu_cache.use_count out.1 = [(A, 5%Z)]) as (Hres & Ht & Hu).
  { subst out. unfold lfu_cache.wrapper. rewrite Harch.
    assert (keymap c ∉ dict.keys (table (lfu_cache.cache st))) as Hnew.
    { unfold dict.keys. destruct Htable as [-> | ->]; set_solver. }
    assert (keymap c ∉ dict.keys (lfu_cache.use_count st)) as Hnew'.
    { unfold dict.keys. destruct Hcount as [-> | ->]; set_solver. }
    rewrite (getitem_not_elem_of _ _ Hnew), Hf.
    unfold lfu_cache.purge, cache.__setitem__, Counter.add, Counter.get.
    cbn [lfu_cache.cache lfu_cache.use_count lfu_cache.stats table
         __archive__ __swap__ cache.is_archived cache.with_table].
    unfold cache.is_archived in Harch |- *. cbn [__archive__]. rewrite Harch.
    rewrite (proj2 (lookup_key_None _ _) Hnew').
    rewrite (setitem_fresh _ _ _ Hnew), (setitem_fresh _ _ _ Hnew').
    unfold len_exceeds, nsmallest.
    destruct Htable as [-> | ->], Hcount as [-> | ->]; simpl;
      unfold dict.__delitem__, dict.__contains__; simpl;
      repeat (key_decide; simpl); done. }
  split_and!; try done; unfold dict.__contains__, dict.keys; rewrite Ht; simpl.
  - apply bool_decide_true; set_solver.
  - apply bool_decide_false; set_solver.
  - apply bool_decide_false; set_solver.
Qed.

(** Five calls with ["A"] and one with ["B"] on a fresh function, then a
    call with ["C"]. *)
Lemma lfu_cache_evicts_two_witness :
  let calls := replicate 5 (calm, "A"%string) ++ [(calm, "B"%string)] in
  let st := run_calls (lfu_cache.wrapper string_length 2)
                      (lfu_cache.fresh (cache.__init__ null_archive)) calls in
  let out := lfu_cache.wrapper string_length 2 calm st "C"%string in
  lfu_cache.use_count st = [("A"%string, 5%Z); ("B"%string, 1%Z)]
  ∧ out.2 = Ok 1%Z
  ∧ table (lfu_cache.cache out.1) = [("A"%string, 1%Z)].
Proof.
  intros calls st out.
  destruct (@lfu_cache_evicts_two string_signature string_length calm st "C"%string
              "A"%string "B"%string 1%Z 1%Z 1%Z) as (Hres & Ht & _);
    [ done | done | done | vm_compute; reflexivity
    | left; vm_compute; reflexivity | left; vm_compute; reflexivity
    | vm_compute; reflexivity | ].
  split_and!; [vm_compute; reflexivity | exact Hres | exact Ht].
Defined.

(** C3, as stated, fails: after the call with ["C"], the key ["C"] is not
    in the cache. *)
Lemma lfu_cache_new_key_is_evicted :
  let calls := replicate 5 (calm, "A"%string) ++ [(calm, "B"%string)] in
  let st := run_calls (lfu_cache.wrapper string_length 2)
                      (lfu_cache.fresh (cache.__init__ null_archive)) calls in
  let out := lfu_cache.wrapper string_length 2 calm st "C"%string in
  lfu_cache.use_count st = [("A"%string, 5%Z); ("B"%string, 1%Z)]
  ∧ ¬ (dict.__contains__ (table (lfu_cache.cache out.1)) "B"%string = false
       ∧ dict.__contains__ (table (lfu_cache.cache out.1)) "A"%string = true
       ∧ dict.__contains__ (table (lfu_cache.cache out.1)) "C"%string = true).
Proof. vm_compute. split; [reflexivity | intros (_ & _ & ?); done]. Qed.

(** ** The capacity of the bounded caches *)

Section sorting_facts.
Context {K : Type} `{EqDecision K}.
Implicit Types (l : list (K * Z)).

Lemma insert_by_count_perm x l : insert_by_count x l ≡ₚ x :: l.
Proof.
  induction l as [|y l IH]; simpl; [done|].
  case_decide; [done|]. rewrite IH. apply Permutation_swap.
Qed.

Lemma sorted_by_count_perm l : sorted_by_count l ≡ₚ l.
Proof.
  induction l as [|x l IH]; simpl; [done|].
  by rewrite insert_by_count_perm, IH.
Qed.

Lemma nsmallest_length n l :
  length (nsmallest n l) = Z.to_nat n `min` length l.
Proof. unfold nsmallest. by rewrite length_take, sorted_by_count_perm. Qed.

Lemma nsmallest_keys_NoDup n l : NoDup l.*1 → NoDup (nsmallest n l).*1.
Proof.
  intros Hl. unfold nsmallest. rewrite fmap_take.
  apply (sublist_NoDup _ (sorted_by_count l).*1); [|apply sublist_take].
  by rewrite sorted_by_count_perm.
Qed.

Lemma nsmallest_keys_elem_of n l k : k ∈ (nsmallest n l).*1 → k ∈ l.*1.
Proof.
  unfold nsmallest. rewrite fmap_take. intros Hk.
  rewrite <- (sorted_by_count_perm l).
  eapply elem_of_sublist; [exact Hk | apply sublist_take].
Qed.
End sorting_facts.

(** Reads the fields of the closures and caches that are written out. *)
Ltac fields :=
  cbn [lfu_cache.cache lfu_cache.use_count lfu_cache.stats
       lru_cache.cache lru_cache.queue lru_cache.refcount lru_cache.stats
       mru_cache.cache mru_cache.queue mru_cache.stats
       rr_cache.cache rr_cache.stats
       table __archive__ __swap__
       cache.with_table cache.__setitem__ cache.clear cache.dump fst snd] in *.

Section lfu_facts.
Context `{Signature} (user_function : args → result value).
Implicit Types (st : lfu_cache.closure) (k : key).

Lemma del_each_ok (victims : list (key * Z)) :
  ∀ (t : list (key * value)) (u : list (key * Z)),
    NoDup victims.*1 →
    (∀ k, k ∈ victims.*1 → k ∈ dict.keys u) →
    NoDup (dict.keys t) →
    dict.keys t ≡ₚ dict.keys u →
    ∃ t' u', lfu_cache.del_each victims t u = (t', u', None)
             ∧ NoDup (dict.keys t')
             ∧ dict.keys t' ≡ₚ dict.keys u'
             ∧ length t = length victims + length t'.
Proof.
  induction victims as [|[k n] victims IH]; intros t u Hnd Hin Ht Hperm.
  - exists t, u. done.
  - csimpl in *. apply NoDup_cons in Hnd as [Hk Hnd].
    assert (k ∈ dict.keys u) as Hku by (apply Hin; left).
    assert (k ∈ dict.keys t) as Hkt by (by rewrite Hperm).
    rewrite (delitem_Ok t k Hkt), (delitem_Ok u k Hku).
    pose proof (keys_remove_key t k Hkt) as Hpt.
    pose proof (keys_remove_key u k Hku) as Hpu.
    assert (dict.keys (dict.remove_key t k) ≡ₚ dict.keys (dict.remove_key u k)) as Hperm'.
    { apply (Permutation_cons_inv (a := k)). by rewrite <- Hpt, <- Hpu. }
    destruct (IH (dict.remove_key t k) (dict.remove_key u k)) as (t' & u' & Hdel & ? & ? & Hlen);
      [done | | by apply NoDup_keys_remove_key | done |].
    + intros k' Hk'. assert (k' ∈ dict.keys u) as Hu by (apply Hin; by right).
      rewrite Hpu in Hu. apply elem_of_cons in Hu as [-> | ?]; done.
    + exists t', u'. split_and!; try done.
      rewrite (length_remove_key t k Hkt). lia.
Qed.

Lemma lfu_purge_ok (maxsize : Z) w st (res : value) :
  (0 ≤ maxsize)%Z →
  lfu_inv st →
  (Z.of_nat (length (table (lfu_cache.cache st))) ≤ maxsize + 1)%Z →
  cache.dump_raises w (lfu_cache.cache st) = None
  ∨ (∃ res0 : value, (lfu_cache.purge maxsize w st res).2 = Ok res0) →
  let out := lfu_cache.purge maxsize w st res in
  out.2 = Ok res ∧ lfu_inv out.1
  ∧ (Z.of_nat (length (table (lfu_cache.cache out.1))) ≤ maxsize)%Z.
Proof.
  intros Hmax [Hnd Hperm] Hlen Hquiet. unfold lfu_cache.purge in *.
  destruct (len_exceeds _ maxsize) eqn:Hexc.
  - apply len_exceeds_true in Hexc.
    destruct (cache.is_archived (lfu_cache.cache st)) eqn:Harch; simpl.
    + destruct (cache.dump_raises w (lfu_cache.cache st)) as [err|] eqn:Hdump.
      { by destruct Hquiet as [?|[r ?]]. }
      simpl. split_and!; [done | | lia]. split; [apply NoDup_nil_2 | done].
    + clear Hquiet.
      set (victims := nsmallest (2 `max` (maxsize / 10)) (lfu_cache.use_count st)).
      destruct (del_each_ok victims (table (lfu_cache.cache st)) (lfu_cache.use_count st))
        as (t' & u' & -> & Hnd' & Hperm' & Hlen').
      * apply nsmallest_keys_NoDup. unfold dict.keys in Hperm. by rewrite <- Hperm.
      * intros k. apply nsmallest_keys_elem_of.
      * done.
      * done.
      * simpl. split_and!; [done | by split |].
        assert (length victims ≥ 1); [|lia].
        unfold victims. rewrite nsmallest_length.
        assert (length (lfu_cache.use_count st) = length (table (lfu_cache.cache st))) as ->.
        { rewrite <- !length_keys. by rewrite Hperm. }
        lia.
  - apply len_exceeds_false in Hexc. done.
Qed.

(** The closure once a new key has entered the cache and [use_count]. *)
Lemma lfu_insert_inv st (c : cache) k (v : value) (s : stats) :
  lfu_inv st →
  k ∉ dict.keys (table (lfu_cache.cache st)) →
  table c = dict.__setitem__ (table (lfu_cache.cache st)) k v →
  lfu_inv (lfu_cache.Closure c (Counter.add (lfu_cache.use_count st) k 1) s)
  ∧ length (table c) = S (length (table (lfu_cache.cache st))).
Proof.
  intros [Hnd Hperm] Hk Ht. unfold lfu_inv, Counter.add. simpl.
  rewrite Ht, length_setitem, decide_False by done.
  split; [|done]. split; [by apply NoDup_keys_setitem|].
  rewrite !keys_setitem, !decide_False; [by rewrite Hperm | by rewrite <- Hperm | done].
Qed.

Lemma lfu_step (maxsize : Z) w st (a : args) :
  (0 ≤ maxsize)%Z →
  lfu_inv st →
  (Z.of_nat (length (table (lfu_cache.cache st))) ≤ maxsize)%Z →
  dump_safe (__archive__ (lfu_cache.cache st))
  ∨ (∃ res0 : value, (lfu_cache.wrapper user_function maxsize w st a).2 = Ok res0) →
  let out := lfu_cache.wrapper user_function maxsize w st a in
  lfu_inv out.1
  ∧ (Z.of_nat (length (table (lfu_cache.cache out.1))) ≤ maxsize)%Z
  ∧ (∀ e, out.2 = Raise e → user_function a = Raise e).
Proof.
  intros Hmax Hinv Hlen Hsafe. unfold lfu_cache.wrapper in *.
  destruct (dict.__getitem__ (table (lfu_cache.cache st)) (keymap a)) as [v|e] eqn:Hget.
  - (* hit *)
    simpl. split_and!; [|done|done].
    destruct Hinv as [Hnd Hperm]. split; [done|]. simpl.
    unfold Counter.add. rewrite keys_setitem, decide_True; [done|].
    rewrite <- Hperm. by eapply getitem_elem_of.
  - apply getitem_Raise in Hget as [-> Hnew].
    pose proof (look_in_archive (lfu_cache.cache st) (keymap a)) as (_ & _ & Hload).
    pose proof (dump_safe_look (lfu_cache.cache st) (keymap a)) as Hlook.
    simpl in Hload.
    set (c := if cache.is_archived (lfu_cache.cache st)
              then cache.load (lfu_cache.cache st) (keymap a)
              else lfu_cache.cache st) in *.
    destruct (dict.__getitem__ (table c) (keymap a)) as [v|e] eqn:Hget.
    + (* load *)
      destruct Hload as [Hc | [v' Hv']].
      { rewrite Hc in Hget. apply getitem_elem_of in Hget. done. }
      destruct (lfu_insert_inv st c (keymap a) v' (incr_LOAD (lfu_cache.stats st)))
        as [Hinv' Hlen']; [done..|].
      destruct (lfu_purge_ok maxsize w _ v Hmax Hinv') as (Hres & ? & ?).
      { simpl. lia. }
      { destruct Hsafe as [?|?]; [left; by apply dump_safe_raises, Hlook | by right]. }
      split_and!; [done | done |]. intros e0. rewrite Hres. done.
    + destruct Hload as [Hc | [v' Hv']].
      2:{ rewrite Hv', getitem_setitem in Hget. done. }
      destruct (user_function a) as [v|e'] eqn:Hf.
      * (* miss *)
        destruct (lfu_insert_inv st (cache.__setitem__ c (keymap a) v) (keymap a) v
                    (incr_MISS (lfu_cache.stats st))) as [Hinv' Hlen'];
          [done | done | by rewrite Hc |].
        destruct (lfu_purge_ok maxsize w _ v Hmax Hinv') as (Hres & ? & ?).
        { simpl in *. lia. }
        { destruct Hsafe as [?|?]; [left; by apply dump_safe_raises, Hlook | by right]. }
        split_and!; [done | done |]. intros e0. rewrite Hres. done.
      * simpl. rewrite Hc. split_and!; [done | done | by intros ? [= <-]].
Qed.
End lfu_facts.

Section occurrences_facts.
Context {K : Type} `{EqDecision K}.
Implicit Types (q : list K) (k : K).

Lemma occurrences_cons k x q :
  occurrences k (x :: q) = (if decide (x = k) then 1 else 0) + occurrences k q.
Proof.
  unfold occurrences. destruct (decide (x = k)) as [Hx|Hx].
  - by rewrite filter_cons_True.
  - by rewrite filter_cons_False.
Qed.

Lemma occurrences_app k q1 q2 :
  occurrences k (q1 ++ q2) = occurrences k q1 + occurrences k q2.
Proof. unfold occurrences. by rewrite filter_app, length_app. Qed.

Lemma occurrences_zero k q : occurrences k q = 0 ↔ k ∉ q.
Proof.
  induction q as [|x q IH]; [split; [intros _; apply not_elem_of_nil | done]|].
  rewrite occurrences_cons, not_elem_of_cons, <- IH.
  case_decide; split; try lia; naive_solver.
Qed.

Lemma occurrences_NoDup k q :
  NoDup q → occurrences k q = if decide (k ∈ q) then 1 else 0.
Proof.
  induction 1 as [|x q Hx Hq IH]; [by rewrite decide_False by apply not_elem_of_nil|].
  rewrite occurrences_cons, IH.
  destruct (decide (x = k)) as [->|Hne].
  - rewrite decide_False by done. by rewrite decide_True by left.
  - destruct (decide (k ∈ q)).
    + by rewrite decide_True by (by right).
    + rewrite decide_False; [done|]. rewrite not_elem_of_cons. done.
Qed.
End occurrences_facts.

Section lru_facts.
Context `{Signature} (user_function : args → result value).
Implicit Types (st : lru_cache.closure) (k : key) (q : list key) (r : list (key * Z)).

Lemma popleft_unreferenced_ok q :
  ∀ r,
    q ≠ [] →
    (∀ k, Counter.get r k = Z.of_nat (occurrences k q)) →
    (∀ k, k ∈ dict.keys r → k ∈ q) →
    ∃ q' r' k,
      lru_cache.popleft_unreferenced q r = (q', r', Ok k)
      ∧ dict.keys r' = dict.keys r
      ∧ k ∈ dict.keys r
      ∧ Counter.get r' k = 0%Z
      ∧ (∀ k', Counter.get r' k' = Z.of_nat (occurrences k' q'))
      ∧ (∀ k', k' ∈ dict.keys r' → k' ≠ k → k' ∈ q').
Proof.
  induction q as [|x q IH]; intros r Hq Hcount Hin; [done|]. clear Hq.
  cbn [lru_cache.popleft_unreferenced].
  set (r1 := Counter.add r x (-1)).
  assert (x ∈ dict.keys r) as Hx.
  { apply get_nonzero_elem_of. rewrite Hcount, occurrences_cons, decide_True by done. lia. }
  assert (dict.keys r1 = dict.keys r) as Hkeys.
  { unfold r1, Counter.add. by rewrite keys_setitem, decide_True. }
  assert (∀ k, Counter.get r1 k = Z.of_nat (occurrences k q)) as Hcount1.
  { intros k. unfold r1. rewrite get_add.
    destruct (decide (k = x)) as [->|Hne]; rewrite Hcount, occurrences_cons.
    - rewrite decide_True by done. lia.
    - rewrite decide_False by done. done. }
  destruct (decide (Counter.get r1 x = 0%Z)) as [Hzero|Hnonzero].
  - exists q, r1, x. split_and!; try done.
    intros k' Hk' Hne. rewrite Hkeys in Hk'.
    apply Hin, elem_of_cons in Hk' as [?|?]; done.
  - assert (x ∈ q) as Hxq.
    { destruct (decide (x ∈ q)) as [?|Hnot]; [done|].
      apply occurrences_zero in Hnot. rewrite Hcount1, Hnot in Hnonzero. done. }
    destruct (IH r1) as (q' & r' & k & Hpop & Hkeys' & Hk & Hz & Hc & Hi).
    + by intros ->; apply elem_of_nil in Hxq.
    + done.
    + intros k Hk. rewrite Hkeys in Hk.
      apply Hin, elem_of_cons in Hk as [->|?]; done.
    + exists q', r', k. rewrite Hpop. split_and!; try done; congruence.
Qed.

Lemma lru_purge_ok (maxsize : Z) w st (res : value) :
  (0 ≤ maxsize)%Z →
  lru_inv st →
  (Z.of_nat (length (table (lru_cache.cache st))) ≤ maxsize + 1)%Z →
  cache.dump_raises w (lru_cache.cache st) = None
  ∨ (∃ res0 : value, (lru_cache.purge maxsize w st res).2 = Ok res0) →
  let out := lru_cache.purge maxsize w st res in
  out.2 = Ok res ∧ lru_inv out.1
  ∧ (Z.of_nat (length (table (lru_cache.cache out.1))) ≤ maxsize)%Z.
Proof.
  intros Hmax (Hnd & Hperm & Hcount & Hin) Hlen Hquiet. unfold lru_cache.purge in *.
  destruct (len_exceeds _ maxsize) eqn:Hexc.
  - apply len_exceeds_true in Hexc.
    destruct (cache.is_archived (lru_cache.cache st)) eqn:Harch; simpl.
    + destruct (cache.dump_raises w (lru_cache.cache st)) as [err|] eqn:Hdump.
      { by destruct Hquiet as [?|[r ?]]. }
      simpl. split_and!; [done | | lia].
      split_and!; [apply NoDup_nil_2 | done | done | by intros ? ?%elem_of_nil].
    + clear Hquiet.
      assert (NoDup (dict.keys (lru_cache.refcount st))) as Hndr by (by rewrite <- Hperm).
      destruct (popleft_unreferenced_ok (lru_cache.queue st) (lru_cache.refcount st))
        as (q' & r' & k & -> & Hkeys & Hk & Hz & Hc & Hi); [|done|done|].
      { destruct (table (lru_cache.cache st)) as [|[k0 v0] t] eqn:Ht; [simpl in Hexc; lia|].
        assert (k0 ∈ lru_cache.queue st) as Hk0.
        { apply Hin. rewrite <- Hperm. left. }
        by intros Hq; rewrite Hq in Hk0; apply elem_of_nil in Hk0. }
      assert (k ∈ dict.keys (table (lru_cache.cache st))) as Hkt by (by rewrite Hperm).
      assert (k ∈ dict.keys r') as Hkr by (by rewrite Hkeys).
      rewrite (delitem_Ok _ k Hkt), (delitem_Ok _ k Hkr). simpl.
      pose proof (keys_remove_key _ k Hkt) as Hpt.
      pose proof (keys_remove_key _ k Hkr) as Hpr.
      assert (NoDup (dict.keys r')) as Hndr' by (by rewrite Hkeys).
      split_and!; [done | | rewrite (length_remove_key _ k Hkt) in Hlen; lia].
      unfold lru_inv. fields. split_and!.
      * by apply NoDup_keys_remove_key.
      * apply (Permutation_cons_inv (a := k)). by rewrite <- Hpt, <- Hpr, Hkeys.
      * intros k'. rewrite get_remove_key by done.
        case_decide; subst; [by rewrite <- Hc, Hz | apply Hc].
      * intros k' Hk'. assert (k' ∈ dict.keys r' ∧ k' ≠ k) as [? ?]; [|by apply Hi].
        rewrite Hpr in Hndr'. apply NoDup_cons in Hndr' as [Hnk _].
        split; [rewrite Hpr; by right | by intros ->].
  - apply len_exceeds_false in Hexc. done.
Qed.

(** [queue_append(key); refcount[key] += 1] *)
Lemma lru_record_use q r k :
  (∀ k', Counter.get r k' = Z.of_nat (occurrences k' q)) →
  (∀ k', k' ∈ dict.keys r → k' ∈ q) →
  (∀ k', Counter.get (Counter.add r k 1) k' = Z.of_nat (occurrences k' (q ++ [k])))
  ∧ (∀ k', k' ∈ dict.keys (Counter.add r k 1) → k' ∈ q ++ [k]).
Proof.
  intros Hcount Hin. split; intros k'.
  - rewrite get_add, occurrences_app, occurrences_cons. unfold occurrences at 2.
    simpl. destruct (decide (k' = k)) as [->|Hne]; rewrite Hcount.
    + rewrite decide_True by done. lia.
    + rewrite decide_False by done. lia.
  - unfold Counter.add. rewrite keys_setitem, elem_of_app, list_elem_of_singleton.
    case_decide; [by auto|]. rewrite elem_of_app, list_elem_of_singleton. naive_solver.
Qed.

Lemma lru_insert_inv st (c : cache) k (v : value) (s : stats) :
  lru_inv st →
  k ∉ dict.keys (table (lru_cache.cache st)) →
  table c = dict.__setitem__ (table (lru_cache.cache st)) k v →
  lru_inv (lru_cache.Closure c (lru_cache.queue st ++ [k])
                             (Counter.add (lru_cache.refcount st) k 1) s)
  ∧ length (table c) = S (length (table (lru_cache.cache st))).
Proof.
  intros (Hnd & Hperm & Hcount & Hin) Hk Ht.
  destruct (lru_record_use _ _ k Hcount Hin) as [Hcount' Hin'].
  unfold lru_inv. simpl. rewrite Ht, length_setitem, decide_False by done.
  split; [|done]. split_and!; [by apply NoDup_keys_setitem | | done | done].
  unfold Counter.add.
  rewrite !keys_setitem, !decide_False; [by rewrite Hperm | by rewrite <- Hperm | done].
Qed.

Lemma lru_access_ok (maxsize : Z) w st (a : args) :
  (0 ≤ maxsize)%Z →
  lru_inv st →
  (Z.of_nat (length (table (lru_cache.cache st))) ≤ maxsize)%Z →
  dump_safe (__archive__ (lru_cache.cache st))
  ∨ (∃ res0 : value, (lru_cache.access user_function maxsize w st a).2 = Ok res0) →
  let out := lru_cache.access user_function maxsize w st a in
  lru_inv out.1
  ∧ (Z.of_nat (length (table (lru_cache.cache out.1))) ≤ maxsize)%Z
  ∧ (∀ e, out.2 = Raise e → user_function a = Raise e).
Proof.
  intros Hmax Hinv Hlen Hsafe. unfold lru_cache.access in *.
  pose proof (dump_safe_look (lru_cache.cache st) (keymap a)) as Hlook.
  destruct (dict.__getitem__ (table (lru_cache.cache st)) (keymap a)) as [v|e] eqn:Hget.
  - (* hit *)
    simpl. split_and!; [|done|done].
    destruct Hinv as (Hnd & Hperm & Hcount & Hin).
    destruct (lru_record_use _ _ (keymap a) Hcount Hin) as [Hcount' Hin'].
    split_and!; [done | | done | done]. simpl.
    unfold Counter.add. rewrite keys_setitem, decide_True; [done|].
    rewrite <- Hperm. by eapply getitem_elem_of.
  - apply getitem_Raise in Hget as [-> Hnew].
    pose proof (look_in_archive (lru_cache.cache st) (keymap a)) as (_ & _ & Hload).
    simpl in Hload.
    set (c := if cache.is_archived (lru_cache.cache st)
              then cache.load (lru_cache.cache st) (keymap a)
              else lru_cache.cache st) in *.
    destruct (dict.__getitem__ (table c) (keymap a)) as [v|e] eqn:Hget.
    + (* load *)
      destruct Hload as [Hc | [v' Hv']].
      { rewrite Hc in Hget. apply getitem_elem_of in Hget. done. }
      destruct (lru_insert_inv st c (keymap a) v' (incr_LOAD (lru_cache.stats st)))
        as [Hinv' Hlen']; [done..|].
      destruct (lru_purge_ok maxsize w _ v Hmax Hinv') as (Hres & ? & ?).
      { simpl. lia. }
      { destruct Hsafe as [?|?]; [left; by apply dump_safe_raises, Hlook | by right]. }
      split_and!; [done | done |]. intros e0. rewrite Hres. done.
    + destruct Hload as [Hc | [v' Hv']].
      2:{ rewrite Hv', getitem_setitem in Hget. done. }
      destruct (user_function a) as [v|e'] eqn:Hf.
      * (* miss *)
        destruct (lru_insert_inv st (cache.__setitem__ c (keymap a) v) (keymap a) v
                    (incr_MISS (lru_cache.stats st))) as [Hinv' Hlen'];
          [done | done | by rewrite Hc |].
        destruct (lru_purge_ok maxsize w _ v Hmax Hinv') as (Hres & ? & ?).
        { simpl in *. lia. }
        { destruct Hsafe as [?|?]; [left; by apply dump_safe_raises, Hlook | by right]. }
        split_and!; [done | done |]. intros e0. rewrite Hres. done.
      * simpl. rewrite Hc. split_and!; [done | done | by intros ? [= <-]].
Qed.

Lemma lru_compact_ok (maxsize : Z) st (res : value) :
  lru_inv st →
  let out := lru_cache.compact maxsize st res in
  out.2 = Ok res ∧ lru_inv out.1
  ∧ table (lru_cache.cache out.1) = table (lru_cache.cache st).
Proof.
  intros (Hnd & Hperm & Hcount & Hin).
  destruct (len_exceeds (lru_cache.queue st) (maxsize * 10)) eqn:Hexc.
  - rewrite compact_spec by done. simpl. split_and!; [done | | done].
    pose proof (NoDup_most_recent_occurrences (lru_cache.queue st)) as Hmro.
    unfold lru_inv. simpl. rewrite keys_ones. split_and!.
    + done.
    + rewrite reverse_Permutation. apply NoDup_Permutation; [done | done |].
      intros k. rewrite elem_of_most_recent_occurrences, Hperm. split; [apply Hin|].
      intros Hk. apply get_nonzero_elem_of. rewrite Hcount.
      destruct (decide (occurrences k (lru_cache.queue st) = 0)) as [Hz|Hz]; [|lia].
      by apply occurrences_zero in Hz.
    + intros k. rewrite get_ones, occurrences_NoDup by done.
      destruct (decide (k ∈ most_recent_occurrences (lru_cache.queue st))).
      * by rewrite decide_True by (by rewrite elem_of_reverse).
      * by rewrite decide_False by (by rewrite elem_of_reverse).
    + intros k. by rewrite elem_of_reverse.
  - unfold lru_cache.compact. rewrite Hexc. done.
Qed.

Lemma lru_step (maxsize : Z) w st (a : args) :
  (0 ≤ maxsize)%Z →
  lru_inv st →
  (Z.of_nat (length (table (lru_cache.cache st))) ≤ maxsize)%Z →
  dump_safe (__archive__ (lru_cache.cache st))
  ∨ (∃ res0 : value, (lru_cache.wrapper user_function maxsize w st a).2 = Ok res0) →
  let out := lru_cache.wrapper user_function maxsize w st a in
  lru_inv out.1
  ∧ (Z.of_nat (length (table (lru_cache.cache out.1))) ≤ maxsize)%Z
  ∧ (∀ e, out.2 = Raise e → user_function a = Raise e).
Proof.
  intros Hmax Hinv Hlen Hsafe. unfold lru_cache.wrapper in *.
  assert (dump_safe (__archive__ (lru_cache.cache st))
          ∨ (∃ res0 : value, (lru_cache.access user_function maxsize w st a).2 = Ok res0)) as Hsafe'.
  { destruct Hsafe as [?|[r Hr]]; [by left | right].
    destruct (lru_cache.access user_function maxsize w st a) as [st1 [v|e]]; by eauto. }
  pose proof (lru_access_ok maxsize w st a Hmax Hinv Hlen Hsafe')
    as (Hinv' & Hlen' & Hraise). clear Hsafe Hsafe'.
  destruct (lru_cache.access user_function maxsize w st a) as [st1 [v|e]]; simpl in *.
  - pose proof (lru_compact_ok maxsize st1 v Hinv') as (Hres & ? & Ht).
    split_and!; [done | by rewrite Ht |]. intros e0. rewrite Hres. done.
  - done.
Qed.
End lru_facts.

Section mru_facts.
Context `{Signature} (user_function : args → result value).
Implicit Types (st : mru_cache.closure) (k : key) (q : list key).

Lemma queue_remove_ok q k : k ∈ q → ∃ q', queue_remove q k = Some q' ∧ q ≡ₚ k :: q'.
Proof.
  induction q as [|x q IH]; [by intros ?%elem_of_nil|].
  intros Hk. simpl. destruct (decide (k = x)) as [->|Hne]; [by eauto|].
  apply elem_of_cons in Hk as [?|Hk]; [done|].
  destruct (IH Hk) as (q' & -> & Hperm). exists (x :: q'). split; [done|].
  rewrite Hperm. apply Permutation_swap.
Qed.

Lemma is_archived_with_table (c : cache) t :
  cache.is_archived (cache.with_table c t) = cache.is_archived c.
Proof. done. Qed.

(** The purge of a cache that a new key has just entered. *)
Lemma mru_purge_ok (maxsize : Z) w st (c : cache) k (v res : value) (s : stats) :
  (1 ≤ maxsize)%Z →
  mru_inv st →
  (Z.of_nat (length (table (mru_cache.cache st))) ≤ maxsize)%Z →
  k ∉ dict.keys (table (mru_cache.cache st)) →
  table c = dict.__setitem__ (table (mru_cache.cache st)) k v →
  cache.is_archived c = cache.is_archived (mru_cache.cache st) →
  cache.dump_raises w c = None
  ∨ (∃ res0 : value, (mru_cache.purge maxsize w (mru_cache.Closure c (mru_cache.queue st) s) k res).2
          = Ok res0) →
  let out := mru_cache.purge maxsize w (mru_cache.Closure c (mru_cache.queue st) s) k res in
  out.2 = Ok res ∧ mru_inv out.1
  ∧ (Z.of_nat (length (table (mru_cache.cache out.1))) ≤ maxsize)%Z.
Proof.
  intros Hmax (Hnd & Hin & Hperm) Hlen Hk Ht Harch Hquiet. unfold mru_cache.purge in *.
  fields.
  assert (dict.keys (table c) = dict.keys (table (mru_cache.cache st)) ++ [k]) as Hkeys.
  { by rewrite Ht, keys_setitem, decide_False. }
  assert (NoDup (dict.keys (table c))) as Hndc.
  { rewrite Ht. by apply NoDup_keys_setitem. }
  assert (length (table c) = S (length (table (mru_cache.cache st)))) as Hlenc.
  { by rewrite Ht, length_setitem, decide_False. }
  destruct (len_exceeds (table c) maxsize) eqn:Hexc.
  - apply len_exceeds_true in Hexc.
    destruct (cache.is_archived c) eqn:Hc.
    + destruct (cache.dump_raises w c) as [err|] eqn:Hdump.
      { by destruct Hquiet as [?|[r ?]]. }
      fields. split_and!; [done | | simpl; lia].
      split_and!; fields.
      * apply NoDup_nil_2.
      * by intros ? ?%elem_of_nil.
      * unfold cache.is_archived in *. simpl. rewrite is_null_update. by rewrite Hc.
    + clear Hquiet. symmetry in Harch. specialize (Hperm Harch).
      destruct (queue_pop (mru_cache.queue st)) as [[q victim]|] eqn:Hpop.
      2:{ apply queue_pop_nil_inv in Hpop. rewrite Hpop in Hperm.
          apply Permutation_nil_r in Hperm.
          rewrite <- length_keys, Hperm in Hlen. simpl in Hlen.
          rewrite Hlenc, <- length_keys, Hperm in Hexc. simpl in Hexc. lia. }
      apply queue_pop_inv in Hpop.
      assert (victim ∈ dict.keys (table c)) as Hv.
      { rewrite Hkeys, Hperm, Hpop. set_solver. }
      rewrite (delitem_Ok _ _ Hv). fields.
      pose proof (keys_remove_key _ _ Hv) as Hpv.
      assert (dict.keys (dict.remove_key (table c) victim) ≡ₚ q ++ [k]) as Hnew.
      { apply (Permutation_cons_inv (a := victim)).
        rewrite <- Hpv, Hkeys, Hperm, Hpop.
        rewrite <- !app_assoc. simpl. by rewrite <- Permutation_middle. }
      split_and!; [done | | rewrite (length_remove_key _ _ Hv) in Hlenc; lia].
      split_and!; fields.
      * by apply NoDup_keys_remove_key.
      * intros k'. by rewrite Hnew.
      * done.
  - apply len_exceeds_false in Hexc. fields. split_and!; [done | | done].
    split_and!; fields.
    + done.
    + intros k'. rewrite Hkeys, !elem_of_app. naive_solver.
    + intros Hc. rewrite Hkeys, Hperm; [done | by rewrite <- Harch].
Qed.

Lemma mru_step (maxsize : Z) w st (a : args) :
  (1 ≤ maxsize)%Z →
  mru_inv st →
  (Z.of_nat (length (table (mru_cache.cache st))) ≤ maxsize)%Z →
  dump_safe (__archive__ (mru_cache.cache st))
  ∨ (∃ res0 : value, (mru_cache.wrapper user_function maxsize w st a).2 = Ok res0) →
  let out := mru_cache.wrapper user_function maxsize w st a in
  mru_inv out.1
  ∧ (Z.of_nat (length (table (mru_cache.cache out.1))) ≤ maxsize)%Z
  ∧ (∀ e, out.2 = Raise e → user_function a = Raise e).
Proof.
  intros Hmax Hinv Hlen Hsafe. unfold mru_cache.wrapper in *.
  pose proof (dump_safe_look (mru_cache.cache st) (keymap a)) as Hlook.
  destruct (dict.__getitem__ (table (mru_cache.cache st)) (keymap a)) as [v|e] eqn:Hget.
  - (* hit *)
    destruct Hinv as (Hnd & Hin & Hperm).
    apply getitem_elem_of in Hget.
    destruct (queue_remove_ok (mru_cache.queue st) (keymap a) (Hin _ Hget))
      as (q' & -> & Hq). fields.
    assert (q' ++ [keymap a] ≡ₚ mru_cache.queue st) as Hq'.
    { by rewrite Hq, <- Permutation_cons_append. }
    split_and!; [|done|done]. split_and!; fields.
    + done.
    + intros k. rewrite Hq'. apply Hin.
    + intros Harch. rewrite Hq'. by apply Hperm.
  - apply getitem_Raise in Hget as [-> Hnew].
    pose proof (look_in_archive (mru_cache.cache st) (keymap a)) as (Ha & _ & Hload).
    simpl in Hload, Ha.
    set (c := if cache.is_archived (mru_cache.cache st)
              then cache.load (mru_cache.cache st) (keymap a)
              else mru_cache.cache st) in *.
    assert (cache.is_archived c = cache.is_archived (mru_cache.cache st)) as Harch.
    { unfold cache.is_archived. by rewrite Ha. }
    destruct (dict.__getitem__ (table c) (keymap a)) as [v|e] eqn:Hget.
    + (* load *)
      destruct Hload as [Hc | [v' Hv']].
      { rewrite Hc in Hget. apply getitem_elem_of in Hget. done. }
      destruct (mru_purge_ok maxsize w st c (keymap a) v' v (incr_LOAD (mru_cache.stats st)))
        as (Hres & ? & ?); [done | done | done | done | done | done | |].
      { destruct Hsafe as [?|?]; [left; by apply dump_safe_raises, Hlook | by right]. }
      split_and!; [done | done |]. intros e0. rewrite Hres. done.
    + destruct Hload as [Hc | [v' Hv']].
      2:{ rewrite Hv', getitem_setitem in Hget. done. }
      destruct (user_function a) as [v|e'] eqn:Hf.
      * (* miss *)
        destruct (mru_purge_ok maxsize w st (cache.__setitem__ c (keymap a) v) (keymap a)
                    v v (incr_MISS (mru_cache.stats st)))
          as (Hres & ? & ?); [done | done | done | done | by rewrite Hc | done | |].
        { destruct Hsafe as [?|?]; [left; by apply dump_safe_raises, Hlook | by right]. }
        split_and!; [done | done |]. intros e0. rewrite Hres. done.
      * simpl. rewrite Hc. split_and!; [by destruct st | done | by intros ? [= <-]].
Qed.
End mru_facts.

Section rr_facts.
Context `{Signature} (user_function : args → result value).
Implicit Types (st : rr_cache.closure) (k : key).

Lemma choice_ok w (seq : list key) :
  seq ≠ [] → ∃ k, rr_cache.choice w seq = Ok k ∧ k ∈ seq.
Proof.
  intros Hseq. unfold rr_cache.choice.
  assert (random_index w `mod` length seq < length seq) as Hlt.
  { apply Nat.mod_upper_bound. by destruct seq. }
  apply lookup_lt_is_Some in Hlt as [k Hk]. rewrite Hk.
  exists k. split; [done|]. by eapply list_elem_of_lookup_2.
Qed.

Lemma rr_purge_ok (maxsize : Z) w st (res : value) :
  (0 ≤ maxsize)%Z →
  rr_inv st →
  (Z.of_nat (length (table (rr_cache.cache st))) ≤ maxsize + 1)%Z →
  cache.dump_raises w (rr_cache.cache st) = None
  ∨ (∃ res0 : value, (rr_cache.purge maxsize w st res).2 = Ok res0) →
  let out := rr_cache.purge maxsize w st res in
  out.2 = Ok res ∧ rr_inv out.1
  ∧ (Z.of_nat (length (table (rr_cache.cache out.1))) ≤ maxsize)%Z.
Proof.
  intros Hmax Hnd Hlen Hquiet. unfold rr_cache.purge, rr_inv in *.
  destruct (len_exceeds _ maxsize) eqn:Hexc.
  - apply len_exceeds_true in Hexc.
    destruct (cache.is_archived (rr_cache.cache st)) eqn:Harch; fields.
    + destruct (cache.dump_raises w (rr_cache.cache st)) as [err|] eqn:Hdump.
      { by destruct Hquiet as [?|[r ?]]. }
      split_and!; [done | apply NoDup_nil_2 | simpl; lia].
    + destruct (choice_ok w (dict.keys (table (rr_cache.cache st)))) as (k & -> & Hk).
      { destruct (table (rr_cache.cache st)); [simpl in Hexc; lia | done]. }
      rewrite (delitem_Ok _ _ Hk). fields.
      split_and!; [done | by apply NoDup_keys_remove_key |].
      rewrite (length_remove_key _ _ Hk) in Hlen. lia.
  - apply len_exceeds_false in Hexc. done.
Qed.

Lemma rr_step (maxsize : Z) w st (a : args) :
  (0 ≤ maxsize)%Z →
  rr_inv st →
  (Z.of_nat (length (table (rr_cache.cache st))) ≤ maxsize)%Z →
  dump_safe (__archive__ (rr_cache.cache st))
  ∨ (∃ res0 : value, (rr_cache.wrapper user_function maxsize w st a).2 = Ok res0) →
  let out := rr_cache.wrapper user_function maxsize w st a in
  rr_inv out.1
  ∧ (Z.of_nat (length (table (rr_cache.cache out.1))) ≤ maxsize)%Z
  ∧ (∀ e, out.2 = Raise e → user_function a = Raise e).
Proof.
  intros Hmax Hinv Hlen Hsafe. unfold rr_cache.wrapper in *.
  pose proof (dump_safe_look (rr_cache.cache st) (keymap a)) as Hlook.
  destruct (dict.__getitem__ (table (rr_cache.cache st)) (keymap a)) as [v|e] eqn:Hget.
  - done.
  - apply getitem_Raise in Hget as [-> Hnew].
    pose proof (look_in_archive (rr_cache.cache st) (keymap a)) as (_ & _ & Hload).
    simpl in Hload.
    set (c := if cache.is_archived (rr_cache.cache st)
              then cache.load (rr_cache.cache st) (keymap a)
              else rr_cache.cache st) in *.
    assert (∀ c' v', table c' = dict.__setitem__ (table (rr_cache.cache st)) (keymap a) v' →
                     NoDup (dict.keys (table c'))
                     ∧ length (table c') = S (length (table (rr_cache.cache st)))) as Hins.
    { intros c' v' ->. split; [by apply NoDup_keys_setitem|].
      by rewrite length_setitem, decide_False. }
    destruct (dict.__getitem__ (table c) (keymap a)) as [v|e] eqn:Hget.
    + (* load *)
      destruct Hload as [Hc | [v' Hv']].
      { rewrite Hc in Hget. apply getitem_elem_of in Hget. done. }
      destruct (Hins c v' Hv') as [Hnd' Hlen'].
      destruct (rr_purge_ok maxsize w (rr_cache.Closure c (incr_LOAD (rr_cache.stats st))) v)
        as (Hres & ? & ?); [done | done | fields; lia | |].
      { destruct Hsafe as [?|?]; [left; by apply dump_safe_raises, Hlook | by right]. }
      split_and!; [done | done |]. intros e0. rewrite Hres. done.
    + destruct Hload as [Hc | [v' Hv']].
      2:{ rewrite Hv', getitem_setitem in Hget. done. }
      destruct (user_function a) as [v|e'] eqn:Hf.
      * (* miss *)
        destruct (Hins (cache.__setitem__ c (keymap a) v) v) as [Hnd' Hlen'];
          [by rewrite Hc|].
        destruct (rr_purge_ok maxsize w
                    (rr_cache.Closure (cache.__setitem__ c (keymap a) v)
                                      (incr_MISS (rr_cache.stats st))) v)
          as (Hres & ? & ?); [done | done | fields; lia | |].
        { destruct Hsafe as [?|?]; [left; by apply dump_safe_raises, Hlook | by right]. }
        split_and!; [done | done |]. intros e0. rewrite Hres. done.
      * simpl. rewrite Hc. split_and!; [done | done | by intros ? [= <-]].
Qed.
End rr_facts.

Section engine_facts.
Context `{Signature} (user_function : args → result value).
Implicit Types (e : engine).

Lemma engine_inv_fresh (p : policy) (a : archive) :
  engine_inv (engine.fresh p a) ∧ engine.size (engine.fresh p a) = 0.
Proof.
  destruct p; simpl; (split; [|done]).
  - split; [apply NoDup_nil_2 | done].
  - split_and!; [apply NoDup_nil_2 | done | done | by intros ? ?%elem_of_nil].
  - split_and!; [apply NoDup_nil_2 | by intros ? ?%elem_of_nil | done].
  - apply NoDup_nil_2.
Qed.

Lemma engine_step (maxsize : Z) w e (a : args) :
  (1 ≤ maxsize)%Z →
  engine_inv e →
  (Z.of_nat (engine.size e) ≤ maxsize)%Z →
  dump_safe (__archive__ (engine.the_cache e)) →
  let out := engine.call user_function maxsize w e a in
  engine_inv out.1
  ∧ (Z.of_nat (engine.size out.1) ≤ maxsize)%Z
  ∧ (∀ err, out.2 = Raise err → user_function a = Raise err).
Proof.
  intros Hmax Hinv Hlen Hsafe.
  destruct e as [st|st|st|st]; unfold engine.size in *; simpl in *.
  - pose proof (lfu_step user_function maxsize w st a) as Hstep.
    destruct (lfu_cache.wrapper user_function maxsize w st a) as [st' r].
    apply Hstep; [lia | done | done | by left].
  - pose proof (lru_step user_function maxsize w st a) as Hstep.
    destruct (lru_cache.wrapper user_function maxsize w st a) as [st' r].
    apply Hstep; [lia | done | done | by left].
  - pose proof (mru_step user_function maxsize w st a) as Hstep.
    destruct (mru_cache.wrapper user_function maxsize w st a) as [st' r].
    apply Hstep; [lia | done | done | by left].
  - pose proof (rr_step user_function maxsize w st a) as Hstep.
    destruct (rr_cache.wrapper user_function maxsize w st a) as [st' r].
    apply Hstep; [lia | done | done | by left].
Qed.

Lemma dump_safe_update envs (a : archive) (t : list (key * value)) :
  dump_safe a → dump_safe (archive_ops.update envs a t).
Proof. by destruct a. Qed.

Lemma archive_look (c : cache) (k : key) :
  __archive__ (if cache.is_archived c then cache.load c k else c) = __archive__ c.
Proof. by destruct (look_in_archive c k) as (? & _). Qed.

(** A call leaves the archive what it is: a null archive, a dictionary
    or a directory of the same settings. *)
Lemma engine_call_safe (maxsize : Z) w e (a : args) :
  dump_safe (__archive__ (engine.the_cache e)) →
  dump_safe (__archive__ (engine.the_cache (engine.call user_function maxsize w e a).1)).
Proof.
  intros Hsafe.
  assert (∀ st res, lru_cache.cache (lru_cache.compact maxsize st res).1
                    = lru_cache.cache st) as Hcompact.
  { intros st res. unfold lru_cache.compact. by repeat case_match. }
  destruct e as [st|st|st|st]; simpl in *.
  - unfold lfu_cache.wrapper, lfu_cache.purge.
    repeat case_match; fields; rewrite ?archive_look; auto using dump_safe_update, dump_safe_load.
  - unfold lru_cache.wrapper.
    destruct (lru_cache.access user_function maxsize w st a) as [st1 [v|err]] eqn:Hacc;
      simpl; rewrite ?Hcompact;
      change st1 with (st1, @Ok value v).1 || change st1 with (st1, @Raise value err).1;
      rewrite <- Hacc; unfold lru_cache.access, lru_cache.purge;
      repeat case_match; fields; rewrite ?archive_look; auto using dump_safe_update, dump_safe_load.
  - unfold mru_cache.wrapper, mru_cache.purge.
    repeat case_match; fields; rewrite ?archive_look; auto using dump_safe_update, dump_safe_load.
  - unfold rr_cache.wrapper, rr_cache.purge.
    repeat case_match; fields; rewrite ?archive_look; auto using dump_safe_update, dump_safe_load.
Qed.

End engine_facts.




(** * Further properties *)

(** ** Storing in a directory archive *)

Section dir_archive_store.
Context `{Signature}.
Implicit Types (root : gmap string subdir) (k : key) (v : value) (e : store_env).

(** A store touches the temporary subdirectory and the subdirectory of
    the key, and nothing else, whatever fails. *)
Lemma store_frame e root k v (name : string) :
  name ≠ dir_archive._getdir_str (TEMP +:+ tmp e) →
  name ≠ dir_archive._getdir k →
  dir_archive._store e root k v !! name = root !! name.
Proof.
  intros Htmp Htarget.
  unfold dir_archive._store, dir_archive.renames, dir_archive._rmdir,
    dir_archive.populate, dir_archive._mkdir_str.
  set (tdir := dir_archive._getdir_str (TEMP +:+ tmp e)) in *.
  set (target := dir_archive._getdir k) in *.
  repeat (case_match; simplify_map_eq; try done).
Qed.

(** Without a fault, the subdirectory of the key ends up holding the
    value, and the temporary subdirectory is gone. *)
Lemma store_target e root k v :
  mkdir_fails e = false → output_io e = io_ok →
  rmtree_fails e = false → rename_fails e = false →
  dir_archive._getdir_str (TEMP +:+ tmp e) ≠ dir_archive._getdir k →
  ∃ d, dir_archive._store e root k v !! dir_archive._getdir k = Some d
       ∧ output d = Some (File true (Some v))
       ∧ dir_archive._store e root k v !! dir_archive._getdir_str (TEMP +:+ tmp e) = None
       ∧ (root !! dir_archive._getdir_str (TEMP +:+ tmp e) = None →
          input d = if dir_archive.needs_input k
                    then (dir_archive.write_pickle (input_io e) None k).1
                    else None).
Proof.
  intros Hmk Hout Hrm Hren Hne.
  unfold dir_archive._store, dir_archive.renames, dir_archive._rmdir,
    dir_archive.populate, dir_archive._mkdir_str.
  rewrite Hmk, Hout, Hrm, Hren.
  set (tdir := dir_archive._getdir_str (TEMP +:+ tmp e)) in *.
  set (target := dir_archive._getdir k) in *.
  rewrite bool_decide_false by done.
  destruct (root !! tdir) as [d0|] eqn:Hd0.
  - rewrite Hd0. simpl.
    destruct (dir_archive.needs_input k);
      [destruct (dir_archive.write_pickle (input_io e) (input d0) k) as [inp ?]|];
      simplify_map_eq; eexists; split_and!; try done.
  - rewrite lookup_insert_eq. simpl.
    destruct (dir_archive.needs_input k);
      [destruct (dir_archive.write_pickle (input_io e) None k) as [inp ?] eqn:Hw|];
      simplify_map_eq; eexists; split_and!; try done.
Qed.

(** The same of a store with its outcome: an error that leaves it
    touches the temporary subdirectory only. *)
Lemma store_result_frame (s : settings) e root k v (name : string) :
  name ≠ dir_archive._getdir_str (TEMP +:+ tmp e) →
  name ≠ dir_archive._getdir k →
  (dir_archive._store_result s e root k v).1 !! name = root !! name.
Proof.
  intros Htmp Htarget. unfold dir_archive._store_result.
  destruct (dir_archive._store_escape s e root k v) as [[r err]|] eqn:Hesc; simpl;
    [|by apply store_frame].
  unfold dir_archive._store_escape, dir_archive._mkdir_str in Hesc.
  set (tdir := dir_archive._getdir_str (TEMP +:+ tmp e)) in *.
  repeat (case_match; simplify_map_eq; try done).
Qed.

Lemma store_result_Ok (s : settings) e root k v :
  value_dump_error s v = None →
  (dir_archive.needs_input k = true → key_dump_error s k = None) →
  dir_archive._store_result s e root k v = (dir_archive._store e root k v, Ok ()).
Proof.
  intros Hv Hk. unfold dir_archive._store_result. by rewrite store_escape_None.
Qed.
End dir_archive_store.

Section dir_archive_more.
Context `{Signature}.
Implicit Types (root : gmap string subdir) (k : key) (v : value) (e : store_env)
  (s : settings).

Lemma contains_lookup root k :
  dir_archive.__contains__ root k = true ↔ is_Some (root !! dir_archive._getdir k).
Proof. unfold dir_archive.__contains__. apply bool_decide_eq_true. Qed.


(** A lookup reads the subdirectory of the key and nothing else. *)
Lemma _lookup_local s root root' k :
  root' !! dir_archive._getdir k = root !! dir_archive._getdir k →
  dir_archive._lookup s root' k = dir_archive._lookup s root k.
Proof. intros Heq. unfold dir_archive._lookup. by rewrite Heq. Qed.


End dir_archive_more.

(** X1.  In a directory archive that pickles its entries, [d[k] = v]
    for a key of a flat name, when [v] and [k] serialise and the store
    meets no fault (the temporary directory can be made, the value file
    written, the old subdirectory removed and the new one renamed), and
    the subdirectory of the key is not the temporary one, raises nothing
    and is read back: [d[k]] and [d.get(k)] are [v] and [k in d] holds,
    whatever [d] held before. *)
Theorem dir_archive_store_then_lookup `{Signature} (s : settings) (e : store_env)
    (root : gmap string subdir) (k : key) (v default : value) :
  serialized s = true →
  flat_name (dir_archive._fname k) = true →
  value_dump_error s v = None →
  (dir_archive.needs_input k = true → key_dump_error s k = None) →
  mkdir_fails e = false → output_io e = io_ok →
  rmtree_fails e = false → rename_fails e = false →
  dir_archive._getdir_str (TEMP +:+ tmp e) ≠ dir_archive._getdir k →
  let out := dir_archive._store_result s e root k v in
  out.2 = Ok ()
  ∧ dir_archive.__getitem__ s out.1 k = Ok v
  ∧ dir_archive.get s out.1 k default = v
  ∧ dir_archive.__contains__ out.1 k = true.
Proof.
  intros _ _ Hv Hk Hmk Hout Hrm Hren Hne out. subst out.
  rewrite store_result_Ok by done. simpl.
  destruct (store_target e root k v Hmk Hout Hrm Hren Hne) as (d & Hd & Hod & _).
  assert (dir_archive.__getitem__ s (dir_archive._store e root k v) k = Ok v) as Hget.
  { apply _lookup_Ok. exists d, (File true (Some v)). done. }
  split_and!; [done | done | |].
  - unfold dir_archive.get. by rewrite Hget.
  - apply contains_lookup. by rewrite Hd.
Qed.

Lemma dir_archive_store_then_lookup_witness :
  let root : gmap string subdir :=
    {[ "K_k"%string := Subdir (Some (File true (Some 1%Z))) None ]} in
  let e := StoreEnv "0123" false io_ok io_ok false false in
  dir_archive.__getitem__ pickled (dir_archive._store_result pickled e root "k"%string 2%Z).1
    "k"%string = Ok 2%Z.
Proof.
  intros root e.
  apply (@dir_archive_store_then_lookup string_signature pickled e root "k"%string
           2%Z 0%Z);
    [reflexivity | reflexivity | reflexivity | reflexivity | reflexivity | reflexivity
    | reflexivity | reflexivity |].
  vm_compute. intros [=].
Defined.

(** X2.  A store under one key, whatever fails or is raised while it is
    made, leaves every other key as it was, both keys having flat names,
    provided the subdirectory of that key is neither the subdirectory
    written nor the temporary one: its lookup and its membership are
    unchanged. *)
Theorem dir_archive_store_other_keys `{Signature} (s : settings) (e : store_env)
    (root : gmap string subdir) (k k0 : key) (v : value) :
  flat_name (dir_archive._fname k) = true →
  flat_name (dir_archive._fname k0) = true →
  dir_archive._getdir k0 ≠ dir_archive._getdir k →
  dir_archive._getdir k0 ≠ dir_archive._getdir_str (TEMP +:+ tmp e) →
  let root' := (dir_archive._store_result s e root k v).1 in
  dir_archive.__getitem__ s root' k0 = dir_archive.__getitem__ s root k0
  ∧ dir_archive.__contains__ root' k0 = dir_archive.__contains__ root k0.
Proof.
  intros _ _ Hk Htmp root'.
  assert (root' !! dir_archive._getdir k0 = root !! dir_archive._getdir k0) as Heq
    by (by apply store_result_frame).
  split; [by apply _lookup_local|].
  unfold dir_archive.__contains__. by rewrite Heq.
Qed.

Lemma dir_archive_store_other_keys_witness :
  let root : gmap string subdir :=
    {[ "K_a"%string := Subdir (Some (File true (Some 1%Z))) None ]} in
  let e := StoreEnv "0123" false io_fail_write io_ok false true in
  dir_archive.__getitem__ pickled
    (dir_archive._store_result pickled e root "b"%string 2%Z).1 "a"%string = Ok 1%Z.
Proof.
  intros root e.
  destruct (@dir_archive_store_other_keys string_signature pickled e root
              "b"%string "a"%string 2%Z) as [Hget _].
  - reflexivity.
  - reflexivity.
  - vm_compute. intros [=].
  - vm_compute. intros [=].
  - rewrite Hget. vm_compute. reflexivity.
Defined.



(** X4.  [d.pop(k, default)] and [d.pop(k)] on a directory archive: when
    the value of [k] can be read, both return it and the subdirectory is
    removed if the removal works; when it cannot (no subdirectory, no
    file, a file that does not load), the first returns the default, the
    second raises [KeyError], and the directory is left as it is. *)
Theorem dir_archive_pop `{Signature} (s : settings) (e : store_env)
    (root : gmap string subdir) (k : key) (default : value) :
  let with_default := dir_archive.pop s e root k [default] in
  let without := dir_archive.pop s e root k [] in
  match dir_archive.__getitem__ s root k with
  | Ok v =>
      with_default.2 = Ok v ∧ without.2 = Ok v
      ∧ with_default.1 = without.1
      ∧ (rmtree_fails e = false → dir_archive.__contains__ without.1 k = false)
  | Raise _ =>
      with_default = (root, Ok default) ∧ without = (root, Raise KeyError)
  end.
Proof.
  unfold dir_archive.pop. destruct (dir_archive.__getitem__ s root k) as [v|err]; simpl.
  - rewrite decide_True by done. split_and!; try done.
    intros Hrm. unfold dir_archive._rmdir, dir_archive.__contains__. rewrite Hrm.
    apply bool_decide_eq_false. rewrite lookup_delete_eq. by intros [? ?].
  - done.
Qed.

Lemma dir_archive_pop_witness :
  let root : gmap string subdir :=
    {[ "K_k"%string := Subdir (Some (File true (Some 1%Z))) None ]} in
  let e := StoreEnv "0123" false io_ok io_ok false false in
  dir_archive.__contains__ (dir_archive.pop pickled e root "k"%string []).1 "k"%string
  = false.
Proof.
  intros root e.
  pose proof (@dir_archive_pop string_signature pickled e root "k"%string 0%Z) as Hpop.
  change (dir_archive.__getitem__ pickled root "k"%string) with (@Ok Z 1%Z) in Hpop.
  destruct Hpop as (_ & _ & _ & Hgone). apply Hgone. reflexivity.
Defined.





(** X7.  In a directory archive that pickles its entries, after a store
    of objects that serialise, under a key of a flat name, made without a
    fault in a temporary directory of a new name, [_getkey] gives the key
    back from the name of its subdirectory: read from the input file when
    the key is not its own file name, and otherwise as the name without
    its prefix, which is the string the key is. *)
Theorem dir_archive_getkey_after_store `{Signature} (s : settings) (e : store_env)
    (root : gmap string subdir) (k : key) (v : value) :
  serialized s = true →
  flat_name (dir_archive._fname k) = true →
  value_dump_error s v = None →
  (dir_archive.needs_input k = true → key_dump_error s k = None) →
  mkdir_fails e = false → output_io e = io_ok → input_io e = io_ok →
  rmtree_fails e = false → rename_fails e = false →
  dir_archive._getdir_str (TEMP +:+ tmp e) ≠ dir_archive._getdir k →
  root !! dir_archive._getdir_str (TEMP +:+ tmp e) = None →
  let out := dir_archive._store_result s e root k v in
  out.2 = Ok ()
  ∧ if dir_archive.needs_input k
    then dir_archive._getkey s out.1 (dir_archive._getdir k) = Ok (inl k)
    else dir_archive._getkey s out.1 (dir_archive._getdir k)
         = Ok (inr (dir_archive._fname k))
         ∧ as_str k = Some (dir_archive._fname k).
Proof.
  intros Hser _ Hv Hk Hmk Hout Hin Hrm Hren Hne Hfresh out. subst out.
  rewrite store_result_Ok by done. simpl. split; [done|].
  destruct (store_target e root k v Hmk Hout Hrm Hren Hne) as (d & Hd & _ & _ & Hinput).
  specialize (Hinput Hfresh). rewrite Hin in Hinput.
  unfold dir_archive._getkey, dir_archive._hasinput.
  rewrite Hd, Hinput.
  assert (dir_archive.string_drop 2 (dir_archive._getdir k) = dir_archive._fname k) as ->
    by done.
  destruct (dir_archive.needs_input k) eqn:Hneeds; simpl.
  - unfold dir_archive._lookup_input.
    change (dir_archive._getdir_str (dir_archive._fname k)) with (dir_archive._getdir k).
    rewrite Hd. simpl. rewrite Hinput, Hser.
    by destruct (fast s).
  - split; [done|].
    unfold dir_archive.needs_input in Hneeds.
    apply negb_false_iff, bool_decide_eq_true in Hneeds. done.
Qed.

(** A string key, which is its own name, and an integer key, which is
    read back from its input file. *)
Lemma dir_archive_getkey_after_store_witness :
  let e := StoreEnv "0123" false io_ok io_ok false false in
  dir_archive._getkey (H := string_signature) pickled
    (dir_archive._store_result pickled e ∅ "k"%string 1%Z).1 "K_k"%string
  = Ok (inr "k"%string)
  ∧ dir_archive._getkey (H := int_signature) pickled
      (dir_archive._store_result (H := int_signature) pickled e ∅ 7%Z 1%Z).1 "K_7"%string
    = Ok (inl 7%Z).
Proof.
  intros e. split.
  - pose proof (@dir_archive_getkey_after_store string_signature pickled e ∅ "k"%string
                  1%Z eq_refl eq_refl eq_refl (λ _, eq_refl) eq_refl eq_refl eq_refl
                  eq_refl eq_refl) as Hkey.
    apply Hkey; [vm_compute; intros [=] | reflexivity].
  - pose proof (@dir_archive_getkey_after_store int_signature pickled e ∅ 7%Z
                  1%Z eq_refl eq_refl eq_refl (λ _, eq_refl) eq_refl eq_refl eq_refl
                  eq_refl eq_refl) as Hkey.
    apply Hkey; [vm_compute; intros [=] | reflexivity].
Defined.

(** ** Dumping and loading *)

Section update_facts.
Context {K V : Type} `{EqDecision K}.
Implicit Types (d other : list (K * V)) (k : K).

(** [d.update(other)]: the entries of [other] win. *)
Lemma lookup_update other :
  ∀ d k,
    NoDup (dict.keys other) →
    dict.lookup_key (dict.update d other) k
    = match dict.lookup_key other k with
      | Some v => Some v
      | None => dict.lookup_key d k
      end.
Proof.
  unfold dict.update, dict.keys.
  induction other as [|[k0 v0] other IH]; intros d k Hnd; csimpl in *; [done|].
  apply NoDup_cons in Hnd as [Hk0 Hnd]. rewrite IH by done.
  destruct (decide (k = k0)) as [->|Hne].
  - apply lookup_key_None in Hk0. rewrite Hk0, lookup_setitem. by rewrite decide_True.
  - rewrite lookup_setitem. by rewrite decide_False.
Qed.

Lemma setitem_append d k (v : V) :
  k ∉ dict.keys d → dict.__setitem__ d k v = d ++ [(k, v)].
Proof.
  unfold dict.keys. induction d as [|[k' v'] d IH]; csimpl; [done|].
  rewrite not_elem_of_cons. intros [Hne Hin].
  rewrite decide_False by done. by rewrite IH.
Qed.

Lemma update_fresh other :
  ∀ d, NoDup (dict.keys (d ++ other)) → dict.update d other = d ++ other.
Proof.
  unfold dict.update.
  induction other as [|[k0 v0] other IH]; intros d Hnd; simpl.
  - by rewrite app_nil_r.
  - replace (d ++ (k0, v0) :: other) with ((d ++ [(k0, v0)]) ++ other) in *
      by (by rewrite <- app_assoc).
    rewrite setitem_append.
    + by apply IH.
    + unfold dict.keys in *. rewrite !fmap_app in Hnd.
      apply NoDup_app in Hnd as [Hnd _]. apply NoDup_app in Hnd as (_ & Hd & _).
      intros Hin. apply (Hd _ Hin). simpl. left.
Qed.
End update_facts.

Section dump_facts.
Context `{Signature}.
Implicit Types (root : gmap string subdir) (k : key) (v : value).

Lemma lookup_key_elem_of (d : list (key * value)) k v :
  dict.lookup_key d k = Some v → (k, v) ∈ d.
Proof.
  induction d as [|[k0 v0] d IH]; simpl; [done|].
  case_decide; subst; [intros [= ->]; left | intros ?; right; by apply IH].
Qed.

(** The stores of an update touch the temporary subdirectories and the
    subdirectories of the keys stored, and nothing else. *)
Lemma update_from_frame (s : settings) envs (items : list (key * value)) (name : string) :
  ∀ n root,
    (∀ m, name ≠ dir_archive._getdir_str (TEMP +:+ tmp (envs m))) →
    (∀ k, k ∈ items.*1 → name ≠ dir_archive._getdir k) →
    (dir_archive.update_from s envs n root items).1 !! name = root !! name.
Proof.
  induction items as [|[k0 v0] items IH]; intros n root Htmp Hkeys; csimpl; [done|].
  pose proof (store_result_frame s (envs n) root k0 v0 name (Htmp n)) as Hframe.
  destruct (dir_archive._store_result s (envs n) root k0 v0) as [r [[]|err]]; simpl in *.
  - rewrite IH; [|done|].
    + apply Hframe, Hkeys. left.
    + intros k Hk. apply Hkeys. by right.
  - apply Hframe, Hkeys. left.
Qed.

Lemma update_from_lookup (s : settings) envs (items : list (key * value)) :
  ∀ n root,
    (∀ k v, (k, v) ∈ items → value_dump_error s v = None ∧ key_dump_error s k = None) →
    (∀ m, mkdir_fails (envs m) = false ∧ output_io (envs m) = io_ok
          ∧ rmtree_fails (envs m) = false ∧ rename_fails (envs m) = false) →
    (∀ m k, k ∈ items.*1 →
            dir_archive._getdir_str (TEMP +:+ tmp (envs m)) ≠ dir_archive._getdir k) →
    NoDup (dir_archive._getdir <$> items.*1) →
    (dir_archive.update_from s envs n root items).2 = Ok ()
    ∧ ∀ k v, (k, v) ∈ items →
             dir_archive._lookup s (dir_archive.update_from s envs n root items).1 k = Ok v.
Proof.
  induction items as [|[k0 v0] items IH]; intros n root Hser Hok Htmp Hnd.
  { split; [done|]. by intros k v ?%elem_of_nil. }
  csimpl in *. apply NoDup_cons in Hnd as [Hk0 Hnd].
  destruct (Hser k0 v0) as [Hv0 Hkey0]; [left|].
  rewrite store_result_Ok by done.
  destruct (IH (S n) (dir_archive._store (envs n) root k0 v0)) as [Hres Hitems];
    [| done | | done |].
  { intros k v Hin. apply Hser. by right. }
  { intros m k' Hk'. apply Htmp. by right. }
  split; [done|]. intros k v [[= -> ->] | Hin]%elem_of_cons; [|by apply Hitems].
  destruct (Hok n) as (Hmk & Hout & Hrm & Hren).
  assert (dir_archive._getdir_str (TEMP +:+ tmp (envs n)) ≠ dir_archive._getdir k0)
    as Hne by (apply Htmp; left).
  destruct (store_target (envs n) root k0 v0 Hmk Hout Hrm Hren Hne)
    as (d & Hd & Hod & _).
  apply _lookup_Ok. exists d, (File true (Some v0)). split_and!; try done.
  rewrite update_from_frame; [done | |].
  - intros m Heq. apply (Htmp m k0); [left | done].
  - intros k Hk Heq. apply Hk0. rewrite Heq. apply list_elem_of_fmap. eauto.
Qed.
End dump_facts.

(** X9.  [cache.dump()] on a cache whose archive is a [dict_archive]:
    every entry of the cache is then in the archive with its value, the
    other keys of the archive are as before and the cache itself is
    unchanged; after [clear()], [load(k)] brings the entry of [k] back
    from the archive. *)
Theorem cache_dump_load_dict_archive `{Signature} (w : world) (c : cache)
    (d : list (key * value)) (k : key) :
  __archive__ c = dict_archive d →
  NoDup (dict.keys (table c)) →
  let dumped := cache.dump w c in
  table dumped = table c
  ∧ (∀ v, dict.__getitem__ (table c) k = Ok v →
          archive_ops.__getitem__ (__archive__ dumped) k = Ok v
          ∧ table (cache.load (cache.clear dumped) k) = [(k, v)])
  ∧ (k ∉ dict.keys (table c) →
     archive_ops.__getitem__ (__archive__ dumped) k
     = archive_ops.__getitem__ (__archive__ c) k).
Proof.
  intros Harch Hnd dumped. unfold dumped, cache.dump, cache.load, cache.clear.
  cbn [table __archive__ __swap__]. rewrite Harch. cbn [archive_ops.update archive_ops.__getitem__].
  split_and!; [done | |].
  - intros v Hv. apply getitem_Ok in Hv.
    assert (dict.__getitem__ (dict.update d (table c)) k = Ok v) as Hget.
    { apply getitem_Ok. rewrite lookup_update by done. by rewrite Hv. }
    split; [done|]. by rewrite Hget.
  - intros Hk. apply lookup_key_None in Hk. unfold dict.__getitem__.
    rewrite lookup_update by done. by rewrite Hk.
Qed.

Lemma cache_dump_load_dict_archive_witness :
  let c := Cache [("a"%string, 1%Z); ("b"%string, 2%Z)] (dict_archive [("b"%string, 0%Z)])
                 null_archive in
  archive_ops.__getitem__ (__archive__ (cache.dump calm c)) "b"%string = Ok 2%Z
  ∧ table (cache.load (cache.clear (cache.dump calm c)) "b"%string) = [("b"%string, 2%Z)].
Proof.
  intros c.
  destruct (@cache_dump_load_dict_archive string_signature calm c [("b"%string, 0%Z)]
              "b"%string) as (_ & Hb & _).
  - reflexivity.
  - vm_compute. repeat constructor; set_solver.
  - apply Hb. reflexivity.
Defined.

(** X10.  [cache.dump()] on a cache whose archive is a [dir_archive]
    that pickles its entries, when the keys of the cache have flat names
    and subdirectories of their own, keys and values serialise, no store
    fails and no temporary directory takes the name of the subdirectory
    of a key: the dump raises nothing, every entry of the cache is then
    found in the archive with its value, and after [clear()], [load(k)]
    brings it back. *)
Theorem cache_dump_load_dir_archive `{Signature} (w : world) (c : cache)
    (s : settings) (root : gmap string subdir) (k : key) (v : value) :
  __archive__ c = dir_archive s root →
  serialized s = true →
  (∀ k' v', (k', v') ∈ table c →
            flat_name (dir_archive._fname k') = true
            ∧ value_dump_error s v' = None ∧ key_dump_error s k' = None) →
  (∀ m, mkdir_fails (store_envs w m) = false ∧ output_io (store_envs w m) = io_ok
        ∧ rmtree_fails (store_envs w m) = false
        ∧ rename_fails (store_envs w m) = false) →
  (∀ m k', k' ∈ dict.keys (table c) →
           dir_archive._getdir_str (TEMP +:+ tmp (store_envs w m))
           ≠ dir_archive._getdir k') →
  NoDup (dir_archive._getdir <$> dict.keys (table c)) →
  dict.__getitem__ (table c) k = Ok v →
  let dumped := cache.dump w c in
  cache.dump_raises w c = None
  ∧ archive_ops.__getitem__ (__archive__ dumped) k = Ok v
  ∧ table (cache.load (cache.clear dumped) k) = [(k, v)].
Proof.
  intros Harch _ Hser Hok Htmp Hnd Hv dumped.
  assert (NoDup (dict.keys (table c))) as Hndk.
  { eapply NoDup_fmap_1. exact Hnd. }
  destruct (update_from_lookup s (store_envs w) (table c) 0 root) as [Hres Hitems];
    [| done | done | done |].
  { intros k' v' Hin. by destruct (Hser k' v' Hin) as (_ & ? & ?). }
  assert (archive_ops.__getitem__ (__archive__ dumped) k = Ok v) as Hget.
  { unfold dumped, cache.dump. cbn [__archive__]. rewrite Harch.
    cbn [archive_ops.update archive_ops.__getitem__].
    unfold dir_archive.update, dir_archive.update_result, dir_archive.__getitem__.
    rewrite (update_fresh (table c) []) by done. simpl.
    apply Hitems. apply lookup_key_elem_of. by apply getitem_Ok. }
  split_and!; [| done |].
  - unfold cache.dump_raises, archive_ops.update_raises. rewrite Harch.
    unfold dir_archive.update_result.
    rewrite (update_fresh (table c) []) by done. simpl. by rewrite Hres.
  - unfold cache.load, cache.clear. cbn [table __archive__ __swap__].
    fold dumped. by rewrite Hget.
Qed.

Lemma cache_dump_load_dir_archive_witness :
  let c := Cache [("a"%string, 1%Z); ("b"%string, 2%Z)] (dir_archive pickled ∅)
                 null_archive in
  cache.dump_raises calm c = None
  ∧ archive_ops.__getitem__ (__archive__ (cache.dump calm c)) "a"%string = Ok 1%Z
  ∧ table (cache.load (cache.clear (cache.dump calm c)) "a"%string) = [("a"%string, 1%Z)].
Proof.
  intros c.
  apply (@cache_dump_load_dir_archive string_signature calm c pickled ∅ "a"%string 1%Z).
  - reflexivity.
  - reflexivity.
  - intros k' v' Hin. vm_compute in Hin.
    apply elem_of_cons in Hin as [[= -> ->] | Hin]; [by vm_compute|].
    apply elem_of_cons in Hin as [[= -> ->] | Hin]; [by vm_compute|].
    by apply elem_of_nil in Hin.
  - intros m. repeat split.
  - intros m k' Hk'. vm_compute in Hk'.
    apply elem_of_cons in Hk' as [-> | Hk']; [vm_compute; intros [=]|].
    apply elem_of_cons in Hk' as [-> | Hk']; [vm_compute; intros [=]|].
    by apply elem_of_nil in Hk'.
  - vm_compute. repeat constructor; set_solver.
  - reflexivity.
Defined.

(** ** Replacing, dropping and toggling the archive of a cache *)

(** X11.  [cache.open(a)] never raises and makes [a] the active archive
    without touching the dictionary; [cache.drop()] raises [ValueError]
    exactly when neither slot holds an archive that is not null, and
    otherwise leaves a null active archive.  On a cache with at most one
    archive that is not null, both leave a null archive in the swap
    slot: the archive that was there, active or set aside, is gone, and
    after [drop()] a call of [archived(True)] raises. *)
Theorem cache_open_drop `{Signature} (c : cache) (a : archive) :
  __archive__ (cache.open c a) = a
  ∧ table (cache.open c a) = table c
  ∧ ((cache.drop c).2 = Raise ValueError
     ↔ archive_ops.is_null (__archive__ c) = true
       ∧ archive_ops.is_null (__swap__ c) = true)
  ∧ ((cache.drop c).2 ≠ Raise ValueError →
     (cache.drop c).2 = Ok ()
     ∧ __archive__ (cache.drop c).1 = null_archive
     ∧ table (cache.drop c).1 = table c)
  ∧ (slots_wf c = true →
     archive_ops.is_null (__swap__ (cache.open c a)) = true
     ∧ archive_ops.is_null (__swap__ (cache.drop c).1) = true
     ∧ ((cache.drop c).2 = Ok () →
        (cache.archived (cache.drop c).1 [true]).2 = Raise ValueError)).
Proof.
  unfold cache.open, cache.drop, cache.archived, cache.__archive, cache.swap_slots,
    slots_wf.
  destruct (archive_ops.is_null (__swap__ c)) eqn:Hs,
           (archive_ops.is_null (__archive__ c)) eqn:Ha;
    simpl; rewrite ?Hs, ?Ha; simpl; rewrite ?Hs, ?Ha; simpl;
    split_and!; try done; try (split; [done | by intros [? ?]]);
    try (intros _; split_and!; done).
Qed.

Lemma cache_open_drop_witness :
  let c := cache.__init__ (dict_archive [("k"%string, 1%Z)]) in
  (cache.drop c).2 = Ok ()
  ∧ (cache.archived (cache.drop c).1 [true]).2 = Raise ValueError
  ∧ archive_ops.is_null (__swap__ (cache.open c (dict_archive []))) = true.
Proof.
  intros c.
  destruct (@cache_open_drop string_signature c (dict_archive []))
    as (_ & _ & _ & Hok & Hwf).
  destruct Hok as (Hok & _); [vm_compute; intros [=]|].
  destruct (Hwf eq_refl) as (Hswap & _ & Hraise).
  split_and!; [exact Hok | exact (Hraise Hok) | exact Hswap].
Defined.

(** X12.  On a cache whose archive is on and whose swap slot is null,
    [archived(False)] sets the archive aside: [archived()] is then false
    and [dump()] does not write to the archive set aside; a following
    [archived(True)] gives the cache back as it was. *)
Theorem cache_archive_off_then_on `{Signature} (w : world) (c : cache) :
  cache.is_archived c = true →
  archive_ops.is_null (__swap__ c) = true →
  let off := (cache.archived c [false]).1 in
  (cache.archived c [false]).2 = Ok None
  ∧ cache.is_archived off = false
  ∧ __swap__ off = __archive__ c
  ∧ __swap__ (cache.dump w off) = __archive__ c
  ∧ archive_ops.is_null (__archive__ (cache.dump w off)) = true
  ∧ (cache.archived off [true]).2 = Ok None
  ∧ __archive__ (cache.archived off [true]).1 = __archive__ c
  ∧ __swap__ (cache.archived off [true]).1 = __swap__ c
  ∧ table (cache.archived off [true]).1 = table c.
Proof.
  unfold cache.is_archived, cache.archived, cache.swap_slots, cache.dump.
  intros Ha Hs. apply negb_true_iff in Ha. rewrite Ha. simpl.
  rewrite Hs, Ha. simpl. rewrite is_null_update, Hs. done.
Qed.

Lemma cache_archive_off_then_on_witness :
  let c := cache.__init__ (dict_archive [("k"%string, 1%Z)]) in
  let off := (cache.archived c [false]).1 in
  cache.is_archived off = false
  ∧ __archive__ (cache.archived off [true]).1 = dict_archive [("k"%string, 1%Z)].
Proof.
  intros c off.
  destruct (@cache_archive_off_then_on string_signature calm c eq_refl eq_refl)
    as (_ & Hoff & _ & _ & _ & _ & Hon & _).
  split; [exact Hoff | exact Hon].
Defined.

(** ** Memoisation by [inf_cache] *)

Section inf_cache_memo.
Context `{Signature}.
Implicit Types (st : inf_cache.closure) (k : key).

(** What the cache holds, a call leaves there. *)
Lemma inf_cache_keeps (user_function : args → result value) w st (a : args) k v :
  dict.lookup_key (table (inf_cache.cache st)) k = Some v →
  dict.lookup_key (table (inf_cache.cache (inf_cache.wrapper user_function w st a).1)) k
  = Some v.
Proof.
  intros Hk. unfold inf_cache.wrapper.
  destruct (dict.__getitem__ (table (inf_cache.cache st)) (keymap a)) as [v0|e] eqn:Hget;
    [done|].
  apply getitem_Raise in Hget as [_ Hnew].
  assert (k ≠ keymap a) as Hne.
  { intros ->. apply Hnew, lookup_key_is_Some. eauto. }
  pose proof (look_in_archive (inf_cache.cache st) (keymap a)) as (_ & _ & Hload).
  simpl in Hload.
  set (c := if cache.is_archived (inf_cache.cache st)
            then cache.load (inf_cache.cache st) (keymap a)
            else inf_cache.cache st) in *.
  assert (dict.lookup_key (table c) k = Some v) as Hc.
  { destruct Hload as [-> | [v' ->]]; [done|]. by rewrite lookup_setitem, decide_False. }
  destruct (dict.__getitem__ (table c) (keymap a)); [done|].
  destruct (user_function a); [|done]. simpl.
  by rewrite lookup_setitem, decide_False.
Qed.

(** A call that returns leaves its value in the cache under its key. *)
Lemma inf_cache_records (user_function : args → result value) w st (a : args) v :
  (inf_cache.wrapper user_function w st a).2 = Ok v →
  dict.lookup_key (table (inf_cache.cache (inf_cache.wrapper user_function w st a).1))
    (keymap a) = Some v.
Proof.
  unfold inf_cache.wrapper.
  destruct (dict.__getitem__ (table (inf_cache.cache st)) (keymap a)) as [v0|e] eqn:Hget.
  - simpl. intros Hv. injection Hv as ->. by apply getitem_Ok.
  - set (c := if cache.is_archived (inf_cache.cache st)
              then cache.load (inf_cache.cache st) (keymap a)
              else inf_cache.cache st).
    destruct (dict.__getitem__ (table c) (keymap a)) as [v1|e1] eqn:Hget1.
    + simpl. intros Hv. injection Hv as ->. by apply getitem_Ok.
    + destruct (user_function a); [|done]. simpl. intros Hv. injection Hv as ->.
      by rewrite lookup_setitem, decide_True.
Qed.
End inf_cache_memo.

(** X13.  A function decorated with [inf_cache]: once a call has returned
    [v], every later call whose arguments have the same key, after any
    calls in between, returns [v] as a hit, the cache unchanged, and
    does not call the wrapped function: the outcome is the same with any
    function in its place. *)
Theorem inf_cache_memoizes `{Signature} (user_function g : args → result value)
    (st : inf_cache.closure) (w w' : world) (a a' : args) (v : value)
    (calls : list (world * args)) :
  (inf_cache.wrapper user_function w st a).2 = Ok v →
  keymap a' = keymap a →
  let st1 := (inf_cache.wrapper user_function w st a).1 in
  let st2 := run_calls (inf_cache.wrapper user_function) st1 calls in
  inf_cache.wrapper g w' st2 a'
  = (inf_cache.Closure (inf_cache.cache st2) (incr_HIT (inf_cache.stats st2)), Ok v).
Proof.
  intros Hres Hkey st1 st2.
  assert (dict.lookup_key (table (inf_cache.cache st2)) (keymap a) = Some v) as Hk.
  { apply (run_calls_invariant (inf_cache.wrapper user_function)
             (λ st, dict.lookup_key (table (inf_cache.cache st)) (keymap a) = Some v)).
    - by apply inf_cache_records.
    - intros st0 w0 a0. apply inf_cache_keeps. }
  apply inf_cache_hit. rewrite Hkey. by apply getitem_Ok.
Qed.

Lemma inf_cache_memoizes_witness :
  let st := inf_cache.fresh (cache.__init__ null_archive) in
  let st1 := (inf_cache.wrapper string_length calm st "abc"%string).1 in
  let st2 := run_calls (inf_cache.wrapper string_length) st1 [(calm, "x"%string)] in
  (inf_cache.wrapper (λ _, Raise (UserError 0)) calm st2 "abc"%string).2 = Ok 3%Z.
Proof.
  intros st st1 st2.
  exact (f_equal snd
           (@inf_cache_memoizes string_signature string_length
              (λ _, Raise (UserError 0)) st calm calm "abc"%string "abc"%string 3%Z
              [(calm, "x"%string)] eq_refl eq_refl)).
Defined.

(** ** Which entry a bounded cache evicts *)

Section recency.
Context {K : Type} `{EqDecision K}.
Implicit Types (q : list K).

Lemma most_recent_occurrences_NoDup q : NoDup q → most_recent_occurrences q = q.
Proof.
  induction 1 as [|x q Hx Hq IH]; simpl; [done|].
  rewrite decide_False by done. by rewrite IH.
Qed.

Lemma most_recent_occurrences_idemp q :
  most_recent_occurrences (most_recent_occurrences q) = most_recent_occurrences q.
Proof. apply most_recent_occurrences_NoDup, NoDup_most_recent_occurrences. Qed.

Lemma filter_ne_not_elem_of q (k : K) : k ∉ q → filter (λ x, x ≠ k) q = q.
Proof.
  induction q as [|x q IH]; [done|]. rewrite not_elem_of_cons. intros [Hne Hq].
  rewrite filter_cons_True by done. by rewrite IH.
Qed.
End recency.

Section dict_removal.
Context {K V : Type} `{EqDecision K}.
Implicit Types (d : list (K * V)) (k : K).

Lemma remove_key_app d d' k :
  k ∈ dict.keys d → dict.remove_key (d ++ d') k = dict.remove_key d k ++ d'.
Proof.
  unfold dict.keys. induction d as [|[k0 v0] d IH]; csimpl; [by intros ?%elem_of_nil|].
  intros Hk. destruct (decide (k = k0)) as [->|Hne]; [done|].
  apply elem_of_cons in Hk as [?|Hk]; [done|]. by rewrite IH.
Qed.

Lemma remove_key_last d k (v : V) :
  k ∉ dict.keys d → dict.remove_key (d ++ [(k, v)]) k = d.
Proof.
  unfold dict.keys. induction d as [|[k0 v0] d IH]; csimpl.
  - intros _. by rewrite decide_True.
  - rewrite not_elem_of_cons. intros [Hne Hk]. rewrite decide_False by done.
    by rewrite IH.
Qed.
End dict_removal.

Section lru_order.
Context `{Signature} (user_function : args → result value).
Implicit Types (st : lru_cache.closure) (k : key) (q : list key) (r : list (key * Z)).

(** The key that [popleft] stops at is the first of the queue that does
    not come again further right. *)
Lemma popleft_unreferenced_recent q :
  ∀ r q' r' victim,
    (∀ k, Counter.get r k = Z.of_nat (occurrences k q)) →
    lru_cache.popleft_unreferenced q r = (q', r', Ok victim) →
    most_recent_occurrences q = victim :: most_recent_occurrences q'.
Proof.
  induction q as [|x q IH]; intros r q' r' victim Hcount; simpl; [done|].
  assert (∀ k, Counter.get (Counter.add r x (-1)) k = Z.of_nat (occurrences k q)) as Hc.
  { intros k. rewrite get_add.
    destruct (decide (k = x)) as [->|Hne]; rewrite Hcount, occurrences_cons.
    - rewrite decide_True by done. lia.
    - rewrite decide_False by done. done. }
  destruct (decide (Counter.get (Counter.add r x (-1)) x = 0%Z)) as [Hz|Hnz].
  - intros [= <- <- <-]. rewrite decide_False; [done|].
    apply occurrences_zero. rewrite Hc in Hz. lia.
  - intros Hpop. rewrite decide_True.
    + by eapply IH.
    + destruct (decide (x ∈ q)) as [?|Hx]; [done|].
      apply occurrences_zero in Hx. rewrite Hc, Hx in Hnz. done.
Qed.

Lemma lru_purge_victim (maxsize : Z) w st (res : value) :
  (0 ≤ maxsize)%Z →
  lru_inv st →
  cache.is_archived (lru_cache.cache st) = false →
  len_exceeds (table (lru_cache.cache st)) maxsize = true →
  ∃ victim q' r',
    lru_cache.purge maxsize w st res
    = (lru_cache.Closure
         (cache.with_table (lru_cache.cache st)
            (dict.remove_key (table (lru_cache.cache st)) victim))
         q' (dict.remove_key r' victim) (lru_cache.stats st), Ok res)
    ∧ most_recent_occurrences (lru_cache.queue st)
      = victim :: most_recent_occurrences q'
    ∧ victim ∈ dict.keys (table (lru_cache.cache st)).
Proof.
  intros Hmax (Hnd & Hperm & Hcount & Hin) Harch Hexc. unfold lru_cache.purge.
  rewrite Hexc, Harch. apply len_exceeds_true in Hexc.
  destruct (popleft_unreferenced_ok (lru_cache.queue st) (lru_cache.refcount st))
    as (q' & r' & victim & Hpop & Hkeys & Hk & _); [|done|done|].
  { destruct (table (lru_cache.cache st)) as [|[k0 v0] t] eqn:Ht; [simpl in Hexc; lia|].
    assert (k0 ∈ lru_cache.queue st) as Hk0 by (apply Hin; rewrite <- Hperm; left).
    by intros Hq; rewrite Hq in Hk0; apply elem_of_nil in Hk0. }
  exists victim, q', r'.
  assert (victim ∈ dict.keys (table (lru_cache.cache st))) as Hkt by (by rewrite Hperm).
  assert (victim ∈ dict.keys r') as Hkr by (by rewrite Hkeys).
  rewrite Hpop, (delitem_Ok _ _ Hkt), (delitem_Ok _ _ Hkr).
  split_and!; [done | by eapply popleft_unreferenced_recent | done].
Qed.
End lru_order.

Section lru_wrapper_order.
Context `{Signature} (user_function : args → result value).
Implicit Types (st : lru_cache.closure) (k : key) (q : list key).

(** Compaction changes neither the cache nor the order of last use. *)
Lemma compact_recent (maxsize : Z) st (res : value) :
  ∃ q r,
    lru_cache.compact maxsize st res
    = (lru_cache.Closure (lru_cache.cache st) q r (lru_cache.stats st), Ok res)
    ∧ most_recent_occurrences q = most_recent_occurrences (lru_cache.queue st).
Proof.
  destruct (len_exceeds (lru_cache.queue st) (maxsize * 10)) eqn:Hlen.
  - rewrite compact_spec by done. eexists _, _. split; [done|].
    apply most_recent_occurrences_idemp.
  - unfold lru_cache.compact. rewrite Hlen. exists (lru_cache.queue st), (lru_cache.refcount st).
    by destruct st.
Qed.

Lemma lru_queue_keys st k :
  lru_inv st → k ∈ lru_cache.queue st ↔ k ∈ dict.keys (table (lru_cache.cache st)).
Proof.
  intros (Hnd & Hperm & Hcount & Hin). split.
  - intros Hk. rewrite Hperm. apply get_nonzero_elem_of. rewrite Hcount.
    assert (occurrences k (lru_cache.queue st) ≠ 0) by (by rewrite occurrences_zero; intros []).
    lia.
  - intros Hk. apply Hin. by rewrite <- Hperm.
Qed.
End lru_wrapper_order.

(** X14.  A call of an [lru_cache] wrapper without an archive, on a key
    that is not cached while the cache is full, returns what the function
    returns, evicts the key whose last use is the oldest and no other, and
    enters the new key as the one used last. *)
Theorem lru_cache_evicts_least_recent `{Signature} (user_function : args → result value)
    (maxsize : Z) (w : world) (st : lru_cache.closure) (a : args) (v : value) :
  (1 ≤ maxsize)%Z →
  lru_inv st →
  cache.is_archived (lru_cache.cache st) = false →
  Z.of_nat (length (table (lru_cache.cache st))) = maxsize →
  keymap a ∉ dict.keys (table (lru_cache.cache st)) →
  user_function a = Ok v →
  ∃ victim rest,
    most_recent_occurrences (lru_cache.queue st) = victim :: rest
    ∧ victim ∈ dict.keys (table (lru_cache.cache st))
    ∧ let out := lru_cache.wrapper user_function maxsize w st a in
      out.2 = Ok v
      ∧ table (lru_cache.cache out.1)
        = dict.remove_key (table (lru_cache.cache st)) victim ++ [(keymap a, v)]
      ∧ most_recent_occurrences (lru_cache.queue out.1) = rest ++ [keymap a].
Proof.
  intros Hmax Hinv Harch Hlen Hk Hf.
  destruct (lru_insert_inv st (cache.__setitem__ (lru_cache.cache st) (keymap a) v)
              (keymap a) v (incr_MISS (lru_cache.stats st)) Hinv Hk eq_refl)
    as [Hinv1 Hlen1].
  set (st1 := lru_cache.Closure (cache.__setitem__ (lru_cache.cache st) (keymap a) v)
                (lru_cache.queue st ++ [keymap a])
                (Counter.add (lru_cache.refcount st) (keymap a) 1)
                (incr_MISS (lru_cache.stats st))) in *.
  destruct (lru_purge_victim maxsize w st1 v) as (victim & q' & r' & Hp & Hm & Hv);
    [lia | done | done | |].
  { apply len_exceeds_true. subst st1. cbn [lru_cache.cache]. rewrite Hlen1. lia. }
  assert (keymap a ∉ lru_cache.queue st) as Hq by (by rewrite lru_queue_keys).
  simpl in Hm. rewrite most_recent_occurrences_snoc, filter_ne_not_elem_of in Hm
    by (by rewrite elem_of_most_recent_occurrences).
  destruct (most_recent_occurrences (lru_cache.queue st)) as [|x rest] eqn:Hmro.
  { exfalso. destruct (table (lru_cache.cache st)) as [|[k0 v0] t] eqn:Ht; [simpl in Hlen; lia|].
    assert (k0 ∈ lru_cache.queue st) as Hk0 by (rewrite lru_queue_keys, Ht by done; left).
    rewrite <- elem_of_most_recent_occurrences, Hmro in Hk0. by apply elem_of_nil in Hk0. }
  simpl in Hm. injection Hm as <- Hrest.
  assert (x ∈ dict.keys (table (lru_cache.cache st))) as Hx.
  { rewrite <- lru_queue_keys, <- elem_of_most_recent_occurrences, Hmro by done. left. }
  exists x, rest. split_and!; [done | done |].
  unfold lru_cache.wrapper, lru_cache.access.
  rewrite (getitem_not_elem_of _ _ Hk), Harch, (getitem_not_elem_of _ _ Hk), Hf.
  fold st1. rewrite Hp.
  match goal with |- context [lru_cache.compact maxsize ?s v] =>
    destruct (compact_recent maxsize s v) as (q2 & r2 & -> & Hq2) end.
  simpl in *. split_and!; [done | | by rewrite Hq2].
  rewrite setitem_append by done. by apply remove_key_app.
Qed.

(** A cache of two entries, [ab] used before [c]; the call on [xyz]
    evicts [ab]. *)
Lemma lru_cache_evicts_least_recent_witness :
  let st := lru_cache.Closure (cache.__init__ null_archive) [] [] (Stats 0 0 0) in
  let st2 := run_calls (lru_cache.wrapper string_length 2)
               st [(calm, "ab"%string); (calm, "c"%string); (calm, "ab"%string);
                   (calm, "c"%string)] in
  ∃ victim rest,
    most_recent_occurrences (lru_cache.queue st2) = victim :: rest
    ∧ victim ∈ dict.keys (table (lru_cache.cache st2))
    ∧ let out := lru_cache.wrapper string_length 2 calm st2 "xyz"%string in
      out.2 = Ok 3%Z
      ∧ table (lru_cache.cache out.1)
        = dict.remove_key (table (lru_cache.cache st2)) victim ++ [("xyz"%string, 3%Z)]
      ∧ most_recent_occurrences (lru_cache.queue out.1) = rest ++ ["xyz"%string].
Proof.
  intros st st2.
  apply (@lru_cache_evicts_least_recent string_signature string_length 2 calm st2
           "xyz"%string 3%Z).
  - lia.
  - assert (st2 = lru_cache.Closure
                    (Cache [("ab"%string, 2%Z); ("c"%string, 1%Z)] null_archive null_archive)
                    ["ab"%string; "c"%string; "ab"%string; "c"%string]
                    [("ab"%string, 2%Z); ("c"%string, 2%Z)] (Stats 2 2 0)) as ->
      by (vm_compute; reflexivity).
    unfold lru_inv. cbn [lru_cache.cache lru_cache.queue lru_cache.refcount table].
    split_and!.
    + repeat (apply NoDup_cons; split; [set_solver|]). apply NoDup_nil_2.
    + reflexivity.
    + intros k. unfold Counter.get, occurrences. simpl.
      rewrite !filter_cons, filter_nil.
      repeat case_decide; simplify_eq; reflexivity.
    + intros k. set_solver.
  - reflexivity.
  - reflexivity.
  - vm_compute. set_solver.
  - reflexivity.
Defined.

(** X15.  A call of an [lru_cache] wrapper on a cached key returns the
    cached value without calling the function, counts a hit, leaves the
    cache as it is and makes the key the one used last, the order of the
    other keys being kept. *)
Theorem lru_cache_hit_refreshes `{Signature} (user_function : args → result value)
    (maxsize : Z) (w : world) (st : lru_cache.closure) (a : args) (v : value) :
  dict.__getitem__ (table (lru_cache.cache st)) (keymap a) = Ok v →
  let out := lru_cache.wrapper user_function maxsize w st a in
  out.2 = Ok v
  ∧ lru_cache.cache out.1 = lru_cache.cache st
  ∧ lru_cache.stats out.1 = incr_HIT (lru_cache.stats st)
  ∧ most_recent_occurrences (lru_cache.queue out.1)
    = filter (λ k, k ≠ keymap a) (most_recent_occurrences (lru_cache.queue st))
      ++ [keymap a].
Proof.
  intros Hget. unfold lru_cache.wrapper, lru_cache.access. rewrite Hget.
  match goal with |- context [lru_cache.compact maxsize ?s v] =>
    destruct (compact_recent maxsize s v) as (q2 & r2 & -> & Hq2) end.
  simpl in *. split_and!; [done | done | done |].
  by rewrite Hq2, most_recent_occurrences_snoc.
Qed.

Lemma lru_cache_hit_refreshes_witness :
  let st := run_calls (lru_cache.wrapper string_length 2)
              (lru_cache.Closure (cache.__init__ null_archive) [] [] (Stats 0 0 0))
              [(calm, "ab"%string); (calm, "c"%string)] in
  let out := lru_cache.wrapper (λ _, Raise (UserError 0)) 2 calm st "ab"%string in
  out.2 = Ok 2%Z
  ∧ lru_cache.cache out.1 = lru_cache.cache st
  ∧ lru_cache.stats out.1 = incr_HIT (lru_cache.stats st)
  ∧ most_recent_occurrences (lru_cache.queue out.1)
    = filter (λ k, k ≠ "ab"%string) (most_recent_occurrences (lru_cache.queue st))
      ++ ["ab"%string].
Proof.
  intros st.
  apply (@lru_cache_hit_refreshes string_signature (λ _, Raise (UserError 0)) 2 calm st
           "ab"%string 2%Z).
  reflexivity.
Defined.

Lemma is_archived_setitem `{Signature} (c : cache) (k : key) (v : value) :
  cache.is_archived (cache.__setitem__ c k v) = cache.is_archived c.
Proof. done. Qed.

(** X16.  A call of an [mru_cache] wrapper without an archive, on a key
    that is not cached while the cache is full, returns what the function
    returns, evicts the key used last before the call and no other, and
    enters the new key as the one used last. *)
Theorem mru_cache_evicts_most_recent `{Signature} (user_function : args → result value)
    (maxsize : Z) (w : world) (st : mru_cache.closure) (a : args) (v : value) :
  (1 ≤ maxsize)%Z →
  mru_inv st →
  cache.is_archived (mru_cache.cache st) = false →
  Z.of_nat (length (table (mru_cache.cache st))) = maxsize →
  keymap a ∉ dict.keys (table (mru_cache.cache st)) →
  user_function a = Ok v →
  ∃ victim rest,
    mru_cache.queue st = rest ++ [victim]
    ∧ victim ∈ dict.keys (table (mru_cache.cache st))
    ∧ let out := mru_cache.wrapper user_function maxsize w st a in
      out.2 = Ok v
      ∧ table (mru_cache.cache out.1)
        = dict.remove_key (table (mru_cache.cache st)) victim ++ [(keymap a, v)]
      ∧ mru_cache.queue out.1 = rest ++ [keymap a].
Proof.
  intros Hmax (Hnd & Hin & Hperm) Harch Hlen Hk Hf. specialize (Hperm Harch).
  destruct (queue_pop (mru_cache.queue st)) as [[rest victim]|] eqn:Hpop.
  2:{ apply queue_pop_nil_inv in Hpop. rewrite Hpop in Hperm.
      apply Permutation_nil_r in Hperm.
      rewrite <- length_keys, Hperm in Hlen. simpl in Hlen. lia. }
  pose proof (queue_pop_inv _ _ _ Hpop) as Hq.
  assert (victim ∈ dict.keys (table (mru_cache.cache st))) as Hv.
  { rewrite Hperm, Hq. set_solver. }
  exists victim, rest. split_and!; [done | done |].
  unfold mru_cache.wrapper.
  rewrite (getitem_not_elem_of _ _ Hk), Harch, (getitem_not_elem_of _ _ Hk), Hf.
  unfold mru_cache.purge. fields.
  rewrite setitem_append by done.
  assert (len_exceeds (table (mru_cache.cache st) ++ [(keymap a, v)]) maxsize = true) as ->.
  { apply len_exceeds_true. rewrite length_app. simpl. lia. }
  rewrite is_archived_setitem, Harch, Hpop, delitem_Ok by (unfold dict.keys in *; rewrite fmap_app; set_solver).
  fields. split_and!; [done | | done]. by apply remove_key_app.
Qed.

(** After [ab] then [c], the call on [xyz] evicts [c]. *)
Lemma mru_cache_evicts_most_recent_witness :
  let st := mru_cache.Closure
              (Cache [("ab"%string, 2%Z); ("c"%string, 1%Z)] null_archive null_archive)
              ["ab"%string; "c"%string] (Stats 0 2 0) in
  ∃ victim rest,
    mru_cache.queue st = rest ++ [victim]
    ∧ victim ∈ dict.keys (table (mru_cache.cache st))
    ∧ let out := mru_cache.wrapper string_length 2 calm st "xyz"%string in
      out.2 = Ok 3%Z
      ∧ table (mru_cache.cache out.1)
        = dict.remove_key (table (mru_cache.cache st)) victim ++ [("xyz"%string, 3%Z)]
      ∧ mru_cache.queue out.1 = rest ++ ["xyz"%string].
Proof.
  intros st.
  apply (@mru_cache_evicts_most_recent string_signature string_length 2 calm st
           "xyz"%string 3%Z).
  - lia.
  - unfold mru_inv. cbn [mru_cache.cache mru_cache.queue table]. split_and!.
    + repeat (apply NoDup_cons; split; [set_solver|]). apply NoDup_nil_2.
    + intros k Hk. exact Hk.
    + intros _. reflexivity.
  - reflexivity.
  - reflexivity.
  - vm_compute. set_solver.
  - reflexivity.
Defined.

(** X17.  After a call of an [mru_cache] wrapper without an archive that
    returns a value, the key of the call is cached with this value and is
    the one used last, hence the one the next eviction removes. *)
Theorem mru_cache_call_is_most_recent `{Signature} (user_function : args → result value)
    (maxsize : Z) (w : world) (st : mru_cache.closure) (a : args) (v : value) :
  mru_inv st →
  cache.is_archived (mru_cache.cache st) = false →
  let out := mru_cache.wrapper user_function maxsize w st a in
  out.2 = Ok v →
  dict.__getitem__ (table (mru_cache.cache out.1)) (keymap a) = Ok v
  ∧ last (mru_cache.queue out.1) = Some (keymap a).
Proof.
  intros (Hnd & Hin & Hperm) Harch. specialize (Hperm Harch).
  unfold mru_cache.wrapper.
  destruct (dict.__getitem__ (table (mru_cache.cache st)) (keymap a)) as [v0|e] eqn:Hget.
  - destruct (queue_remove (mru_cache.queue st) (keymap a)) as [q|]; simpl; [|done].
    intros [= <-]. by rewrite last_snoc.
  - apply getitem_Raise in Hget as [-> Hk].
    rewrite Harch, (getitem_not_elem_of _ _ Hk).
    destruct (user_function a) as [v0|e] eqn:Hf; [|done].
    unfold mru_cache.purge. fields.
    destruct (len_exceeds _ maxsize).
    + rewrite is_archived_setitem, Harch.
      destruct (queue_pop (mru_cache.queue st)) as [[rest victim]|] eqn:Hpop; [|done].
      apply queue_pop_inv in Hpop.
      destruct (dict.__delitem__ _ victim) as [t|e] eqn:Hdel; [|done].
      apply delitem_inv in Hdel as [_ ->]. simpl. intros [= <-].
      rewrite last_snoc. split; [|done].
      assert (victim ≠ keymap a) as Hne.
      { intros ->. apply Hk. rewrite Hperm, Hpop. set_solver. }
      apply getitem_Ok. rewrite lookup_remove_key_ne by done.
      rewrite lookup_setitem. by rewrite decide_True.
    + simpl. intros [= <-]. rewrite last_snoc. split; [|done].
      apply getitem_setitem.
Qed.

Lemma mru_cache_call_is_most_recent_witness :
  let st := mru_cache.Closure
              (Cache [("ab"%string, 2%Z); ("c"%string, 1%Z)] null_archive null_archive)
              ["ab"%string; "c"%string] (Stats 0 2 0) in
  let out := mru_cache.wrapper string_length 2 calm st "ab"%string in
  dict.__getitem__ (table (mru_cache.cache out.1)) "ab"%string = Ok 2%Z
  ∧ last (mru_cache.queue out.1) = Some "ab"%string.
Proof.
  intros st.
  apply (@mru_cache_call_is_most_recent string_signature string_length 2 calm st
           "ab"%string 2%Z).
  - unfold mru_inv. cbn [mru_cache.cache mru_cache.queue table]. split_and!.
    + repeat (apply NoDup_cons; split; [set_solver|]). apply NoDup_nil_2.
    + intros k Hk. exact Hk.
    + intros _. reflexivity.
  - reflexivity.
  - reflexivity.
Defined.

(** X18.  A call of an [rr_cache] wrapper without an archive, on a key
    that is not cached while the cache is full, returns what the function
    returns and removes exactly one entry, drawn among the keys of the
    cache and the new key: when the new key is drawn the cache is as
    before the call, otherwise the new entry replaces the one drawn. *)
Theorem rr_cache_evicts_one `{Signature} (user_function : args → result value)
    (maxsize : Z) (w : world) (st : rr_cache.closure) (a : args) (v : value) :
  cache.is_archived (rr_cache.cache st) = false →
  (maxsize ≤ Z.of_nat (length (table (rr_cache.cache st))))%Z →
  keymap a ∉ dict.keys (table (rr_cache.cache st)) →
  user_function a = Ok v →
  let candidates := dict.keys (table (rr_cache.cache st)) ++ [keymap a] in
  let out := rr_cache.wrapper user_function maxsize w st a in
  ∃ victim,
    candidates !! (random_index w `mod` length candidates) = Some victim
    ∧ out.2 = Ok v
    ∧ rr_cache.stats out.1 = incr_MISS (rr_cache.stats st)
    ∧ (victim = keymap a → table (rr_cache.cache out.1) = table (rr_cache.cache st))
    ∧ (victim ≠ keymap a →
       victim ∈ dict.keys (table (rr_cache.cache st))
       ∧ table (rr_cache.cache out.1)
         = dict.remove_key (table (rr_cache.cache st)) victim ++ [(keymap a, v)]).
Proof.
  intros Harch Hlen Hk Hf candidates out. subst out.
  unfold rr_cache.wrapper.
  rewrite (getitem_not_elem_of _ _ Hk), Harch, (getitem_not_elem_of _ _ Hk), Hf.
  unfold rr_cache.purge. fields.
  assert (len_exceeds (dict.__setitem__ (table (rr_cache.cache st)) (keymap a) v) maxsize
          = true) as ->.
  { apply len_exceeds_true. rewrite length_setitem, decide_False by done. lia. }
  rewrite is_archived_setitem, Harch, keys_setitem, decide_False by done.
  fold candidates. unfold rr_cache.choice.
  assert (random_index w `mod` length candidates < length candidates) as Hlt.
  { apply Nat.mod_upper_bound. subst candidates. rewrite length_app. simpl. lia. }
  apply lookup_lt_is_Some in Hlt as [victim Hvictim]. rewrite Hvictim.
  assert (victim ∈ candidates) as Hin by (by eapply list_elem_of_lookup_2).
  rewrite delitem_Ok by (by rewrite keys_setitem, decide_False).
  fields. exists victim. rewrite setitem_append by done.
  split_and!; [done | done | done | |].
  - intros ->. by apply remove_key_last.
  - intros Hne. subst candidates. apply elem_of_app in Hin as [Hin|Hin]; [|set_solver].
    split; [done|]. by apply remove_key_app.
Qed.

(** With the index 2 drawn, the new key [xyz] itself leaves the cache;
    with the index 0, [ab] does. *)
Lemma rr_cache_evicts_one_witness :
  let st := rr_cache.Closure
              (Cache [("ab"%string, 2%Z); ("c"%string, 1%Z)] null_archive null_archive)
              (Stats 0 2 0) in
  let w := {| store_envs := store_envs calm; random_index := 2 |} in
  table (rr_cache.cache (rr_cache.wrapper string_length 2 w st "xyz"%string).1)
  = table (rr_cache.cache st)
  ∧ table (rr_cache.cache (rr_cache.wrapper string_length 2 calm st "xyz"%string).1)
    = [("c"%string, 1%Z); ("xyz"%string, 3%Z)].
Proof.
  intros st w. split.
  - destruct (@rr_cache_evicts_one string_signature string_length 2 w st "xyz"%string 3%Z)
      as (victim & Hv & _ & _ & Hnew & _);
      [reflexivity | simpl; lia | vm_compute; set_solver | reflexivity |].
    apply Hnew. vm_compute in Hv. by injection Hv as <-.
  - destruct (@rr_cache_evicts_one string_signature string_length 2 calm st "xyz"%string 3%Z)
      as (victim & Hv & _ & _ & _ & Hold);
      [reflexivity | simpl; lia | vm_compute; set_solver | reflexivity |].
    assert (victim = "ab"%string) as -> by (vm_compute in Hv; by injection Hv as <-).
    destruct Hold as [_ ->]; [done|]. reflexivity.
Defined.

Section sorting_order.
Context {K : Type} `{EqDecision K}.
Implicit Types (l : list (K * Z)).

Lemma insert_by_count_sorted x l :
  StronglySorted (λ y z, (y.2 ≤ z.2)%Z) l →
  StronglySorted (λ y z, (y.2 ≤ z.2)%Z) (insert_by_count x l).
Proof.
  induction 1 as [|y l Hl IH Hy]; simpl.
  - by repeat constructor.
  - case_decide as Hle.
    + constructor; [by constructor|]. constructor; [done|].
      eapply Forall_impl; [exact Hy|]. simpl. intros; lia.
    + constructor; [done|]. rewrite insert_by_count_perm. constructor; [lia | done].
Qed.

Lemma sorted_by_count_sorted l :
  StronglySorted (λ y z, (y.2 ≤ z.2)%Z) (sorted_by_count l).
Proof.
  induction l as [|x l IH]; simpl; [constructor|]. by apply insert_by_count_sorted.
Qed.

Lemma sorted_take_drop (s : list (K * Z)) :
  StronglySorted (λ y z, (y.2 ≤ z.2)%Z) s →
  ∀ n y z, y ∈ take n s → z ∈ drop n s → (y.2 ≤ z.2)%Z.
Proof.
  induction 1 as [|x s Hs IH Hx]; intros n y z.
  - rewrite take_nil. by intros ?%elem_of_nil.
  - destruct n as [|n]; simpl; [by intros ?%elem_of_nil|].
    intros [->|Hy]%elem_of_cons Hz.
    + rewrite Forall_forall in Hx. apply Hx.
      eapply elem_of_sublist; [exact Hz | apply sublist_drop].
    + by eapply IH.
Qed.

(** What [nsmallest] leaves counts at least as much as what it takes. *)
Lemma nsmallest_least n l y z :
  y ∈ nsmallest n l → z ∈ l → z ∉ nsmallest n l → (y.2 ≤ z.2)%Z.
Proof.
  unfold nsmallest. intros Hy Hz Hnz.
  apply (sorted_take_drop _ (sorted_by_count_sorted l) (Z.to_nat n)); [done|].
  rewrite <- (sorted_by_count_perm l), <- (take_drop (Z.to_nat n) (sorted_by_count l)) in Hz.
  apply elem_of_app in Hz as [?|?]; done.
Qed.
End sorting_order.

Section dict_filter.
Context {K V : Type} `{EqDecision K}.
Implicit Types (d : list (K * V)) (k : K).

Lemma filter_key_absent d k :
  k ∉ dict.keys d → filter (λ kv, kv.1 ≠ k) d = d.
Proof.
  unfold dict.keys. induction d as [|[k0 v0] d IH]; csimpl; [done|].
  rewrite not_elem_of_cons. intros [Hne Hd].
  rewrite filter_cons_True by (simpl; congruence). by rewrite IH.
Qed.

Lemma remove_key_filter d k :
  NoDup (dict.keys d) → dict.remove_key d k = filter (λ kv, kv.1 ≠ k) d.
Proof.
  unfold dict.keys. induction d as [|[k0 v0] d IH]; csimpl; [done|].
  intros [Hk0 Hd]%NoDup_cons. destruct (decide (k = k0)) as [->|Hne].
  - rewrite filter_cons_False by (simpl; naive_solver).
    by rewrite filter_key_absent.
  - rewrite filter_cons_True by (simpl; congruence). by rewrite IH.
Qed.

Lemma elem_of_lookup_key d k (v : V) :
  NoDup (dict.keys d) → (k, v) ∈ d → dict.lookup_key d k = Some v.
Proof.
  unfold dict.keys. induction d as [|[k0 v0] d IH]; csimpl; [by intros _ ?%elem_of_nil|].
  intros [Hk0 Hd]%NoDup_cons [Heq|Hin]%elem_of_cons.
  - injection Heq as -> ->. by rewrite decide_True.
  - rewrite decide_False; [by apply IH|].
    intros ->. apply Hk0. apply list_elem_of_fmap. by exists (k0, v).
Qed.

Lemma keys_filter_key d (P : K → Prop) `{∀ k, Decision (P k)} :
  dict.keys (filter (λ kv, P kv.1) d) = filter P (dict.keys d).
Proof.
  unfold dict.keys. induction d as [|[k0 v0] d IH]; csimpl; [done|].
  rewrite !filter_cons. simpl. destruct (decide (P k0)); csimpl; by rewrite IH.
Qed.
End dict_filter.

Section lfu_order.
Context `{Signature} (user_function : args → result value).
Implicit Types (st : lfu_cache.closure) (k : key).

Lemma filter_all {A} (P : A → Prop) `{∀ x, Decision (P x)} (l : list A) :
  (∀ x, x ∈ l → P x) → filter P l = l.
Proof.
  induction l as [|x l IH]; [done|]. intros Hall.
  rewrite filter_cons_True by (apply Hall; left).
  rewrite IH; [done|]. intros y Hy. apply Hall. by right.
Qed.

(** Deleting the victims one after the other leaves the entries whose
    key is none of theirs. *)
Lemma del_each_spec (victims : list (key * Z)) :
  ∀ (t : list (key * value)) (u : list (key * Z)),
    NoDup victims.*1 →
    (∀ k, k ∈ victims.*1 → k ∈ dict.keys u) →
    NoDup (dict.keys t) →
    dict.keys t ≡ₚ dict.keys u →
    lfu_cache.del_each victims t u
    = (filter (λ kv, kv.1 ∉ victims.*1) t, filter (λ kv, kv.1 ∉ victims.*1) u, None).
Proof.
  induction victims as [|[k n] victims IH]; intros t u Hnd Hin Ht Hperm.
  - csimpl. by rewrite !filter_all by (intros x _; apply not_elem_of_nil).
  - csimpl in *. apply NoDup_cons in Hnd as [Hk Hnd].
    assert (k ∈ dict.keys u) as Hku by (apply Hin; left).
    assert (k ∈ dict.keys t) as Hkt by (by rewrite Hperm).
    assert (NoDup (dict.keys u)) as Hu by (by rewrite <- Hperm).
    rewrite (delitem_Ok t k Hkt), (delitem_Ok u k Hku).
    pose proof (keys_remove_key t k Hkt) as Hpt.
    pose proof (keys_remove_key u k Hku) as Hpu.
    rewrite IH; [| done | | by apply NoDup_keys_remove_key |].
    + rewrite !remove_key_filter, !list_filter_filter by done.
      repeat match goal with |- (_, _) = (_, _) => f_equal end;
        apply list_filter_iff; intros [k' x]; simpl;
        rewrite not_elem_of_cons; naive_solver.
    + intros k' Hk'. assert (k' ∈ dict.keys u) as Hu' by (apply Hin; by right).
      rewrite Hpu in Hu'. apply elem_of_cons in Hu' as [-> | ?]; done.
    + apply (Permutation_cons_inv (a := k)). by rewrite <- Hpt, <- Hpu.
Qed.
End lfu_order.

(** X19.  A call of an [lfu_cache] wrapper without an archive, on a key
    that is not cached while the cache is full, returns what the function
    returns and removes [max(2, maxsize // 10)] entries, all of them when
    there are fewer, among the entries of the cache and the new one; the
    entries left keep their values and their counts, and no removed key was
    used more often than a key that is left. *)
Theorem lfu_cache_evicts_least_frequent `{Signature} (user_function : args → result value)
    (maxsize : Z) (w : world) (st : lfu_cache.closure) (a : args) (v : value) :
  lfu_inv st →
  cache.is_archived (lfu_cache.cache st) = false →
  (maxsize ≤ Z.of_nat (length (table (lfu_cache.cache st))))%Z →
  keymap a ∉ dict.keys (table (lfu_cache.cache st)) →
  user_function a = Ok v →
  let counts := Counter.add (lfu_cache.use_count st) (keymap a) 1 in
  let out := lfu_cache.wrapper user_function maxsize w st a in
  ∃ victims : list key,
    NoDup victims
    ∧ length victims
      = Z.to_nat (Z.max 2 (maxsize / 10)) `min` S (length (table (lfu_cache.cache st)))
    ∧ (∀ k, k ∈ victims → k ∈ dict.keys (table (lfu_cache.cache st)) ++ [keymap a])
    ∧ out.2 = Ok v
    ∧ table (lfu_cache.cache out.1)
      = filter (λ kv, kv.1 ∉ victims) (table (lfu_cache.cache st) ++ [(keymap a, v)])
    ∧ lfu_cache.use_count out.1 = filter (λ kv, kv.1 ∉ victims) counts
    ∧ (∀ k k', k ∈ victims → k' ∈ dict.keys (table (lfu_cache.cache out.1)) →
               (Counter.get counts k ≤ Counter.get counts k')%Z).
Proof.
  intros Hinv Harch Hlen Hk Hf counts out. subst out.
  destruct (lfu_insert_inv st (cache.__setitem__ (lfu_cache.cache st) (keymap a) v)
              (keymap a) v (incr_MISS (lfu_cache.stats st)) Hinv Hk eq_refl)
    as [[Hnd1 Hperm1] Hlen1].
  fields. fold counts in Hperm1.
  assert (NoDup (dict.keys counts)) as Hndc by (by rewrite <- Hperm1).
  set (victims := nsmallest (2 `max` (maxsize / 10)) counts).
  exists victims.*1.
  unfold lfu_cache.wrapper.
  rewrite (getitem_not_elem_of _ _ Hk), Harch, (getitem_not_elem_of _ _ Hk), Hf.
  unfold lfu_cache.purge. fields. fold counts.
  assert (len_exceeds (dict.__setitem__ (table (lfu_cache.cache st)) (keymap a) v) maxsize
          = true) as ->.
  { apply len_exceeds_true. rewrite Hlen1. lia. }
  rewrite is_archived_setitem, Harch. fold victims.
  rewrite del_each_spec;
    [| by apply nsmallest_keys_NoDup | intros k; apply nsmallest_keys_elem_of | done | done].
  fields. rewrite <- setitem_append by done.
  split_and!; try done.
  - by apply nsmallest_keys_NoDup.
  - rewrite length_fmap. unfold victims. rewrite nsmallest_length. f_equal.
    rewrite <- Hlen1, <- !length_keys. by rewrite Hperm1.
  - intros k Hkv. apply nsmallest_keys_elem_of in Hkv.
    change (k ∈ dict.keys counts) in Hkv.
    by rewrite <- Hperm1, keys_setitem, decide_False in Hkv.
  - intros k k' Hkv Hk'.
    pose proof (keys_filter_key
                  (dict.__setitem__ (table (lfu_cache.cache st)) (keymap a) v)
                  (λ k, k ∉ victims.*1)) as Hkeys.
    cbv beta in Hkeys. rewrite Hkeys in Hk'.
    apply list_elem_of_filter in Hk' as [Hnv Hk'].
    apply list_elem_of_fmap in Hkv as ([k0 n] & -> & Hkn). simpl.
    assert ((k0, n) ∈ counts) as Hc.
    { rewrite <- (sorted_by_count_perm counts).
      eapply elem_of_sublist; [exact Hkn | apply sublist_take]. }
    rewrite Hperm1 in Hk'. apply lookup_key_is_Some in Hk' as [n' Hn'].
    unfold Counter.get. rewrite (elem_of_lookup_key _ _ _ Hndc Hc), Hn'. simpl.
    apply (nsmallest_least (2 `max` (maxsize / 10)) counts (k0, n) (k', n')); [done | |].
    + clear -Hn'. induction counts as [|[k1 n1] c IH]; [done|]. simpl in Hn'.
      case_decide; [injection Hn' as ->; subst; left | right; by apply IH].
    + intros Hin. apply Hnv. apply list_elem_of_fmap. by exists (k', n').
Qed.

(** Three entries, [c] used once: the call on [wxyz] removes [c] and the
    new key itself. *)
Lemma lfu_cache_evicts_least_frequent_witness :
  let st := lfu_cache.Closure
              (Cache [("ab"%string, 2%Z); ("c"%string, 1%Z); ("def"%string, 3%Z)]
                     null_archive null_archive)
              [("ab"%string, 3%Z); ("c"%string, 1%Z); ("def"%string, 2%Z)] (Stats 3 3 0) in
  let counts := Counter.add (lfu_cache.use_count st) "wxyz"%string 1 in
  let out := lfu_cache.wrapper string_length 3 calm st "wxyz"%string in
  ∃ victims : list string,
    NoDup victims
    ∧ length victims = 2
    ∧ (∀ k, k ∈ victims → k ∈ dict.keys (table (lfu_cache.cache st)) ++ ["wxyz"%string])
    ∧ out.2 = Ok 4%Z
    ∧ table (lfu_cache.cache out.1)
      = filter (λ kv, kv.1 ∉ victims)
          (table (lfu_cache.cache st) ++ [("wxyz"%string, 4%Z)])
    ∧ lfu_cache.use_count out.1 = filter (λ kv, kv.1 ∉ victims) counts
    ∧ (∀ k k', k ∈ victims → k' ∈ dict.keys (table (lfu_cache.cache out.1)) →
               (Counter.get counts k ≤ Counter.get counts k')%Z).
Proof.
  intros st counts out.
  apply (@lfu_cache_evicts_least_frequent string_signature string_length 3 calm st
           "wxyz"%string 4%Z).
  - unfold lfu_inv. cbn [lfu_cache.cache lfu_cache.use_count table]. split.
    + repeat (apply NoDup_cons; split; [set_solver|]). apply NoDup_nil_2.
    + reflexivity.
  - reflexivity.
  - simpl. lia.
  - vm_compute. set_solver.
  - reflexivity.
Defined.

(** ** Bounded caches on an archive *)

Section archived_calls.
Context `{Signature} (user_function : args → result value).
Implicit Types (c : cache) (k : key) (e : engine).

Lemma is_archived_load c k : cache.is_archived (cache.load c k) = cache.is_archived c.
Proof. unfold cache.load. by destruct (archive_ops.__getitem__ _ _). Qed.

Lemma is_archived_settle (maxsize : Z) w c :
  cache.is_archived (settle maxsize w c) = cache.is_archived c.
Proof.
  unfold settle. destruct (len_exceeds _ _); [|done].
  unfold cache.is_archived. simpl. by rewrite is_null_update.
Qed.

Lemma is_archived_archived_call (maxsize : Z) w c (a : args) :
  cache.is_archived (archived_call user_function maxsize w c a).1 = cache.is_archived c.
Proof.
  unfold archived_call.
  destruct (dict.__getitem__ (table c) _); [done|].
  destruct (dict.__getitem__ (table (cache.load c _)) _); simpl.
  - by rewrite is_archived_settle, is_archived_load.
  - destruct (user_function a); simpl.
    + by rewrite is_archived_settle, is_archived_setitem, is_archived_load.
    + by rewrite is_archived_load.
Qed.

Lemma lfu_archived_call (maxsize : Z) w (st : lfu_cache.closure) (a : args) :
  cache.is_archived (lfu_cache.cache st) = true →
  dump_safe (__archive__ (lfu_cache.cache st)) →
  let out := lfu_cache.wrapper user_function maxsize w st a in
  (lfu_cache.cache out.1, out.2)
  = archived_call user_function maxsize w (lfu_cache.cache st) a.
Proof.
  intros Harch Hsafe. unfold lfu_cache.wrapper, archived_call, lfu_cache.purge, settle.
  destruct (dict.__getitem__ (table (lfu_cache.cache st)) _); [done|]. rewrite Harch.
  pose proof (dump_safe_load _ (keymap a) Hsafe) as Hsafe'.
  destruct (dict.__getitem__ (table (cache.load _ _)) _); fields.
  - rewrite is_archived_load, Harch, dump_safe_raises by done.
    by destruct (len_exceeds _ _).
  - destruct (user_function a); [|done]. fields.
    rewrite is_archived_setitem, is_archived_load, Harch, dump_safe_raises by done.
    by destruct (len_exceeds _ _).
Qed.

Lemma lru_archived_call (maxsize : Z) w (st : lru_cache.closure) (a : args) :
  cache.is_archived (lru_cache.cache st) = true →
  dump_safe (__archive__ (lru_cache.cache st)) →
  let out := lru_cache.wrapper user_function maxsize w st a in
  (lru_cache.cache out.1, out.2)
  = archived_call user_function maxsize w (lru_cache.cache st) a.
Proof.
  intros Harch Hsafe. unfold lru_cache.wrapper.
  pose proof (dump_safe_load _ (keymap a) Hsafe) as Hsafe'.
  assert (∀ st1 res, (lru_cache.cache (lru_cache.compact maxsize st1 res).1,
                      (lru_cache.compact maxsize st1 res).2)
                     = (lru_cache.cache st1, Ok res)) as Hcompact.
  { intros st1 res. by destruct (compact_recent maxsize st1 res) as (q & r & -> & _). }
  unfold lru_cache.access, archived_call, lru_cache.purge, settle.
  destruct (dict.__getitem__ (table (lru_cache.cache st)) _); [by rewrite Hcompact|].
  rewrite Harch.
  destruct (dict.__getitem__ (table (cache.load _ _)) _); fields.
  - rewrite is_archived_load, Harch, dump_safe_raises by done.
    by destruct (len_exceeds _ _); rewrite Hcompact.
  - destruct (user_function a); [|done]. fields.
    rewrite is_archived_setitem, is_archived_load, Harch, dump_safe_raises by done.
    by destruct (len_exceeds _ _); rewrite Hcompact.
Qed.

Lemma mru_archived_call (maxsize : Z) w (st : mru_cache.closure) (a : args) :
  cache.is_archived (mru_cache.cache st) = true →
  mru_inv st →
  dump_safe (__archive__ (mru_cache.cache st)) →
  let out := mru_cache.wrapper user_function maxsize w st a in
  (mru_cache.cache out.1, out.2)
  = archived_call user_function maxsize w (mru_cache.cache st) a.
Proof.
  intros Harch (_ & Hin & _) Hsafe.
  unfold mru_cache.wrapper, archived_call, mru_cache.purge, settle.
  pose proof (dump_safe_load _ (keymap a) Hsafe) as Hsafe'.
  destruct (dict.__getitem__ (table (mru_cache.cache st)) _) as [v|e] eqn:Hget.
  { apply getitem_elem_of in Hget.
    by destruct (queue_remove_ok _ _ (Hin _ Hget)) as (q' & -> & _). }
  rewrite Harch.
  destruct (dict.__getitem__ (table (cache.load _ _)) _); fields.
  - rewrite is_archived_load, Harch, dump_safe_raises by done.
    by destruct (len_exceeds _ _).
  - destruct (user_function a); [|done]. fields.
    rewrite is_archived_setitem, is_archived_load, Harch, dump_safe_raises by done.
    by destruct (len_exceeds _ _).
Qed.

Lemma rr_archived_call (maxsize : Z) w (st : rr_cache.closure) (a : args) :
  cache.is_archived (rr_cache.cache st) = true →
  dump_safe (__archive__ (rr_cache.cache st)) →
  let out := rr_cache.wrapper user_function maxsize w st a in
  (rr_cache.cache out.1, out.2)
  = archived_call user_function maxsize w (rr_cache.cache st) a.
Proof.
  intros Harch Hsafe. unfold rr_cache.wrapper, archived_call, rr_cache.purge, settle.
  pose proof (dump_safe_load _ (keymap a) Hsafe) as Hsafe'.
  destruct (dict.__getitem__ (table (rr_cache.cache st)) _); [done|]. rewrite Harch.
  destruct (dict.__getitem__ (table (cache.load _ _)) _); fields.
  - rewrite is_archived_load, Harch, dump_safe_raises by done.
    by destruct (len_exceeds _ _).
  - destruct (user_function a); [|done]. fields.
    rewrite is_archived_setitem, is_archived_load, Harch, dump_safe_raises by done.
    by destruct (len_exceeds _ _).
Qed.

(** With its archive on, an engine of any policy does to its cache what
    [archived_call] says. *)
Lemma engine_archived_call (maxsize : Z) w e (a : args) :
  cache.is_archived (engine.the_cache e) = true →
  engine_inv e →
  dump_safe (__archive__ (engine.the_cache e)) →
  let out := engine.call user_function maxsize w e a in
  (engine.the_cache out.1, out.2)
  = archived_call user_function maxsize w (engine.the_cache e) a.
Proof.
  intros Harch Hinv Hsafe. destruct e as [st|st|st|st]; simpl in *.
  - rewrite <- lfu_archived_call by done.
    by destruct (lfu_cache.wrapper user_function maxsize w st a).
  - rewrite <- lru_archived_call by done.
    by destruct (lru_cache.wrapper user_function maxsize w st a).
  - rewrite <- mru_archived_call by done.
    by destruct (mru_cache.wrapper user_function maxsize w st a).
  - rewrite <- rr_archived_call by done.
    by destruct (rr_cache.wrapper user_function maxsize w st a).
Qed.

(** Two engines on equal caches with the archive on stay so through the
    same calls. *)
Lemma engine_run_archived (maxsize : Z) (calls : list (world * args)) :
  ∀ e1 e2,
    (1 ≤ maxsize)%Z →
    engine_inv e1 → engine_inv e2 →
    (Z.of_nat (engine.size e1) ≤ maxsize)%Z →
    (Z.of_nat (engine.size e2) ≤ maxsize)%Z →
    cache.is_archived (engine.the_cache e1) = true →
    dump_safe (__archive__ (engine.the_cache e1)) →
    engine.the_cache e1 = engine.the_cache e2 →
    let e1' := engine.run user_function maxsize e1 calls in
    let e2' := engine.run user_function maxsize e2 calls in
    engine_inv e1' ∧ engine_inv e2'
    ∧ cache.is_archived (engine.the_cache e1') = true
    ∧ dump_safe (__archive__ (engine.the_cache e1'))
    ∧ engine.the_cache e1' = engine.the_cache e2'.
Proof.
  induction calls as [|[w a] calls IH];
    intros e1 e2 Hmax Hi1 Hi2 Hs1 Hs2 Harch Hsafe Heq; simpl.
  { done. }
  assert (dump_safe (__archive__ (engine.the_cache e2))) as Hsafe2 by (by rewrite <- Heq).
  destruct (engine_step user_function maxsize w e1 a Hmax Hi1 Hs1 Hsafe)
    as (Hi1' & Hs1' & _).
  destruct (engine_step user_function maxsize w e2 a Hmax Hi2 Hs2 Hsafe2)
    as (Hi2' & Hs2' & _).
  pose proof (engine_archived_call maxsize w e1 a Harch Hi1 Hsafe) as H1.
  pose proof (engine_archived_call maxsize w e2 a) as H2.
  rewrite <- Heq in H2. specialize (H2 Harch Hi2 Hsafe). simpl in H1, H2.
  apply IH; try done.
  - replace (engine.the_cache (engine.call user_function maxsize w e1 a).1)
      with (archived_call user_function maxsize w (engine.the_cache e1) a).1
      by (by rewrite <- H1).
    by rewrite is_archived_archived_call.
  - by apply engine_call_safe.
  - transitivity (archived_call user_function maxsize w (engine.the_cache e1) a).1.
    + by rewrite <- H1.
    + by rewrite <- H2.
Qed.
End archived_calls.

(** X20.  On a dictionary archive the policy of a bounded cache does
    not show: after the same calls the caches of two decorated functions
    of any two policies hold the same entries on the same archive, and
    the next call returns or raises the same. *)
Theorem bounded_cache_archive_hides_policy `{Signature}
    (user_function : args → result value) (p1 p2 : policy) (maxsize : Z)
    (d : list (key * value)) (calls : list (world * args)) (w : world) (x : args) :
  (1 ≤ maxsize)%Z →
  let e1 := engine.run user_function maxsize (engine.fresh p1 (dict_archive d)) calls in
  let e2 := engine.run user_function maxsize (engine.fresh p2 (dict_archive d)) calls in
  engine.the_cache e1 = engine.the_cache e2
  ∧ (engine.call user_function maxsize w e1 x).2
    = (engine.call user_function maxsize w e2 x).2
  ∧ engine.the_cache (engine.call user_function maxsize w e1 x).1
    = engine.the_cache (engine.call user_function maxsize w e2 x).1.
Proof.
  intros Hmax e1 e2.
  destruct (engine_inv_fresh p1 (dict_archive d)) as [Hi1 Hs1].
  destruct (engine_inv_fresh p2 (dict_archive d)) as [Hi2 Hs2].
  destruct (engine_run_archived user_function maxsize calls
              (engine.fresh p1 (dict_archive d)) (engine.fresh p2 (dict_archive d)))
    as (Hi1' & Hi2' & Harch & Hsafe & Heq); try done; try lia.
  - by destruct p1.
  - by destruct p1.
  - by destruct p1, p2.
  - fold e1 e2 in Hi1', Hi2', Harch, Hsafe, Heq.
    pose proof (engine_archived_call user_function maxsize w e1 x Harch Hi1' Hsafe) as H1.
    pose proof (engine_archived_call user_function maxsize w e2 x) as H2.
    rewrite <- Heq in H2. specialize (H2 Harch Hi2' Hsafe). simpl in H1, H2.
    rewrite <- H2 in H1. injection H1 as Hc Hr. done.
Qed.

Lemma bounded_cache_archive_hides_policy_witness :
  let calls := [(calm, "ab"%string); (calm, "c"%string); (calm, "def"%string)] in
  let e1 := engine.run string_length 2 (engine.fresh LRU (dict_archive [])) calls in
  let e2 := engine.run string_length 2 (engine.fresh MRU (dict_archive [])) calls in
  engine.the_cache e1 = engine.the_cache e2
  ∧ (engine.call string_length 2 calm e1 "ab"%string).2
    = (engine.call string_length 2 calm e2 "ab"%string).2
  ∧ engine.the_cache (engine.call string_length 2 calm e1 "ab"%string).1
    = engine.the_cache (engine.call string_length 2 calm e2 "ab"%string).1.
Proof.
  intros calls e1 e2.
  apply (@bounded_cache_archive_hides_policy string_signature string_length LRU MRU 2
           [] calls calm "ab"%string).
  lia.
Defined.

Section dict_archive_recall.
Context `{Signature}.
Implicit Types (c : cache) (k : key) (v : value) (e : engine).

Lemma recalls_setitem_eq c k v : recalls (cache.__setitem__ c k v) k v.
Proof. left. apply getitem_setitem. Qed.

Lemma recalls_setitem_ne c k k' v v' :
  k ≠ k' → recalls c k v → recalls (cache.__setitem__ c k' v') k v.
Proof.
  intros Hne [Hget|[Hk Ha]]; [left|right]; fields.
  - apply getitem_Ok. rewrite lookup_setitem, decide_False by done. by apply getitem_Ok.
  - split; [|done]. rewrite keys_setitem. case_decide; [done|].
    rewrite not_elem_of_app, not_elem_of_cons. split_and!; [done | done | apply not_elem_of_nil].
Qed.

Lemma load_dict_archive c d k :
  __archive__ c = dict_archive d →
  cache.load c k
  = match dict.__getitem__ d k with
    | Ok v => cache.__setitem__ c k v
    | Raise _ => c
    end.
Proof.
  intros Hd. unfold cache.load, cache.__setitem__. rewrite Hd. simpl.
  by destruct (dict.__getitem__ d k).
Qed.

Lemma recalls_load c d k k' v :
  __archive__ c = dict_archive d →
  k' ∉ dict.keys (table c) →
  recalls c k v → recalls (cache.load c k') k v.
Proof.
  intros Hd Hk' Hr. rewrite (load_dict_archive c d) by done.
  destruct (dict.__getitem__ d k') as [v'|] eqn:Hget; [|done].
  destruct (decide (k = k')) as [->|Hne]; [|by apply recalls_setitem_ne].
  destruct Hr as [Hr|[_ Hr]].
  - apply getitem_elem_of in Hr. done.
  - rewrite Hd in Hr. simpl in Hr. rewrite Hr in Hget. injection Hget as ->.
    apply recalls_setitem_eq.
Qed.

Lemma recalls_settle (maxsize : Z) w c d k v :
  __archive__ c = dict_archive d →
  NoDup (dict.keys (table c)) →
  recalls c k v → recalls (settle maxsize w c) k v.
Proof.
  intros Hd Hnd Hr. unfold settle. destruct (len_exceeds _ _); [|done].
  right. fields. split; [apply not_elem_of_nil|].
  rewrite Hd. simpl. apply getitem_Ok. rewrite lookup_update by done.
  destruct Hr as [Hr|[Hk Hr]].
  - apply getitem_Ok in Hr. by rewrite Hr.
  - apply lookup_key_None in Hk. rewrite Hk. apply getitem_Ok.
    by rewrite Hd in Hr.
Qed.

Lemma archive_settle (maxsize : Z) w c d :
  __archive__ c = dict_archive d →
  ∃ d', __archive__ (settle maxsize w c) = dict_archive d'.
Proof.
  intros Hd. unfold settle. destruct (len_exceeds _ _); [|by eauto].
  simpl. rewrite Hd. simpl. by eauto.
Qed.

Lemma archive_load c k : __archive__ (cache.load c k) = __archive__ c.
Proof. unfold cache.load. by destruct (archive_ops.__getitem__ _ _). Qed.

Lemma NoDup_keys_load c k :
  NoDup (dict.keys (table c)) → NoDup (dict.keys (table (cache.load c k))).
Proof.
  intros Hnd. unfold cache.load. destruct (archive_ops.__getitem__ _ _); [|done].
  simpl. by apply NoDup_keys_setitem.
Qed.

(** What one call on a dictionary archive keeps and adds. *)
Lemma archived_call_recalls (f : args → result value) (maxsize : Z) w c d (a : args) :
  __archive__ c = dict_archive d →
  NoDup (dict.keys (table c)) →
  let out := archived_call f maxsize w c a in
  (∃ d', __archive__ out.1 = dict_archive d')
  ∧ (∀ k v, recalls c k v → recalls out.1 k v)
  ∧ (∀ v, out.2 = Ok v → recalls out.1 (keymap a) v).
Proof.
  intros Hd Hnd. unfold archived_call.
  destruct (dict.__getitem__ (table c) (keymap a)) as [v0|e0] eqn:Hget; simpl.
  { split_and!; [by eauto | done | intros v [= <-]; by left]. }
  apply getitem_Raise in Hget as [_ Hk].
  pose proof (archive_load c (keymap a)) as Ha. rewrite Hd in Ha.
  pose proof (NoDup_keys_load c (keymap a) Hnd) as Hnd1.
  assert (∀ k v, recalls c k v → recalls (cache.load c (keymap a)) k v) as Hload.
  { intros k v. by apply (recalls_load c d). }
  destruct (dict.__getitem__ (table (cache.load c (keymap a))) (keymap a))
    as [v1|e1] eqn:Hget1; simpl.
  { split_and!.
    - by apply (archive_settle _ _ _ d).
    - intros k v Hr. apply (recalls_settle _ _ _ d); auto.
    - intros v [= <-]. apply (recalls_settle _ _ _ d); [done | done | by left]. }
  apply getitem_Raise in Hget1 as [_ Hk1].
  destruct (f a) as [v2|e2]; simpl.
  - assert (NoDup (dict.keys (table (cache.__setitem__ (cache.load c (keymap a))
                                                        (keymap a) v2)))) as Hnd2.
    { simpl. by apply NoDup_keys_setitem. }
    split_and!.
    + by apply (archive_settle _ _ _ d).
    + intros k v Hr. apply (recalls_settle _ _ _ d); [done | done |].
      apply recalls_setitem_ne; [|by apply Hload].
      intros ->. destruct (Hload _ _ Hr) as [Hr'|[_ Hr']].
      * apply getitem_elem_of in Hr'. done.
      * rewrite Ha in Hr'. simpl in Hr'.
        rewrite (load_dict_archive c d), Hr' in Hk1 by done.
        apply Hk1. simpl. rewrite keys_setitem. case_decide; [done|]. set_solver.
    + intros v [= <-]. apply (recalls_settle _ _ _ d); [done | done |].
      apply recalls_setitem_eq.
  - split_and!; [by eauto | done | done].
Qed.

(** A call on a key that is recalled returns its value, the function not
    being called. *)
Lemma archived_call_recalled (g : args → result value) (maxsize : Z) w c d (a : args) v :
  __archive__ c = dict_archive d →
  recalls c (keymap a) v →
  (archived_call g maxsize w c a).2 = Ok v.
Proof.
  intros Hd Hr. unfold archived_call.
  destruct Hr as [Hr|[Hk Hr]]; [by rewrite Hr|].
  rewrite (getitem_not_elem_of _ _ Hk).
  rewrite Hd in Hr. simpl in Hr.
  rewrite (load_dict_archive c d), Hr by done. simpl.
  by rewrite getitem_setitem.
Qed.

Lemma engine_inv_NoDup e : engine_inv e → NoDup (dict.keys (table (engine.the_cache e))).
Proof. destruct e as [st|st|st|st]; simpl; [by intros [? _]..|done]. Qed.

Lemma engine_run_recalls (f : args → result value) (maxsize : Z)
    (calls : list (world * args)) :
  ∀ e d,
    (1 ≤ maxsize)%Z →
    engine_inv e →
    (Z.of_nat (engine.size e) ≤ maxsize)%Z →
    __archive__ (engine.the_cache e) = dict_archive d →
    let e' := engine.run f maxsize e calls in
    engine_inv e'
    ∧ (Z.of_nat (engine.size e') ≤ maxsize)%Z
    ∧ (∃ d', __archive__ (engine.the_cache e') = dict_archive d')
    ∧ (∀ k v, recalls (engine.the_cache e) k v → recalls (engine.the_cache e') k v).
Proof.
  induction calls as [|[w a] calls IH]; intros e d Hmax Hi Hs Hd; simpl.
  { split_and!; by eauto. }
  assert (dump_safe (__archive__ (engine.the_cache e))) as Hsafe by (by rewrite Hd).
  destruct (engine_step f maxsize w e a Hmax Hi Hs Hsafe) as (Hi' & Hs' & _).
  assert (cache.is_archived (engine.the_cache e) = true) as Harch.
  { unfold cache.is_archived. by rewrite Hd. }
  pose proof (engine_archived_call f maxsize w e a Harch Hi Hsafe) as Hcall.
  destruct (archived_call_recalls f maxsize w (engine.the_cache e) d a Hd
              (engine_inv_NoDup e Hi)) as ([d' Hd'] & Hkeep & _).
  simpl in Hcall. rewrite <- Hcall in Hd', Hkeep. simpl in Hd', Hkeep.
  destruct (IH _ d' Hmax Hi' Hs' Hd') as (? & ? & ? & Hrest).
  split_and!; try done. intros k v Hr. by apply Hrest, Hkeep.
Qed.
End dict_archive_recall.

(** X21.  A bounded cache on a dictionary archive forgets nothing: once a
    call has returned a value, every later call with arguments of the same
    key returns this value without calling the function, whatever calls
    were made in between and whichever entries were dumped to the archive
    and cleared from the cache. *)
Theorem bounded_cache_dict_archive_remembers `{Signature}
    (user_function g : args → result value) (p : policy) (maxsize : Z)
    (d : list (key * value)) (before between : list (world * args))
    (w w' : world) (a a' : args) (v : value) :
  (1 ≤ maxsize)%Z →
  let e := engine.run user_function maxsize (engine.fresh p (dict_archive d)) before in
  (engine.call user_function maxsize w e a).2 = Ok v →
  keymap a' = keymap a →
  let e1 := (engine.call user_function maxsize w e a).1 in
  let e2 := engine.run user_function maxsize e1 between in
  (engine.call g maxsize w' e2 a').2 = Ok v.
Proof.
  intros Hmax e Hres Hkey e1 e2.
  destruct (engine_inv_fresh p (dict_archive d)) as [Hi0 Hs0].
  destruct (engine_run_recalls user_function maxsize before
              (engine.fresh p (dict_archive d)) d)
    as (Hi & Hs & [d1 Hd1] & _); [done | done | lia | by destruct p |].
  fold e in Hi, Hs, Hd1.
  assert (cache.is_archived (engine.the_cache e) = true) as Harch.
  { unfold cache.is_archived. by rewrite Hd1. }
  assert (dump_safe (__archive__ (engine.the_cache e))) as Hsafe by (by rewrite Hd1).
  destruct (engine_step user_function maxsize w e a Hmax Hi Hs Hsafe) as (Hi1 & Hs1 & _).
  pose proof (engine_archived_call user_function maxsize w e a Harch Hi Hsafe) as Hcall.
  destruct (archived_call_recalls user_function maxsize w (engine.the_cache e) d1 a Hd1
              (engine_inv_NoDup e Hi)) as ([d2 Hd2] & _ & Hnew).
  simpl in Hcall. rewrite <- Hcall in Hd2, Hnew. simpl in Hd2, Hnew.
  specialize (Hnew v Hres). fold e1 in Hi1, Hs1, Hd2, Hnew.
  destruct (engine_run_recalls user_function maxsize between e1 d2)
    as (Hi2 & Hs2 & [d3 Hd3] & Hkeep); [done..|].
  fold e2 in Hi2, Hs2, Hd3, Hkeep. apply Hkeep in Hnew.
  assert (cache.is_archived (engine.the_cache e2) = true) as Harch2.
  { unfold cache.is_archived. by rewrite Hd3. }
  assert (dump_safe (__archive__ (engine.the_cache e2))) as Hsafe2 by (by rewrite Hd3).
  pose proof (engine_archived_call g maxsize w' e2 a' Harch2 Hi2 Hsafe2) as Hcall2.
  apply (f_equal snd) in Hcall2. simpl in Hcall2. rewrite Hcall2.
  apply (archived_call_recalled g maxsize w' _ d3); [done|]. by rewrite Hkey.
Qed.

(** The value of [ab], dumped to the archive when [def] enters, comes
    back from it. *)
Lemma bounded_cache_dict_archive_remembers_witness :
  let e := engine.run string_length 2 (engine.fresh LFU (dict_archive []))
                      [(calm, "c"%string)] in
  let e1 := (engine.call string_length 2 calm e "ab"%string).1 in
  let e2 := engine.run string_length 2 e1 [(calm, "def"%string)] in
  engine.size e2 = 0
  ∧ (engine.call (λ _, Raise (UserError 0)) 2 calm e2 "ab"%string).2 = Ok 2%Z.
Proof.
  intros e e1 e2. split; [reflexivity|].
  apply (@bounded_cache_dict_archive_remembers string_signature string_length
           (λ _, Raise (UserError 0)) LFU 2 [] [(calm, "c"%string)] [(calm, "def"%string)]
           calm calm "ab"%string "ab"%string 2%Z).
  - lia.
  - reflexivity.
  - reflexivity.
Defined.

(** ** [no_cache] on an archive *)

Section no_cache_archive.
Context `{Signature}.
Implicit Types (st : no_cache.closure) (k : key) (v : value).

(** One call of a [no_cache] wrapper on a dictionary archive: the cache
    stays empty, the archive keeps what it holds and takes the value
    returned. *)
Lemma no_cache_dict_archive_step (f : args → result value) w st d (a : args) :
  table (no_cache.cache st) = [] →
  __archive__ (no_cache.cache st) = dict_archive d →
  let out := no_cache.wrapper f w st a in
  table (no_cache.cache out.1) = []
  ∧ (∃ d', __archive__ (no_cache.cache out.1) = dict_archive d'
           ∧ (∀ k v, dict.__getitem__ d k = Ok v → dict.__getitem__ d' k = Ok v)
           ∧ (∀ v, out.2 = Ok v → dict.__getitem__ d' (keymap a) = Ok v)).
Proof.
  intros Ht Hd. unfold no_cache.wrapper.
  assert (cache.is_archived (no_cache.cache st) = true) as ->.
  { unfold cache.is_archived. by rewrite Hd. }
  rewrite (load_dict_archive _ d) by done.
  destruct (dict.__getitem__ d (keymap a)) as [v0|e0] eqn:Hget.
  - simpl. rewrite getitem_setitem. unfold no_cache.purge. simpl.
    split; [done|]. exists d. split_and!; [done | done |]. by intros v [= <-].
  - rewrite Ht. simpl. destruct (f a) as [v1|e1]; simpl.
    + unfold no_cache.purge. cbn [cache.__setitem__ table]. rewrite Ht.
      assert (len_exceeds (dict.__setitem__ [] (keymap a) v1) no_cache.maxsize = true) as ->.
      { by apply len_exceeds_true. }
      unfold cache.is_archived. simpl. rewrite Hd. simpl. rewrite Hd, Ht. simpl.
      split; [done|]. exists (dict.__setitem__ d (keymap a) v1). split_and!; [done | |].
      * intros k v Hk. apply getitem_Ok. rewrite lookup_setitem.
        case_decide as Heq; [subst; by rewrite Hk in Hget|]. by apply getitem_Ok.
      * intros v [= <-]. apply getitem_setitem.
    + split; [done|]. exists d. done.
Qed.

Lemma no_cache_dict_archive_run (f : args → result value) (calls : list (world * args)) :
  ∀ st d,
    table (no_cache.cache st) = [] →
    __archive__ (no_cache.cache st) = dict_archive d →
    let st' := run_calls (no_cache.wrapper f) st calls in
    table (no_cache.cache st') = []
    ∧ (∃ d', __archive__ (no_cache.cache st') = dict_archive d'
             ∧ (∀ k v, dict.__getitem__ d k = Ok v → dict.__getitem__ d' k = Ok v)).
Proof.
  unfold run_calls. induction calls as [|[w a] calls IH]; intros st d Ht Hd; simpl.
  { by eauto. }
  destruct (no_cache_dict_archive_step f w st d a Ht Hd) as (Ht1 & d1 & Hd1 & Hkeep1 & _).
  destruct (IH _ d1 Ht1 Hd1) as (Ht2 & d2 & Hd2 & Hkeep2).
  split; [done|]. exists d2. split; [done|]. intros k v Hk. by apply Hkeep2, Hkeep1.
Qed.
End no_cache_archive.

(** X22.  A function decorated with [no_cache] on a dictionary archive
    is memoised by the archive: once a call has returned a value, every
    later call with arguments of the same key returns this value without
    calling the function and counts a load; the cache itself is empty
    before and after. *)
Theorem no_cache_dict_archive_memoizes `{Signature}
    (user_function g : args → result value) (d : list (key * value))
    (before between : list (world * args)) (w w' : world) (a a' : args) (v : value) :
  let st := run_calls (no_cache.wrapper user_function)
              (no_cache.fresh (dict_archive d)) before in
  (no_cache.wrapper user_function w st a).2 = Ok v →
  keymap a' = keymap a →
  let st1 := (no_cache.wrapper user_function w st a).1 in
  let st2 := run_calls (no_cache.wrapper user_function) st1 between in
  no_cache.wrapper g w' st2 a'
  = (no_cache.Closure (no_cache.cache st2) (incr_LOAD (no_cache.stats st2)), Ok v)
  ∧ table (no_cache.cache st2) = [].
Proof.
  intros st Hres Hkey st1 st2.
  destruct (no_cache_dict_archive_run user_function before
              (no_cache.fresh (dict_archive d)) d) as (Ht & d0 & Hd0 & _); [done..|].
  fold st in Ht, Hd0.
  destruct (no_cache_dict_archive_step user_function w st d0 a Ht Hd0)
    as (Ht1 & d1 & Hd1 & _ & Hnew).
  specialize (Hnew v Hres). fold st1 in Ht1, Hd1.
  destruct (no_cache_dict_archive_run user_function between st1 d1 Ht1 Hd1)
    as (Ht2 & d2 & Hd2 & Hkeep).
  fold st2 in Ht2, Hd2. apply Hkeep in Hnew. split; [|done].
  unfold no_cache.wrapper.
  assert (cache.is_archived (no_cache.cache st2) = true) as ->.
  { unfold cache.is_archived. by rewrite Hd2. }
  rewrite (load_dict_archive _ d2), Hkey, Hnew by done.
  simpl. rewrite getitem_setitem. unfold no_cache.purge. simpl.
  do 2 f_equal. destruct (no_cache.cache st2). simpl in *. by subst.
Qed.

Lemma no_cache_dict_archive_memoizes_witness :
  let st := run_calls (no_cache.wrapper string_length)
              (no_cache.fresh (dict_archive [])) [(calm, "c"%string)] in
  let st1 := (no_cache.wrapper string_length calm st "ab"%string).1 in
  let st2 := run_calls (no_cache.wrapper string_length) st1 [(calm, "def"%string)] in
  no_cache.wrapper (λ _, Raise (UserError 0)) calm st2 "ab"%string
  = (no_cache.Closure (no_cache.cache st2) (incr_LOAD (no_cache.stats st2)), Ok 2%Z)
  ∧ table (no_cache.cache st2) = [].
Proof.
  intros st st1 st2.
  apply (@no_cache_dict_archive_memoizes string_signature string_length
           (λ _, Raise (UserError 0)) [] [(calm, "c"%string)] [(calm, "def"%string)]
           calm calm "ab"%string "ab"%string 2%Z).
  - reflexivity.
  - reflexivity.
Defined.
